(** * Shadow tree differentiator, child-pair slicer, TinyMap and tree registry

    A shallow embedding of
    [ReactCommon/fabric/mounting/Differentiator.cpp] and
    [ReactCommon/fabric/mounting/ShadowTreeRegistry.cpp], followed by the
    properties of the mutation stream, of the slicer, of the sibling
    reordering, of [TinyMap] and of the registry.

    Layout of the development: first every definition (the model of the
    code, the host tree the mutations are applied to, concrete trees used
    as examples), then the lemmas. *)

From Stdlib Require Import ZArith Floats.
From stdpp Require Import base option list gmap strings sorting.

#[local] Set Warnings "-register-all".

(** ** Results of fallible code

    [assert] aborts the program; the recursive driver is given a recursion
    budget because its recursion follows the depth of the shadow trees and
    not the structure of one argument. *)

Inductive outcome (A : Type) : Type :=
| Done (a : A)
| AssertionFailed
| OutOfFuel.

Arguments Done {A} a.
Arguments AssertionFailed {A}.
Arguments OutOfFuel {A}.

Definition bind {A B : Type} (m : outcome A) (k : A -> outcome B) : outcome B :=
  match m with
  | Done a => k a
  | AssertionFailed => AssertionFailed
  | OutOfFuel => OutOfFuel
  end.

Notation "'do' x <- m ; k" := (bind m (fun x => k))
  (at level 10, x pattern, m at level 100, k at level 200).

(** ** Floating point numbers of the layout

    [Float] of the renderer is a platform type ([float] or [double]).  The
    code only adds coordinates and compares them, so the model takes the
    carrier with these two operations and assumes no law about them: the
    comparison need not even be reflexive (it is not on NaN). *)

Class FloatOps := {
  Float : Type;
  Float_add : Float -> Float -> Float;
  Float_eqb : Float -> Float -> bool;
  Float_zero : Float }.

Abbreviation Tag := Z (only parsing).
Abbreviation SurfaceId := Z (only parsing).

(** ** TinyMap (Differentiator.cpp, lines 41-80) *)

Module TinyMap.
(** [Pair = std::pair<KeyT, ValueT>] with [KeyT = Tag]; the map is its
    backing small vector [vector_]. *)
Abbreviation Pair ValueT := (Z * ValueT)%type.
Abbreviation t ValueT := (list (Z * ValueT)).

(** [Iterator = Pair *]: a pointer to a slot of the vector is the slot's
    position; [None] is [nullptr]. *)
Abbreviation Iterator := (option nat).

Section Defs.
Context {ValueT : Type}.
Implicit Types (m : t ValueT) (it : Iterator).

Definition empty : t ValueT := [].

(** [end()] returns [nullptr].  [begin()] is left out: nothing calls it,
    and its body casts the vector object, not its storage, to a slot
    pointer. *)
Definition end_ : Iterator := None.

(** The range-for of [find] over [vector_], the only loop over the slots
    the class has; [slot] is the position of the first of [items]. *)
Fixpoint find_from (key : Tag) (items : t ValueT) (slot : nat) : Iterator :=
  match items with
  | [] => end_
  | item :: rest =>
      if (item.1 =? key)%Z then Some slot else find_from key rest (S slot)
  end.

(** [find(key)]: linear scan for the first slot whose key is [key]. *)
Definition find (key : Tag) m : Iterator := find_from key m 0.

(** [insert(pair)]: [assert(pair.first != 0)], then [push_back]. *)
Definition insert (pair : Pair ValueT) m : outcome (t ValueT) :=
  if (pair.1 =? 0)%Z then AssertionFailed else Done (m ++ [pair]).

(** [erase(iterator)]: [iterator->first = 0].  The argument is the slot a
    non-null iterator points at. *)
Definition erase (slot : nat) m : t ValueT :=
  alter (fun item : Pair ValueT => (0%Z, item.2)) slot m.

End Defs.
End TinyMap.

(** ** The data model *)

Section Model.
Context `{FloatOps}.

Record Point := mkPoint { x : Float; y : Float }.
Record Size := mkSize { width : Float; height : Float }.
Record Rect := mkRect { origin : Point; size : Size }.
Record LayoutMetrics := mkLayoutMetrics { frame : Rect }.

(** [origin += offset] *)
Definition Point_add (p q : Point) : Point :=
  {| x := Float_add (x p) (x q); y := Float_add (y p) (y q) |}.

Definition Point_eqb (p q : Point) : bool :=
  Float_eqb (x p) (x q) && Float_eqb (y p) (y q).

Definition Size_eqb (p q : Size) : bool :=
  Float_eqb (width p) (width q) && Float_eqb (height p) (height q).

Definition Rect_eqb (p q : Rect) : bool :=
  Point_eqb (origin p) (origin q) && Size_eqb (size p) (size q).

Definition LayoutMetrics_eqb (p q : LayoutMetrics) : bool :=
  Rect_eqb (frame p) (frame q).

(** Modelled from the spec: [ShadowView.h] is not among the sources.  A
    shadow view is the value [{tag, componentName, props, layoutMetrics,
    state, eventEmitter}]; props, state and event emitter are shared
    pointers, kept as the integer that identifies the object. *)
Record ShadowView := mkShadowView {
  tag : Tag;
  componentName : string;
  props : Z;
  eventEmitter : Z;
  layoutMetrics : LayoutMetrics;
  state : Z }.

(** Modelled from the spec: equality of shadow views is pointwise over
    the fields. *)
Definition ShadowView_eqb (lhs rhs : ShadowView) : bool :=
  (tag lhs =? tag rhs)%Z
  && String.eqb (componentName lhs) (componentName rhs)
  && (props lhs =? props rhs)%Z
  && (eventEmitter lhs =? eventEmitter rhs)%Z
  && LayoutMetrics_eqb (layoutMetrics lhs) (layoutMetrics rhs)
  && (state lhs =? state rhs)%Z.

Inductive Trait := FormsView | FormsStackingContext.

Record ShadowNodeTraits := mkTraits {
  formsView : bool;
  formsStackingContext : bool }.

Definition check (traits : ShadowNodeTraits) (trait : Trait) : bool :=
  match trait with
  | FormsView => formsView traits
  | FormsStackingContext => formsStackingContext traits
  end.

(** Modelled from the spec: [ShadowNode.h] is not among the sources.  A
    node exposes its identity, the fields its shadow view is projected
    from, an order index, traits and children. *)
Inductive ShadowNode := mkShadowNode {
  getTag : Tag;
  getSurfaceId : SurfaceId;
  getComponentName : string;
  getProps : Z;
  getEventEmitter : Z;
  getLayoutMetrics : LayoutMetrics;
  getState : Z;
  getOrderIndex : Z;
  getTraits : ShadowNodeTraits;
  getChildren : list ShadowNode }.

(** Modelled from the spec: [ShadowView(shadowNode)], the projection of a
    node. *)
Definition ShadowView_of (shadowNode : ShadowNode) : ShadowView :=
  {| tag := getTag shadowNode;
     componentName := getComponentName shadowNode;
     props := getProps shadowNode;
     eventEmitter := getEventEmitter shadowNode;
     layoutMetrics := getLayoutMetrics shadowNode;
     state := getState shadowNode |}.

(** Modelled from the spec: two nodes are of the same family when they
    have the same tag, surface and component type. *)
Definition sameFamily (lhs rhs : ShadowNode) : bool :=
  (getTag lhs =? getTag rhs)%Z
  && (getSurfaceId lhs =? getSurfaceId rhs)%Z
  && String.eqb (getComponentName lhs) (getComponentName rhs).

Record ShadowViewNodePair := mkPair {
  shadowView : ShadowView;
  shadowNode : ShadowNode }.

(** Modelled from the spec: [operator==] of pairs is declared in
    [ShadowView.h]; pair equality is [lhs.view == rhs.view]. *)
Definition ShadowViewNodePair_eqb (lhs rhs : ShadowViewNodePair) : bool :=
  ShadowView_eqb (shadowView lhs) (shadowView rhs).

(** Modelled from the spec: the five variants of [ShadowViewMutation],
    with the arguments of the factory functions the differentiator
    calls. *)
Inductive ShadowViewMutation :=
| CreateMutation (newChildShadowView : ShadowView)
| DeleteMutation (oldChildShadowView : ShadowView)
| InsertMutation (parentShadowView childShadowView : ShadowView) (index : Z)
| RemoveMutation (parentShadowView childShadowView : ShadowView) (index : Z)
| UpdateMutation (parentShadowView oldChildShadowView newChildShadowView : ShadowView)
    (index : Z).

(** The depth of a shadow tree below a node. *)
Fixpoint depth (shadowNode : ShadowNode) : nat :=
  match shadowNode with
  | mkShadowNode _ _ _ _ _ _ _ _ _ children =>
      foldr (fun child d => Nat.max (S (depth child)) d) 0 children
  end.

(** ** Sibling reorder (Differentiator.cpp, lines 82-113) *)

Definition shouldFirstPairComesBeforeSecondOne (lhs rhs : ShadowViewNodePair) : bool :=
  (getOrderIndex (shadowNode lhs) <? getOrderIndex (shadowNode rhs))%Z.

(** [std::stable_sort] of the C++ library, as a stable insertion sort
    with the comparator [comes_before]: an element is placed after the
    elements that come before it and in front of all the others. *)
Fixpoint stable_insert {A : Type} (comes_before : A -> A -> bool) (a : A) (sorted : list A)
    : list A :=
  match sorted with
  | [] => [a]
  | b :: rest =>
      if comes_before b a then b :: stable_insert comes_before a rest
      else a :: b :: rest
  end.

Definition stable_sort {A : Type} (comes_before : A -> A -> bool) (l : list A) : list A :=
  foldr (stable_insert comes_before) [] l.

Definition isReorderNeeded (pairs : list ShadowViewNodePair) : bool :=
  existsb (fun pair => negb (getOrderIndex (shadowNode pair) =? 0)%Z) pairs.

Definition reorderInPlaceIfNeeded (pairs : list ShadowViewNodePair)
    : list ShadowViewNodePair :=
  if (length pairs <? 2)%nat then pairs
  else if negb (isReorderNeeded pairs) then pairs
  else stable_sort shouldFirstPairComesBeforeSecondOne pairs.

(** ** Child-pair slicer (Differentiator.cpp, lines 115-152) *)

(** [ShadowView(childShadowNode)] with
    [layoutMetrics.frame.origin += layoutOffset]. *)
Definition offsetShadowView (layoutOffset : Point) (childShadowNode : ShadowNode)
    : ShadowView :=
  let view := ShadowView_of childShadowNode in
  {| tag := tag view;
     componentName := componentName view;
     props := props view;
     eventEmitter := eventEmitter view;
     layoutMetrics :=
       {| frame :=
            {| origin := Point_add (origin (frame (layoutMetrics view))) layoutOffset;
               size := size (frame (layoutMetrics view)) |} |};
     state := state view |}.

Fixpoint sliceChildShadowNodeViewPairsRecursively
    (pairList : list ShadowViewNodePair) (layoutOffset : Point) (shadowNode : ShadowNode)
    {struct shadowNode} : list ShadowViewNodePair :=
  match shadowNode with
  | mkShadowNode _ _ _ _ _ _ _ _ _ children =>
      (fix loop (children : list ShadowNode) (pairList : list ShadowViewNodePair)
          {struct children} : list ShadowViewNodePair :=
         match children with
         | [] => pairList
         | childShadowNode :: others =>
             let shadowView := offsetShadowView layoutOffset childShadowNode in
             if check (getTraits childShadowNode) FormsStackingContext then
               loop others (pairList ++ [mkPair shadowView childShadowNode])
             else
               let pairList :=
                 if check (getTraits childShadowNode) FormsView
                 then pairList ++ [mkPair shadowView childShadowNode]
                 else pairList in
               loop others
                 (sliceChildShadowNodeViewPairsRecursively pairList
                    (origin (frame (layoutMetrics shadowView))) childShadowNode)
         end) children pairList
  end.

Definition sliceChildShadowNodeViewPairs (shadowNode : ShadowNode)
    : list ShadowViewNodePair :=
  let pairList := [] in
  if negb (check (getTraits shadowNode) FormsStackingContext)
     && check (getTraits shadowNode) FormsView
  then pairList
  else sliceChildShadowNodeViewPairsRecursively pairList
         (mkPoint Float_zero Float_zero) shadowNode.

(** ** The differentiator (Differentiator.cpp, lines 184-388) *)

(** The local mutation lists of one call of the recursive driver. *)
Record Accumulators := mkAccumulators {
  createMutations : list ShadowViewMutation;
  deleteMutations : list ShadowViewMutation;
  insertMutations : list ShadowViewMutation;
  removeMutations : list ShadowViewMutation;
  updateMutations : list ShadowViewMutation;
  downwardMutations : list ShadowViewMutation;
  destructiveDownwardMutations : list ShadowViewMutation }.

Definition noMutations : Accumulators :=
  mkAccumulators [] [] [] [] [] [] [].

Definition push_create (m : ShadowViewMutation) (acc : Accumulators) : Accumulators :=
  mkAccumulators (createMutations acc ++ [m]) (deleteMutations acc) (insertMutations acc)
    (removeMutations acc) (updateMutations acc) (downwardMutations acc)
    (destructiveDownwardMutations acc).

Definition push_delete (m : ShadowViewMutation) (acc : Accumulators) : Accumulators :=
  mkAccumulators (createMutations acc) (deleteMutations acc ++ [m]) (insertMutations acc)
    (removeMutations acc) (updateMutations acc) (downwardMutations acc)
    (destructiveDownwardMutations acc).

Definition push_insert (m : ShadowViewMutation) (acc : Accumulators) : Accumulators :=
  mkAccumulators (createMutations acc) (deleteMutations acc) (insertMutations acc ++ [m])
    (removeMutations acc) (updateMutations acc) (downwardMutations acc)
    (destructiveDownwardMutations acc).

Definition push_remove (m : ShadowViewMutation) (acc : Accumulators) : Accumulators :=
  mkAccumulators (createMutations acc) (deleteMutations acc) (insertMutations acc)
    (removeMutations acc ++ [m]) (updateMutations acc) (downwardMutations acc)
    (destructiveDownwardMutations acc).

Definition push_update (m : ShadowViewMutation) (acc : Accumulators) : Accumulators :=
  mkAccumulators (createMutations acc) (deleteMutations acc) (insertMutations acc)
    (removeMutations acc) (updateMutations acc ++ [m]) (downwardMutations acc)
    (destructiveDownwardMutations acc).

Definition set_downward (ms : list ShadowViewMutation) (acc : Accumulators) : Accumulators :=
  mkAccumulators (createMutations acc) (deleteMutations acc) (insertMutations acc)
    (removeMutations acc) (updateMutations acc) ms (destructiveDownwardMutations acc).

Definition set_destructiveDownward (ms : list ShadowViewMutation) (acc : Accumulators)
    : Accumulators :=
  mkAccumulators (createMutations acc) (deleteMutations acc) (insertMutations acc)
    (removeMutations acc) (updateMutations acc) (downwardMutations acc) ms.

(** The recursive driver as seen from inside its own body: it appends to
    the list it is given. *)
Definition Driver : Type :=
  list ShadowViewMutation -> ShadowView ->
  list ShadowViewNodePair -> list ShadowViewNodePair ->
  outcome (list ShadowViewMutation).

(** A recursive call whose target list is [downwardMutations] or
    [destructiveDownwardMutations]. *)
Definition recurseInto (rec : Driver) (intoDownward : bool) (acc : Accumulators)
    (parentShadowView : ShadowView) (oldChildPairs newChildPairs : list ShadowViewNodePair)
    : outcome Accumulators :=
  if intoDownward then
    do ms <- rec (downwardMutations acc) parentShadowView oldChildPairs newChildPairs;
    Done (set_downward ms acc)
  else
    do ms <- rec (destructiveDownwardMutations acc) parentShadowView
               oldChildPairs newChildPairs;
    Done (set_destructiveDownward ms acc).

(** [newGrandChildPairs.size() ? &downwardMutations
                               : &destructiveDownwardMutations] *)
Definition hasPairs (pairs : list ShadowViewNodePair) : bool :=
  negb (length pairs =? 0)%nat.

(** Stage 1: collecting [Update] mutations.  The two lists are walked
    from position [index] on; the result is the position where the walk
    stopped. *)
Fixpoint stage1 (rec : Driver) (parentShadowView : ShadowView)
    (oldChildPairs newChildPairs : list ShadowViewNodePair) (index : nat)
    (acc : Accumulators) : outcome (nat * Accumulators) :=
  match oldChildPairs, newChildPairs with
  | oldChildPair :: oldRest, newChildPair :: newRest =>
      if negb (tag (shadowView oldChildPair) =? tag (shadowView newChildPair))%Z then
        Done (index, acc)
      else
        let acc :=
          if negb (ShadowView_eqb (shadowView oldChildPair) (shadowView newChildPair))
          then push_update
                 (UpdateMutation parentShadowView (shadowView oldChildPair)
                    (shadowView newChildPair) (Z.of_nat index)) acc
          else acc in
        let oldGrandChildPairs := sliceChildShadowNodeViewPairs (shadowNode oldChildPair) in
        let newGrandChildPairs := sliceChildShadowNodeViewPairs (shadowNode newChildPair) in
        do acc <- recurseInto rec (hasPairs newGrandChildPairs) acc
                    (shadowView oldChildPair) oldGrandChildPairs newGrandChildPairs;
        stage1 rec parentShadowView oldRest newRest (S index) acc
  | _, _ => Done (index, acc)
  end.

(** Stage 2: collecting [Insert] mutations, over [newChildPairs] from
    [index] on. *)
Fixpoint stage2 (parentShadowView : ShadowView) (newChildPairs : list ShadowViewNodePair)
    (index : nat) (acc : Accumulators) (insertedPairs : TinyMap.t ShadowViewNodePair)
    : outcome (Accumulators * TinyMap.t ShadowViewNodePair) :=
  match newChildPairs with
  | [] => Done (acc, insertedPairs)
  | newChildPair :: newRest =>
      let acc :=
        push_insert
          (InsertMutation parentShadowView (shadowView newChildPair) (Z.of_nat index)) acc in
      do insertedPairs <-
           TinyMap.insert (tag (shadowView newChildPair), newChildPair) insertedPairs;
      stage2 parentShadowView newRest (S index) acc insertedPairs
  end.

(** Stage 3: collecting [Delete] and [Remove] mutations, over
    [oldChildPairs] from [index] on. *)
Fixpoint stage3 (rec : Driver) (parentShadowView : ShadowView)
    (oldChildPairs : list ShadowViewNodePair) (index : nat) (acc : Accumulators)
    (insertedPairs : TinyMap.t ShadowViewNodePair)
    : outcome (Accumulators * TinyMap.t ShadowViewNodePair) :=
  match oldChildPairs with
  | [] => Done (acc, insertedPairs)
  | oldChildPair :: oldRest =>
      let acc :=
        push_remove
          (RemoveMutation parentShadowView (shadowView oldChildPair) (Z.of_nat index)) acc in
      match TinyMap.find (tag (shadowView oldChildPair)) insertedPairs with
      | None =>
          let acc := push_delete (DeleteMutation (shadowView oldChildPair)) acc in
          do acc <- recurseInto rec false acc (shadowView oldChildPair)
                      (sliceChildShadowNodeViewPairs (shadowNode oldChildPair)) [];
          stage3 rec parentShadowView oldRest (S index) acc insertedPairs
      | Some slot =>
          match insertedPairs !! slot with
          | None => AssertionFailed (* no slot: [find] returns slots of the vector *)
          | Some (_, newChildPair) =>
              do acc <-
                (if negb (ShadowViewNodePair_eqb newChildPair oldChildPair) then
                   let oldGrandChildPairs :=
                     sliceChildShadowNodeViewPairs (shadowNode oldChildPair) in
                   let newGrandChildPairs :=
                     sliceChildShadowNodeViewPairs (shadowNode newChildPair) in
                   recurseInto rec (hasPairs newGrandChildPairs) acc
                     (shadowView newChildPair) oldGrandChildPairs newGrandChildPairs
                 else Done acc);
              stage3 rec parentShadowView oldRest (S index) acc
                (TinyMap.erase slot insertedPairs)
          end
      end
  end.

(** Stage 4: collecting [Create] mutations, over [newChildPairs] from
    [lastIndexAfterFirstStage] on. *)
Fixpoint stage4 (rec : Driver) (newChildPairs : list ShadowViewNodePair)
    (acc : Accumulators) (insertedPairs : TinyMap.t ShadowViewNodePair)
    : outcome Accumulators :=
  match newChildPairs with
  | [] => Done acc
  | newChildPair :: newRest =>
      match TinyMap.find (tag (shadowView newChildPair)) insertedPairs with
      | None => stage4 rec newRest acc insertedPairs
      | Some _ =>
          let acc := push_create (CreateMutation (shadowView newChildPair)) acc in
          do acc <- recurseInto rec true acc (shadowView newChildPair) []
                      (sliceChildShadowNodeViewPairs (shadowNode newChildPair));
          stage4 rec newRest acc insertedPairs
      end
  end.

(** The four stages of one call, after the two lists were reordered. *)
Definition stages (rec : Driver) (parentShadowView : ShadowView)
    (oldChildPairs newChildPairs : list ShadowViewNodePair) : outcome Accumulators :=
  let oldChildPairs := reorderInPlaceIfNeeded oldChildPairs in
  let newChildPairs := reorderInPlaceIfNeeded newChildPairs in
  do first <- stage1 rec parentShadowView oldChildPairs newChildPairs 0 noMutations;
  let lastIndexAfterFirstStage := first.1 in
  do second <-
       stage2 parentShadowView (drop lastIndexAfterFirstStage newChildPairs)
         lastIndexAfterFirstStage first.2 TinyMap.empty;
  do third <-
       stage3 rec parentShadowView (drop lastIndexAfterFirstStage oldChildPairs)
         lastIndexAfterFirstStage second.1 second.2;
  stage4 rec (drop lastIndexAfterFirstStage newChildPairs) third.1 third.2.

(** [std::move(first, last, std::back_inserter(mutations))] *)
Definition moveBack (source mutations : list ShadowViewMutation) : list ShadowViewMutation :=
  foldl (fun ms m => ms ++ [m]) mutations source.

(** The same from [rbegin()] to [rend()]. *)
Definition moveBackReversed (source mutations : list ShadowViewMutation)
    : list ShadowViewMutation :=
  moveBack (reverse source) mutations.

(** "All mutations in an optimal order". *)
Definition flush (mutations : list ShadowViewMutation) (acc : Accumulators)
    : list ShadowViewMutation :=
  let mutations := moveBack (destructiveDownwardMutations acc) mutations in
  let mutations := moveBack (updateMutations acc) mutations in
  let mutations := moveBackReversed (removeMutations acc) mutations in
  let mutations := moveBack (deleteMutations acc) mutations in
  let mutations := moveBack (createMutations acc) mutations in
  let mutations := moveBack (downwardMutations acc) mutations in
  moveBack (insertMutations acc) mutations.

(** The recursive driver [calculateShadowViewMutations(mutations,
    parentShadowView, oldChildPairs, newChildPairs)].  Each nested call
    spends one unit of [fuel]. *)
Fixpoint calculateShadowViewMutations (fuel : nat) (mutations : list ShadowViewMutation)
    (parentShadowView : ShadowView) (oldChildPairs newChildPairs : list ShadowViewNodePair)
    {struct fuel} : outcome (list ShadowViewMutation) :=
  if (length oldChildPairs =? 0)%nat && (length newChildPairs =? 0)%nat then Done mutations
  else
    match fuel with
    | O => OutOfFuel
    | S fuel' =>
        do acc <- stages (calculateShadowViewMutations fuel') parentShadowView
                    oldChildPairs newChildPairs;
        Done (flush mutations acc)
    end.

(** [ShadowView()], the default-constructed view that stands for the
    parent of a root. *)
Variable emptyShadowView : ShadowView.

(** The root entry [calculateShadowViewMutations(oldRootShadowNode,
    newRootShadowNode)], [diffRoots] in the specification.  The recursion
    budget is the depth of the deeper tree. *)
Definition diffRoots (oldRootShadowNode newRootShadowNode : ShadowNode)
    : outcome (list ShadowViewMutation) :=
  if negb (sameFamily oldRootShadowNode newRootShadowNode) then AssertionFailed
  else
    let mutations := [] in
    let oldRootShadowView := ShadowView_of oldRootShadowNode in
    let newRootShadowView := ShadowView_of newRootShadowNode in
    let mutations :=
      if negb (ShadowView_eqb oldRootShadowView newRootShadowView)
      then mutations ++
             [UpdateMutation emptyShadowView oldRootShadowView newRootShadowView (-1)]
      else mutations in
    calculateShadowViewMutations
      (Nat.max (depth oldRootShadowNode) (depth newRootShadowNode))
      mutations (ShadowView_of oldRootShadowNode)
      (sliceChildShadowNodeViewPairs oldRootShadowNode)
      (sliceChildShadowNodeViewPairs newRootShadowNode).

(** ** The slicer in the words of its contract

    The effective children of a node for a running layout offset: each
    child that forms a stacking context gives one pair and is not
    entered; every other child gives a pair only if it forms a view, and
    is entered with the offset increased by its frame origin (the sum is
    the origin the slicer has just stored in the view). *)
Fixpoint effectiveChildren (layoutOffset : Point) (shadowNode : ShadowNode)
    {struct shadowNode} : list ShadowViewNodePair :=
  match shadowNode with
  | mkShadowNode _ _ _ _ _ _ _ _ _ children =>
      concat
        (map
           (fun child =>
              let view := offsetShadowView layoutOffset child in
              if check (getTraits child) FormsStackingContext then [mkPair view child]
              else
                (if check (getTraits child) FormsView then [mkPair view child] else [])
                ++ effectiveChildren
                     (Point_add (origin (frame (getLayoutMetrics child))) layoutOffset)
                     child)
           children)
  end.

(** ** The host tree

    Modelled from the spec: the mounting layer that consumes the
    mutations is not among the sources.  A host tree holds the allocated
    host views by tag, each with the tags of its children in order.
    [Create] allocates a host view, [Delete] releases it, [Insert]
    attaches a child at an index under a parent, [Remove] detaches the
    child at an index, [Update] replaces the view in place.  A mutation
    that names a view that is not allocated, allocates a tag twice or
    carries an index outside the children is refused. *)
Record HostView := mkHostView {
  hostShadowView : ShadowView;
  hostChildren : list Z }.

Definition attach (child : Tag) (index : Z) (children : list Z) : option (list Z) :=
  if (0 <=? index)%Z && (index <=? Z.of_nat (length children))%Z
  then Some (take (Z.to_nat index) children ++ child :: drop (Z.to_nat index) children)
  else None.

Definition detach (child : Tag) (index : Z) (children : list Z) : option (list Z) :=
  if (0 <=? index)%Z then
    match children !! Z.to_nat index with
    | Some found =>
        if (found =? child)%Z then Some (delete (Z.to_nat index) children) else None
    | None => None
    end
  else None.

Definition applyMutation (host : gmap Z HostView) (mutation : ShadowViewMutation)
    : option (gmap Z HostView) :=
  match mutation with
  | CreateMutation view =>
      match host !! tag view with
      | Some _ => None
      | None => Some (<[tag view := mkHostView view []]> host)
      end
  | DeleteMutation view =>
      match host !! tag view with
      | Some _ => Some (delete (tag view) host)
      | None => None
      end
  | InsertMutation parent child index =>
      match host !! tag parent, host !! tag child with
      | Some parentView, Some _ =>
          match attach (tag child) index (hostChildren parentView) with
          | Some children =>
              Some (<[tag parent := mkHostView (hostShadowView parentView) children]> host)
          | None => None
          end
      | _, _ => None
      end
  | RemoveMutation parent child index =>
      match host !! tag parent with
      | Some parentView =>
          match detach (tag child) index (hostChildren parentView) with
          | Some children =>
              Some (<[tag parent := mkHostView (hostShadowView parentView) children]> host)
          | None => None
          end
      | None => None
      end
  | UpdateMutation _ oldView newView _ =>
      match host !! tag oldView with
      | Some hostView =>
          Some (<[tag oldView := mkHostView newView (hostChildren hostView)]> host)
      | None => None
      end
  end.

Fixpoint applyMutations (host : gmap Z HostView) (mutations : list ShadowViewMutation)
    : option (gmap Z HostView) :=
  match mutations with
  | [] => Some host
  | mutation :: rest =>
      match applyMutation host mutation with
      | Some host' => applyMutations host' rest
      | None => None
      end
  end.

(** Modelled from the spec: the flattened child-layer projection of a
    shadow tree, the host tree that has one host view per pair the slicer
    yields, with the children in the order the differentiator processes
    them. *)
Fixpoint projectInto (fuel : nat) (view : ShadowView) (node : ShadowNode)
    (host : gmap Z HostView) : gmap Z HostView :=
  let pairs := reorderInPlaceIfNeeded (sliceChildShadowNodeViewPairs node) in
  let host :=
    <[tag view := mkHostView view ((fun pair => tag (shadowView pair)) <$> pairs)]> host in
  match fuel with
  | O => host
  | S fuel' =>
      foldl (fun host pair => projectInto fuel' (shadowView pair) (shadowNode pair) host)
        host pairs
  end.

Definition project (rootShadowNode : ShadowNode) : gmap Z HostView :=
  projectInto (depth rootShadowNode) (ShadowView_of rootShadowNode) rootShadowNode ∅.

(** The structure of a host tree: which tags are allocated and the
    children of each, whatever the views hold. *)
Definition structure (host : gmap Z HostView) : gmap Z (list Z) :=
  hostChildren <$> host.

(** ** Predicates used in the statements *)

Definition tagsOf (pairs : list ShadowViewNodePair) : list Z :=
  (fun pair => tag (shadowView pair)) <$> pairs.

(** The pairs of the flattened projection below a node: the pairs of its
    slice and, in turn, those below the node of each of them. *)
Inductive InProjection (root : ShadowNode) : ShadowViewNodePair -> Prop :=
| InProjection_child pair :
    pair ∈ sliceChildShadowNodeViewPairs root -> InProjection root pair
| InProjection_below pair inner :
    InProjection root pair ->
    inner ∈ sliceChildShadowNodeViewPairs (shadowNode pair) ->
    InProjection root inner.

(** Equality of shadow views is reflexive on the pairs of a sibling list
    and on everything sliced below them. *)
Inductive ReflexiveBelow : list ShadowViewNodePair -> Prop :=
| ReflexiveBelow_intro pairs :
    (forall pair, pair ∈ pairs ->
       ShadowView_eqb (shadowView pair) (shadowView pair) = true
       /\ ReflexiveBelow (sliceChildShadowNodeViewPairs (shadowNode pair))) ->
    ReflexiveBelow pairs.

Definition ReflexiveOn (root : ShadowNode) : Prop :=
  ShadowView_eqb (ShadowView_of root) (ShadowView_of root) = true
  /\ ReflexiveBelow (sliceChildShadowNodeViewPairs root).

Definition mutationIndex (mutation : ShadowViewMutation) : Z :=
  match mutation with
  | CreateMutation _ | DeleteMutation _ => 0
  | InsertMutation _ _ index | RemoveMutation _ _ index | UpdateMutation _ _ _ index => index
  end.

Definition isCreate (mutation : ShadowViewMutation) : Prop :=
  match mutation with CreateMutation _ => True | _ => False end.
Definition isDelete (mutation : ShadowViewMutation) : Prop :=
  match mutation with DeleteMutation _ => True | _ => False end.
Definition isInsertUnder (parent : ShadowView) (mutation : ShadowViewMutation) : Prop :=
  match mutation with InsertMutation p _ _ => p = parent | _ => False end.
Definition isRemoveUnder (parent : ShadowView) (mutation : ShadowViewMutation) : Prop :=
  match mutation with RemoveMutation p _ _ => p = parent | _ => False end.
Definition isUpdateUnder (parent : ShadowView) (mutation : ShadowViewMutation) : Prop :=
  match mutation with UpdateMutation p _ _ _ => p = parent | _ => False end.

(** The views a mutation mentions as the child it acts on. *)
Definition mentions (t : Z) (mutation : ShadowViewMutation) : Prop :=
  match mutation with
  | CreateMutation v | DeleteMutation v => tag v = t
  | InsertMutation _ v _ | RemoveMutation _ v _ => tag v = t
  | UpdateMutation _ o n _ => tag o = t \/ tag n = t
  end.

(** What one call appends, in the order of the flush. *)
Definition flushed (acc : Accumulators) : list ShadowViewMutation :=
  destructiveDownwardMutations acc ++ updateMutations acc
  ++ reverse (removeMutations acc) ++ deleteMutations acc
  ++ createMutations acc ++ downwardMutations acc ++ insertMutations acc.

(** The mutations [make view index] for the pairs of a list, numbered
    from [index] on. *)
Fixpoint emitFrom (make : ShadowView -> Z -> ShadowViewMutation) (index : nat)
    (pairs : list ShadowViewNodePair) : list ShadowViewMutation :=
  match pairs with
  | [] => []
  | first :: rest =>
      make (shadowView first) (Z.of_nat index) :: emitFrom make (S index) rest
  end.

(** [insertedPairs] after stage 2 ran over [pairs]. *)
Definition entriesOf (pairs : list ShadowViewNodePair) : TinyMap.t ShadowViewNodePair :=
  (fun pair => (tag (shadowView pair), pair)) <$> pairs.

(** One step of stage 3 on [insertedPairs], and all of them. *)
Definition eraseFound (insertedPairs : TinyMap.t ShadowViewNodePair) (t : Z)
    : TinyMap.t ShadowViewNodePair :=
  match TinyMap.find t insertedPairs with
  | Some slot => TinyMap.erase slot insertedPairs
  | None => insertedPairs
  end.

Definition eraseAll (tags : list Z) (insertedPairs : TinyMap.t ShadowViewNodePair)
    : TinyMap.t ShadowViewNodePair :=
  foldl eraseFound insertedPairs tags.

(** The [Create] mutations of stage 4 for a given [insertedPairs]. *)
Definition createsOf (insertedPairs : TinyMap.t ShadowViewNodePair)
    (pairs : list ShadowViewNodePair) : list ShadowViewMutation :=
  (fun pair => CreateMutation (shadowView pair))
    <$> filter (fun pair => TinyMap.find (tag (shadowView pair)) insertedPairs <> None) pairs.

(** The five lists a call fills itself, in terms of its arguments:
    [last] is [lastIndexAfterFirstStage]. *)
Definition ownShape (parent : ShadowView) (olds news : list ShadowViewNodePair)
    (acc : Accumulators) : Prop :=
  exists last : nat,
    last <= length olds /\ last <= length news
    /\ take last (tagsOf (reorderInPlaceIfNeeded olds))
       = take last (tagsOf (reorderInPlaceIfNeeded news))
    /\ Forall (fun new => tag (shadowView new) <> 0%Z)
         (drop last (reorderInPlaceIfNeeded news))
    /\ createMutations acc
       = createsOf
           (eraseAll (tagsOf (drop last (reorderInPlaceIfNeeded olds)))
              (entriesOf (drop last (reorderInPlaceIfNeeded news))))
           (drop last (reorderInPlaceIfNeeded news))
    /\ Forall isDelete (deleteMutations acc)
    /\ insertMutations acc
       = emitFrom (InsertMutation parent) last (drop last (reorderInPlaceIfNeeded news))
    /\ removeMutations acc
       = emitFrom (RemoveMutation parent) last (drop last (reorderInPlaceIfNeeded olds))
    /\ Forall (isUpdateUnder parent) (updateMutations acc).

(** Every [Insert] of the list comes after a [Create] of the same view,
    in the list or among [created], unless [known] holds of the tag of
    the view. *)
Fixpoint createdBeforeInsert (known : Z -> Prop) (created : list ShadowView)
    (mutations : list ShadowViewMutation) : Prop :=
  match mutations with
  | [] => True
  | CreateMutation view :: rest => createdBeforeInsert known (view :: created) rest
  | InsertMutation _ view _ :: rest =>
      (view ∈ created \/ known (tag view)) /\ createdBeforeInsert known created rest
  | _ :: rest => createdBeforeInsert known created rest
  end.

Fixpoint createdIn (mutations : list ShadowViewMutation) : list ShadowView :=
  match mutations with
  | [] => []
  | CreateMutation view :: rest => view :: createdIn rest
  | _ :: rest => createdIn rest
  end.

(** The tags of the flattened projection below a root. *)
Definition inOldProjection (root : ShadowNode) (t : Z) : Prop :=
  exists pair, InProjection root pair /\ tag (shadowView pair) = t.

(** The order index a pair is sorted by. *)
Definition orderOf (pair : ShadowViewNodePair) : Z := getOrderIndex (shadowNode pair).

(** At most one slot of [insertedPairs] holds the key [t]. *)
Definition uniqueKey (insertedPairs : TinyMap.t ShadowViewNodePair) (t : Z) : Prop :=
  forall i j v w,
    insertedPairs !! i = Some (t, v) -> insertedPairs !! j = Some (t, w) -> i = j.

(** Two states of the local lists of a call: the five lists the call fills
    itself are the same. *)
Definition sameOwn (acc acc' : Accumulators) : Prop :=
  createMutations acc' = createMutations acc
  /\ deleteMutations acc' = deleteMutations acc
  /\ insertMutations acc' = insertMutations acc
  /\ removeMutations acc' = removeMutations acc
  /\ updateMutations acc' = updateMutations acc.

(** The two lists filled by nested calls grew by mutations that satisfy
    [Q]. *)
Definition extendsDown (Q : list ShadowViewMutation -> Prop) (acc acc' : Accumulators)
    : Prop :=
  exists down destructive,
    downwardMutations acc' = downwardMutations acc ++ down
    /\ destructiveDownwardMutations acc'
       = destructiveDownwardMutations acc ++ destructive
    /\ Q down /\ Q destructive.

(** No pair of a sibling list, and none sliced below them, has the tag 0
    that [TinyMap] reserves. *)
Inductive NonzeroBelow : list ShadowViewNodePair -> Prop :=
| NonzeroBelow_intro pairs :
    (forall pair, pair ∈ pairs ->
       tag (shadowView pair) <> 0%Z
       /\ NonzeroBelow (sliceChildShadowNodeViewPairs (shadowNode pair))) ->
    NonzeroBelow pairs.

(** A bound on the depth of the nodes of a sibling list. *)
Definition shallowerThan (fuel : nat) (pairs : list ShadowViewNodePair) : Prop :=
  Forall (fun pair => depth (shadowNode pair) < fuel) pairs.
End Model.

(** ** The tree registry (ShadowTreeRegistry.cpp) *)

Module ShadowTreeRegistry.
Section Defs.
(** [ShadowTree] is kept abstract: the registry only reads its surface
    id. *)
Context {ShadowTree : Type} (getSurfaceId : ShadowTree -> Z).

(** [emplace] of the map type: the entry is stored only when the key is
    not present yet. *)
Definition emplace (key : Z) (value : ShadowTree) (registry_ : gmap Z ShadowTree)
    : gmap Z ShadowTree :=
  if decide (registry_ !! key = None) then <[key := value]> registry_ else registry_.

(** [add(shadowTree)], under the exclusive lock. *)
Definition add (shadowTree : ShadowTree) (registry_ : gmap Z ShadowTree)
    : gmap Z ShadowTree :=
  emplace (getSurfaceId shadowTree) shadowTree registry_.

(** [remove(surfaceId)], under the exclusive lock. *)
Definition remove (surfaceId : Z) (registry_ : gmap Z ShadowTree) : gmap Z ShadowTree :=
  match registry_ !! surfaceId with
  | Some _ => delete surfaceId registry_
  | None => registry_
  end.

(** [visit(surfaceId, callback)]: whether the tree was found, and what
    the callback was given. *)
Definition visit (surfaceId : Z) (registry_ : gmap Z ShadowTree) : bool * option ShadowTree :=
  match registry_ !! surfaceId with
  | Some shadowTree => (true, Some shadowTree)
  | None => (false, None)
  end.
End Defs.
End ShadowTreeRegistry.

(** ** Concrete trees used in the examples *)

(** IEEE 754 binary64 numbers as the floats of the layout. *)
Definition binary64 : FloatOps :=
  {| Float := float;
     Float_add := PrimFloat.add;
     Float_eqb := PrimFloat.eqb;
     Float_zero := 0%float |}.

Module Examples.
#[local] Existing Instance binary64.

Definition zeroMetrics : LayoutMetrics :=
  mkLayoutMetrics (mkRect (mkPoint 0%float 0%float) (mkSize 0%float 0%float)).

(** A plain view on surface 1: it forms a view and a stacking context, its
    order index is 0, [p] identifies its props. *)
Definition plainView (t p : Z) (children : list ShadowNode) : ShadowNode :=
  mkShadowNode t 1 "View" p 0 zeroMetrics 0 0 (mkTraits true true) children.

(** The shadow view of such a node. *)
Definition viewOf (t p : Z) : ShadowView :=
  mkShadowView t "View" p 0 zeroMetrics 0.

Definition emptyView : ShadowView :=
  mkShadowView (-1) "" 0 0 zeroMetrics 0.

(** Prepend one child: [P[A]] becomes [P[B, A]], with P = 1, A = 10,
    B = 11. *)
Definition prependOld : ShadowNode := plainView 1 0 [plainView 10 0 []].
Definition prependNew : ShadowNode := plainView 1 0 [plainView 11 0 []; plainView 10 0 []].

(** The first child goes away and the second one, whose own view does not
    change, gets another child: [R[C, A[X]]] becomes [R[A[Y]]], with
    R = 1, C = 9, A = 10, X = 20, Y = 21. *)
Definition staleOld : ShadowNode :=
  plainView 1 0 [plainView 9 0 []; plainView 10 0 [plainView 20 0 []]].
Definition staleNew : ShadowNode :=
  plainView 1 0 [plainView 10 0 [plainView 21 0 []]].

(** A view moves from the second child to the first one:
    [R[A[Y], B[X, Z]]] becomes [R[A[Y, X], B[Z]]], with R = 1, A = 10,
    B = 11, X = 20, Z = 21, Y = 30. *)
Definition moveOld : ShadowNode :=
  plainView 1 0 [plainView 10 0 [plainView 30 0 []];
                 plainView 11 0 [plainView 20 0 []; plainView 21 0 []]].
Definition moveNew : ShadowNode :=
  plainView 1 0 [plainView 10 0 [plainView 30 0 []; plainView 20 0 []];
                 plainView 11 0 [plainView 21 0 []]].

(** A tree with a NaN coordinate. *)
Definition nanTree : ShadowNode :=
  mkShadowNode 1 1 "View" 0 0
    (mkLayoutMetrics (mkRect (mkPoint nan 0%float) (mkSize 0%float 0%float)))
    0 0 (mkTraits true true) [].

(** A registry of trees that are known by their surface id and a name. *)
Definition registryOf (entries : list (Z * string)) : gmap Z (Z * string) :=
  list_to_map ((fun entry => (entry.1, entry)) <$> entries).
End Examples.

(** ** One call of the driver, list by list

    The five lists a call fills itself do not depend on what the nested
    calls return.  The functions below give each of them from the two
    sibling lists alone; [stages_exact] shows that this is what the four
    stages compute. *)

Section OneCall.
Context `{FloatOps}.

(** Where stage 1 stops: the number of leading positions at which both
    lists have a pair and the two pairs have the same tag. *)
Fixpoint alignedCount (olds news : list ShadowViewNodePair) : nat :=
  match olds, news with
  | old :: oldRest, new :: newRest =>
      if (tag (shadowView old) =? tag (shadowView new))%Z
      then S (alignedCount oldRest newRest)
      else 0
  | _, _ => 0
  end.

(** The [Update] mutations of stage 1, numbered from [index] on. *)
Fixpoint updatesOf (parent : ShadowView) (index : nat)
    (olds news : list ShadowViewNodePair) : list ShadowViewMutation :=
  match olds, news with
  | old :: oldRest, new :: newRest =>
      if negb (tag (shadowView old) =? tag (shadowView new))%Z then []
      else
        (if negb (ShadowView_eqb (shadowView old) (shadowView new))
         then [UpdateMutation parent (shadowView old) (shadowView new) (Z.of_nat index)]
         else [])
        ++ updatesOf parent (S index) oldRest newRest
  | _, _ => []
  end.

(** The [Delete] mutations of stage 3 over [olds], for the [insertedPairs]
    stage 3 starts with. *)
Fixpoint deletesOf (insertedPairs : TinyMap.t ShadowViewNodePair)
    (olds : list ShadowViewNodePair) : list ShadowViewMutation :=
  match olds with
  | [] => []
  | old :: oldRest =>
      match TinyMap.find (tag (shadowView old)) insertedPairs with
      | None => DeleteMutation (shadowView old) :: deletesOf insertedPairs oldRest
      | Some slot => deletesOf (TinyMap.erase slot insertedPairs) oldRest
      end
  end.

(** The five own lists of a call on [olds] and [news]. *)
Definition ownExact (parent : ShadowView) (olds news : list ShadowViewNodePair)
    (acc : Accumulators) : Prop :=
  let olds' := reorderInPlaceIfNeeded olds in
  let news' := reorderInPlaceIfNeeded news in
  let last := alignedCount olds' news' in
  updateMutations acc = updatesOf parent 0 olds' news'
  /\ insertMutations acc = emitFrom (InsertMutation parent) last (drop last news')
  /\ removeMutations acc = emitFrom (RemoveMutation parent) last (drop last olds')
  /\ deleteMutations acc = deletesOf (entriesOf (drop last news')) (drop last olds')
  /\ createMutations acc
     = createsOf
         (eraseAll (tagsOf (drop last olds')) (entriesOf (drop last news')))
         (drop last news')
  /\ Forall (fun new => tag (shadowView new) <> 0%Z) (drop last news').

(** The mutations a call on [olds] and [news] under [parent] can put into
    its own lists. *)
Inductive Emitted (parent : ShadowView) (olds news : list ShadowViewNodePair)
    : ShadowViewMutation -> Prop :=
| Emitted_update old new index :
    old ∈ olds -> new ∈ news ->
    tag (shadowView old) = tag (shadowView new) ->
    ShadowView_eqb (shadowView old) (shadowView new) = false ->
    (0 <= index)%Z ->
    Emitted parent olds news
      (UpdateMutation parent (shadowView old) (shadowView new) index)
| Emitted_insert new index :
    new ∈ news -> (0 <= index)%Z ->
    Emitted parent olds news (InsertMutation parent (shadowView new) index)
| Emitted_remove old index :
    old ∈ olds -> (0 <= index)%Z ->
    Emitted parent olds news (RemoveMutation parent (shadowView old) index)
| Emitted_delete old :
    old ∈ olds -> Emitted parent olds news (DeleteMutation (shadowView old))
| Emitted_create new :
    new ∈ news -> Emitted parent olds news (CreateMutation (shadowView new)).

(** Every mutation of the list is accepted by [ok], given the mutations
    that come before it (most recent first, after [seen]). *)
Fixpoint scanned (ok : list ShadowViewMutation -> ShadowViewMutation -> Prop)
    (seen mutations : list ShadowViewMutation) : Prop :=
  match mutations with
  | [] => True
  | mutation :: rest => ok seen mutation /\ scanned ok (mutation :: seen) rest
  end.

(** A [Delete] needs a [Remove] of the same view among the mutations
    seen. *)
Definition removedFirst (seen : list ShadowViewMutation) (mutation : ShadowViewMutation)
    : Prop :=
  forall view, mutation = DeleteMutation view ->
    exists parent index, RemoveMutation parent view index ∈ seen.

(** A [Create] needs an [Insert] of the same view among the mutations
    seen; used on the reversed list. *)
Definition insertedLater (seen : list ShadowViewMutation) (mutation : ShadowViewMutation)
    : Prop :=
  forall view, mutation = CreateMutation view ->
    exists parent index, InsertMutation parent view index ∈ seen.

(** The [Remove] and [Insert] mutations of a list replayed on the tags of a
    sibling list: remove the child at the index, insert the child at the
    index. *)
Definition replaySibling (children : list Z) (mutation : ShadowViewMutation)
    : option (list Z) :=
  match mutation with
  | RemoveMutation _ child index => detach (tag child) index children
  | InsertMutation _ child index => attach (tag child) index children
  | _ => Some children
  end.

Fixpoint replaySiblings (children : list Z) (mutations : list ShadowViewMutation)
    : option (list Z) :=
  match mutations with
  | [] => Some children
  | mutation :: rest =>
      match replaySibling children mutation with
      | Some children' => replaySiblings children' rest
      | None => None
      end
  end.

(** The tags of the nodes below a node, parents before children. *)
Fixpoint descendantTags (shadowNode : ShadowNode) : list Z :=
  match shadowNode with
  | mkShadowNode _ _ _ _ _ _ _ _ _ children =>
      concat (map (fun child => getTag child :: descendantTags child) children)
  end.

(** The nodes below a node, parents before children. *)
Fixpoint descendants (shadowNode : ShadowNode) : list ShadowNode :=
  match shadowNode with
  | mkShadowNode _ _ _ _ _ _ _ _ _ children =>
      concat (map (fun child => child :: descendants child) children)
  end.

(** What a mutation that is not the root update has to satisfy: an update
    keeps the tag and changes the view, indices are not negative. *)
Definition wellFormedMutation (mutation : ShadowViewMutation) : Prop :=
  match mutation with
  | UpdateMutation _ old new index =>
      tag old = tag new /\ ShadowView_eqb old new = false /\ (0 <= index)%Z
  | InsertMutation _ _ index | RemoveMutation _ _ index => (0 <= index)%Z
  | CreateMutation _ | DeleteMutation _ => True
  end.

(** The views of a mutation come from the two trees: created and inserted
    views from what [fromNew] holds of, deleted and removed views from what
    [fromOld] holds of, and an update pairs one of each. *)
Definition viewsFrom (fromOld fromNew : ShadowView -> Prop) (mutation : ShadowViewMutation)
    : Prop :=
  match mutation with
  | CreateMutation view | InsertMutation _ view _ => fromNew view
  | DeleteMutation view | RemoveMutation _ view _ => fromOld view
  | UpdateMutation _ old new _ => fromOld old /\ fromNew new
  end.

(** The parent a mutation names is accepted by [ok]. *)
Definition parentFrom (ok : ShadowView -> Prop) (mutation : ShadowViewMutation) : Prop :=
  match mutation with
  | InsertMutation parent _ _ | RemoveMutation parent _ _ | UpdateMutation parent _ _ _ =>
      ok parent
  | CreateMutation _ | DeleteMutation _ => True
  end.

(** The views of the flattened projection below a root. *)
Definition viewOfProjection (root : ShadowNode) (view : ShadowView) : Prop :=
  exists pair, InProjection root pair /\ shadowView pair = view.

(** The mutation the root entry puts in front of the list when the views
    of the two roots differ. *)
Definition rootUpdate (emptyShadowView : ShadowView) (oldRootShadowNode newRootShadowNode : ShadowNode)
    : list ShadowViewMutation :=
  if negb (ShadowView_eqb (ShadowView_of oldRootShadowNode) (ShadowView_of newRootShadowNode))
  then [UpdateMutation emptyShadowView (ShadowView_of oldRootShadowNode)
          (ShadowView_of newRootShadowNode) (-1)]
  else [].

(** The pairs of a sibling list and the pairs of the flattened projections
    below them. *)
Definition belowPairs (pairs : list ShadowViewNodePair) (pair : ShadowViewNodePair) : Prop :=
  pair ∈ pairs \/ exists above, above ∈ pairs /\ InProjection (shadowNode above) pair.

(** A list unmounts the view of a pair: it removes it and deletes it. *)
Definition unmounts (pair : ShadowViewNodePair) (mutations : list ShadowViewMutation) : Prop :=
  DeleteMutation (shadowView pair) ∈ mutations
  /\ exists parent index, RemoveMutation parent (shadowView pair) index ∈ mutations.

(** A list mounts the view of a pair: it creates it and inserts it. *)
Definition mounts (pair : ShadowViewNodePair) (mutations : list ShadowViewMutation) : Prop :=
  CreateMutation (shadowView pair) ∈ mutations
  /\ exists parent index, InsertMutation parent (shadowView pair) index ∈ mutations.

Definition isCreateOrInsert (mutation : ShadowViewMutation) : Prop :=
  match mutation with
  | CreateMutation _ | InsertMutation _ _ _ => True
  | _ => False
  end.

Definition isRemoveOrDelete (mutation : ShadowViewMutation) : Prop :=
  match mutation with
  | RemoveMutation _ _ _ | DeleteMutation _ => True
  | _ => False
  end.
End OneCall.

(** ** The rest of the tree registry (ShadowTreeRegistry.cpp) *)

Module ShadowTreeRegistryOps.
Section Defs.
Context {ShadowTree State : Type}.

(** The loop of [enumerate] over the trees in the order of the container.
    [callback state tree] is what the callback leaves behind: the state it
    captured and the value of [stop]. *)
Fixpoint enumerateOver (callback : State -> ShadowTree -> State * bool)
    (trees : list ShadowTree) (state : State) : State :=
  match trees with
  | [] => state
  | shadowTree :: rest =>
      let result := callback state shadowTree in
      if result.2 then result.1 else enumerateOver callback rest result.1
  end.

(** [enumerate(callback)], under the shared lock.  The container does not
    fix the order of its entries; the model takes the order of
    [map_to_list]. *)
Definition enumerate (callback : State -> ShadowTree -> State * bool)
    (registry_ : gmap Z ShadowTree) (state : State) : State :=
  enumerateOver callback (map_to_list registry_).*2 state.

(** [~ShadowTreeRegistry()]: [assert(registry_.empty())]. *)
Definition destroy (registry_ : gmap Z ShadowTree) : outcome unit :=
  if decide (registry_ = ∅) then Done tt else AssertionFailed.
End Defs.
End ShadowTreeRegistryOps.

(** ** More concrete trees *)

Module Scenes.
Import Examples.
#[local] Existing Instance binary64.

(** A surface before its first mount, and after it: [R[A[X], B]] with
    R = 1, A = 10, B = 11, X = 20. *)
Definition bareRoot : ShadowNode := plainView 1 0 [].
Definition mounted : ShadowNode :=
  plainView 1 0 [plainView 10 0 [plainView 20 0 []]; plainView 11 0 []].

(** The props of the root and of its only child change. *)
Definition restyledOld : ShadowNode := plainView 1 0 [plainView 10 0 []].
Definition restyledNew : ShadowNode := plainView 1 7 [plainView 10 5 []].

(** A child with the tag 0. *)
Definition zeroTagged : ShadowNode := plainView 1 0 [plainView 0 0 []].

(** A root of another family. *)
Definition otherRoot : ShadowNode := plainView 2 0 [].

(** A view with an order index. *)
Definition orderedView (t o : Z) : ShadowNode :=
  mkShadowNode t 1 "View" 0 0 zeroMetrics 0 o (mkTraits true true) [].

(** Children given out of order: [R[B, A]] with the order indices 2 and 1,
    B = 11, A = 10. *)
Definition shuffled : ShadowNode := plainView 1 0 [orderedView 11 2; orderedView 10 1].

(** A child that forms neither a view nor a stacking context, with a view
    below it: [R[F[X]]] with F = 10, X = 20. *)
Definition flattened : ShadowNode :=
  plainView 1 0
    [mkShadowNode 10 1 "View" 0 0 zeroMetrics 0 0 (mkTraits false false)
       [plainView 20 0 []]].
End Scenes.

(** * Properties *)

(** ** Results of fallible code, and TinyMap *)

Lemma bind_Done {A B : Type} (m : outcome A) (k : A -> outcome B) (b : B) :
  bind m k = Done b -> exists a, m = Done a /\ k a = Done b.
Proof. destruct m as [a| |]; simpl; intros E; [eauto | discriminate | discriminate]. Qed.

Lemma insert_nonzero {ValueT : Type} (key : Z) (value : ValueT) (m : TinyMap.t ValueT) :
  key <> 0%Z -> TinyMap.insert (key, value) m = Done (m ++ [(key, value)]).
Proof. intros Hk. unfold TinyMap.insert. simpl. by destruct (Z.eqb_spec key 0). Qed.

Section TinyMapFacts.
Context {ValueT : Type}.
Implicit Types (m : TinyMap.t ValueT) (key : Z).

Lemma find_from_spec key m start :
  match TinyMap.find_from key m start with
  | Some slot =>
      start <= slot
      /\ (exists value, m !! (slot - start) = Some (key, value))
      /\ (forall j item, j < slot - start -> m !! j = Some item -> item.1 <> key)
  | None => forall item, item ∈ m -> item.1 <> key
  end.
Proof.
  revert start. induction m as [|[k v] rest IH]; intros start; simpl.
  - intros item Hin. inversion Hin.
  - destruct (Z.eqb_spec k key) as [->|Hne].
    + replace (start - start) with 0 by lia. repeat split; [lia | eauto | intros; lia].
    + specialize (IH (S start)). destruct (TinyMap.find_from key rest (S start)) as [slot|].
      * destruct IH as (Hle & [value Hv] & Hbefore). split; [lia|]. split.
        -- exists value. replace (slot - start) with (S (slot - S start)) by lia. exact Hv.
        -- intros j item Hj Hl. destruct j as [|j]; simpl in Hl.
           ++ injection Hl as <-. exact Hne.
           ++ apply (Hbefore j); [lia | exact Hl].
      * intros item Hin. apply elem_of_cons in Hin as [->|Hin]; [exact Hne | auto].
Qed.

Lemma find_Some key m slot :
  TinyMap.find key m = Some slot ->
  exists value, m !! slot = Some (key, value)
    /\ forall j item, j < slot -> m !! j = Some item -> item.1 <> key.
Proof.
  unfold TinyMap.find. intros E. pose proof (find_from_spec key m 0) as Hs.
  rewrite E in Hs. destruct Hs as (_ & [value Hv] & Hb).
  rewrite Nat.sub_0_r in *. eauto.
Qed.

Lemma find_None key m :
  TinyMap.find key m = None <-> key ∉ m.*1.
Proof.
  unfold TinyMap.find. pose proof (find_from_spec key m 0) as Hs. split.
  - intros E. rewrite E in Hs. intros Hin. apply list_elem_of_fmap in Hin as (item & -> & Hin).
    exact (Hs item Hin eq_refl).
  - intros Hnot. destruct (TinyMap.find_from key m 0) as [slot|]; [|reflexivity].
    destruct Hs as (_ & [value Hv] & _). exfalso. apply Hnot.
    apply list_elem_of_fmap. exists (key, value). split; [reflexivity|].
    eapply list_elem_of_lookup_2. exact Hv.
Qed.

Lemma erase_lookup slot m j :
  TinyMap.erase slot m !! j
  = if decide (slot = j) then (fun item : TinyMap.Pair ValueT => (0%Z, item.2)) <$> m !! j
    else m !! j.
Proof.
  unfold TinyMap.erase. destruct (decide (slot = j)) as [->|Hne].
  - apply list_lookup_alter_eq.
  - apply list_lookup_alter_ne. exact Hne.
Qed.



End TinyMapFacts.

(** ** The sibling reorder and the slicer *)

Section SortFacts.
Context `{FloatOps}.
Implicit Types (pair : ShadowViewNodePair) (pairs : list ShadowViewNodePair).


Lemma before_lt a b : shouldFirstPairComesBeforeSecondOne a b = true <-> (orderOf a < orderOf b)%Z.
Proof. unfold shouldFirstPairComesBeforeSecondOne, orderOf. apply Z.ltb_lt. Qed.

Lemma stable_insert_perm a pairs :
  stable_insert shouldFirstPairComesBeforeSecondOne a pairs ≡ₚ a :: pairs.
Proof.
  induction pairs as [|b rest IH]; simpl; [reflexivity|].
  destruct (shouldFirstPairComesBeforeSecondOne b a); [|reflexivity].
  rewrite IH. apply Permutation_swap.
Qed.

Lemma stable_sort_perm pairs : stable_sort shouldFirstPairComesBeforeSecondOne pairs ≡ₚ pairs.
Proof.
  induction pairs as [|a rest IH]; simpl; [reflexivity|].
  rewrite stable_insert_perm. by rewrite IH.
Qed.

Lemma stable_insert_sorted a pairs :
  StronglySorted (fun p q => (orderOf p <= orderOf q)%Z) pairs ->
  StronglySorted (fun p q => (orderOf p <= orderOf q)%Z)
    (stable_insert shouldFirstPairComesBeforeSecondOne a pairs).
Proof.
  induction 1 as [|b rest Hs IH Hall]; simpl.
  - repeat constructor.
  - destruct (shouldFirstPairComesBeforeSecondOne b a) eqn:E.
    + apply before_lt in E. constructor; [exact IH|].
      rewrite stable_insert_perm. constructor; [lia | exact Hall].
    + assert (orderOf a <= orderOf b)%Z as Hle.
      { destruct (Z.ltb_spec (orderOf b) (orderOf a)) as [Hlt|Hge]; [|exact Hge].
        apply before_lt in Hlt. congruence. }
      constructor; [by constructor|].
      constructor; [exact Hle|].
      eapply Forall_impl; [exact Hall|]. simpl. intros; lia.
Qed.

Lemma stable_sort_sorted pairs :
  StronglySorted (fun p q => (orderOf p <= orderOf q)%Z)
    (stable_sort shouldFirstPairComesBeforeSecondOne pairs).
Proof.
  induction pairs as [|a rest IH]; simpl; [constructor|].
  by apply stable_insert_sorted.
Qed.

Lemma stable_insert_stable (k : Z) a pairs :
  filter (fun p => orderOf p = k) (stable_insert shouldFirstPairComesBeforeSecondOne a pairs)
  = filter (fun p => orderOf p = k) (a :: pairs).
Proof.
  induction pairs as [|b rest IH]; simpl; [reflexivity|].
  destruct (shouldFirstPairComesBeforeSecondOne b a) eqn:E; [|reflexivity].
  apply before_lt in E.
  rewrite (filter_cons _ b), IH, !filter_cons.
  destruct (decide (orderOf b = k)), (decide (orderOf a = k)); try reflexivity. lia.
Qed.

Lemma stable_sort_stable (k : Z) pairs :
  filter (fun p => orderOf p = k) (stable_sort shouldFirstPairComesBeforeSecondOne pairs)
  = filter (fun p => orderOf p = k) pairs.
Proof.
  induction pairs as [|a rest IH]; simpl; [reflexivity|].
  rewrite stable_insert_stable, !filter_cons, IH. reflexivity.
Qed.

Lemma isReorderNeeded_false pairs :
  isReorderNeeded pairs = false <-> Forall (fun p => orderOf p = 0%Z) pairs.
Proof.
  unfold isReorderNeeded. induction pairs as [|a rest IH]; simpl.
  - split; [constructor | reflexivity].
  - rewrite orb_false_iff, IH, Forall_cons, negb_false_iff, Z.eqb_eq. reflexivity.
Qed.

Lemma reorder_unfold pairs :
  reorderInPlaceIfNeeded pairs
  = if isReorderNeeded pairs then stable_sort shouldFirstPairComesBeforeSecondOne pairs else pairs.
Proof.
  unfold reorderInPlaceIfNeeded.
  destruct pairs as [|a [|b rest]]; simpl length.
  - reflexivity.
  - simpl. destruct (_ || _); reflexivity.
  - replace (S (S (length rest)) <? 2) with false by (symmetry; apply Nat.ltb_ge; lia).
    destruct (isReorderNeeded (a :: b :: rest)); reflexivity.
Qed.

Lemma reorder_perm pairs : reorderInPlaceIfNeeded pairs ≡ₚ pairs.
Proof.
  rewrite reorder_unfold. destruct (isReorderNeeded pairs); [apply stable_sort_perm | reflexivity].
Qed.

Lemma reorder_zero pairs :
  Forall (fun p => orderOf p = 0%Z) pairs -> reorderInPlaceIfNeeded pairs = pairs.
Proof.
  intros Hz. apply isReorderNeeded_false in Hz. by rewrite reorder_unfold, Hz.
Qed.

Lemma elem_of_reorder pair pairs : pair ∈ reorderInPlaceIfNeeded pairs <-> pair ∈ pairs.
Proof. by rewrite reorder_perm. Qed.

Lemma reorder_length pairs : length (reorderInPlaceIfNeeded pairs) = length pairs.
Proof. by rewrite reorder_perm. Qed.

(** C8: [reorderInPlaceIfNeeded] sorts the sibling list by [orderIndex]
    with the stable sort exactly when some element has a non-zero order
    index, and leaves it as it is otherwise.  The sorted list is ordered by
    order index, is a permutation of the list, and keeps the elements of
    equal order index in their source order; in particular a list whose
    order indices are all zero is processed in source order. *)
Theorem reorder_spec pairs :
  reorderInPlaceIfNeeded pairs
    = (if isReorderNeeded pairs
       then stable_sort shouldFirstPairComesBeforeSecondOne pairs
       else pairs)
  /\ (isReorderNeeded pairs = false <-> Forall (fun p => getOrderIndex (shadowNode p) = 0%Z) pairs)
  /\ StronglySorted
       (fun p q => (getOrderIndex (shadowNode p) <= getOrderIndex (shadowNode q))%Z)
       (stable_sort shouldFirstPairComesBeforeSecondOne pairs)
  /\ stable_sort shouldFirstPairComesBeforeSecondOne pairs ≡ₚ pairs
  /\ (forall k : Z,
        filter (fun p => getOrderIndex (shadowNode p) = k)
          (stable_sort shouldFirstPairComesBeforeSecondOne pairs)
        = filter (fun p => getOrderIndex (shadowNode p) = k) pairs)
  /\ (Forall (fun p => getOrderIndex (shadowNode p) = 0%Z) pairs ->
      reorderInPlaceIfNeeded pairs = pairs).
Proof.
  split; [apply reorder_unfold|]. split; [apply isReorderNeeded_false|].
  split; [apply stable_sort_sorted|]. split; [apply stable_sort_perm|].
  split; [intros k; apply stable_sort_stable | apply reorder_zero].
Qed.
End SortFacts.

Section SliceFacts.
Context `{FloatOps}.

Lemma ShadowNode_rect' (P : ShadowNode -> Prop) :
  (forall t s c p e l st o tr children,
      Forall P children -> P (mkShadowNode t s c p e l st o tr children)) ->
  forall node, P node.
Proof.
  intros Hstep. fix IH 1. intros [t s c p e l st o tr children].
  apply Hstep. induction children as [|child rest IHrest]; constructor.
  - apply IH.
  - exact IHrest.
Qed.

Lemma slice_rec_effective node : forall pairList layoutOffset,
  sliceChildShadowNodeViewPairsRecursively pairList layoutOffset node
  = pairList ++ effectiveChildren layoutOffset node.
Proof.
  induction node as [t s c p e l st o tr children IH] using ShadowNode_rect'.
  intros pairList layoutOffset. simpl.
  revert pairList. induction IH as [|child rest Hchild _ IHrest]; intros pairList; simpl.
  - by rewrite app_nil_r.
  - destruct (formsStackingContext (getTraits child)).
    + rewrite IHrest. by rewrite <- app_assoc.
    + rewrite IHrest, Hchild.
      destruct (formsView (getTraits child)); simpl; by rewrite <- ?app_assoc.
Qed.

Lemma slice_effective shadowNode :
  sliceChildShadowNodeViewPairs shadowNode
  = if negb (check (getTraits shadowNode) FormsStackingContext)
       && check (getTraits shadowNode) FormsView
    then []
    else effectiveChildren (mkPoint Float_zero Float_zero) shadowNode.
Proof.
  unfold sliceChildShadowNodeViewPairs.
  destruct (negb _ && _); [reflexivity|].
  by rewrite slice_rec_effective.
Qed.

Lemma effectiveChildren_depth node : forall layoutOffset pair,
  pair ∈ effectiveChildren layoutOffset node ->
  depth (shadowNode pair) < depth node.
Proof.
  induction node as [t s c p e l st o tr children IH] using ShadowNode_rect'.
  intros layoutOffset pair. simpl.
  induction IH as [|child rest Hchild _ IHrest]; simpl.
  - intros Hin. inversion Hin.
  - rewrite elem_of_app. intros [Hin|Hin]; [|specialize (IHrest Hin); lia].
    destruct (formsStackingContext (getTraits child)).
    + apply list_elem_of_singleton in Hin as ->. simpl. lia.
    + apply elem_of_app in Hin as [Hin|Hin].
      * destruct (formsView (getTraits child)).
        -- apply list_elem_of_singleton in Hin as ->. simpl. lia.
        -- inversion Hin.
      * specialize (Hchild _ _ Hin). lia.
Qed.

Lemma slice_depth node pair :
  pair ∈ sliceChildShadowNodeViewPairs node -> depth (shadowNode pair) < depth node.
Proof.
  rewrite slice_effective. destruct (negb _ && _).
  - intros Hin. inversion Hin.
  - apply effectiveChildren_depth.
Qed.

End SliceFacts.

(** ** The stages of one call *)

Arguments recurseInto : simpl never.

Section StageFacts.
Context `{FloatOps}.
Variable rec : Driver.
Variable PreP : ShadowViewNodePair -> Prop.
Variable Q : list ShadowViewMutation -> Prop.
Hypothesis Q_nil : Q [].
Hypothesis Q_app : forall a b, Q a -> Q b -> Q (a ++ b).
Hypothesis PreP_slice :
  forall pair, PreP pair -> Forall PreP (sliceChildShadowNodeViewPairs (shadowNode pair)).
Hypothesis rec_ok :
  forall muts parent olds news out,
    Forall PreP olds -> rec muts parent olds news = Done out ->
    exists added, out = muts ++ added /\ Q added.

Implicit Types (acc : Accumulators) (m : TinyMap.t ShadowViewNodePair).

Lemma extendsDown_refl acc : extendsDown Q acc acc.
Proof. exists [], []. by rewrite !app_nil_r. Qed.

Lemma extendsDown_trans acc1 acc2 acc3 :
  extendsDown Q acc1 acc2 -> extendsDown Q acc2 acc3 -> extendsDown Q acc1 acc3.
Proof.
  intros (d1 & e1 & Hd1 & He1 & Qd1 & Qe1) (d2 & e2 & Hd2 & He2 & Qd2 & Qe2).
  exists (d1 ++ d2), (e1 ++ e2). rewrite Hd2, He2, Hd1, He1, !app_assoc. auto.
Qed.

Lemma extendsDown_same acc1 acc2 acc3 :
  downwardMutations acc2 = downwardMutations acc1 ->
  destructiveDownwardMutations acc2 = destructiveDownwardMutations acc1 ->
  extendsDown Q acc2 acc3 -> extendsDown Q acc1 acc3.
Proof. intros E1 E2 (d & e & Hd & He & HQ). exists d, e. by rewrite <- E1, <- E2. Qed.

Lemma recurseInto_ok intoDownward acc parent olds news acc' :
  Forall PreP olds ->
  recurseInto rec intoDownward acc parent olds news = Done acc' ->
  sameOwn acc acc' /\ extendsDown Q acc acc'.
Proof.
  intros Hpre. unfold recurseInto. destruct intoDownward; intros E;
    apply bind_Done in E as (ms & Hrec & E); injection E as <-;
    apply rec_ok in Hrec as (added & -> & HQ); try exact Hpre;
    (split; [by repeat split|]).
  - exists added, []. simpl. by rewrite app_nil_r.
  - exists [], added. simpl. by rewrite app_nil_r.
Qed.

Lemma stage1_ok parent olds : forall news index acc last acc',
  Forall PreP olds ->
  stage1 rec parent olds news index acc = Done (last, acc') ->
  exists count,
    last = index + count
    /\ count <= length olds /\ count <= length news
    /\ take count (tagsOf olds) = take count (tagsOf news)
    /\ createMutations acc' = createMutations acc
    /\ deleteMutations acc' = deleteMutations acc
    /\ insertMutations acc' = insertMutations acc
    /\ removeMutations acc' = removeMutations acc
    /\ (exists updates,
          updateMutations acc' = updateMutations acc ++ updates
          /\ Forall (isUpdateUnder parent) updates)
    /\ extendsDown Q acc acc'.
Proof.
  induction olds as [|old oldRest IH]; intros news index acc last acc' Hpre E.
  - simpl in E. injection E as <- <-. exists 0. rewrite Nat.add_0_r.
    repeat split; try done; try lia.
    + exists []. by rewrite app_nil_r.
    + apply extendsDown_refl.
  - destruct news as [|new newRest].
    { simpl in E. injection E as <- <-. exists 0. rewrite Nat.add_0_r.
      repeat split; try done; try (simpl; lia).
      - exists []. by rewrite app_nil_r.
      - apply extendsDown_refl. }
    simpl in E. apply Forall_cons in Hpre as [Hold Hrest].
    destruct (Z.eqb_spec (tag (shadowView old)) (tag (shadowView new))) as [Htag|Htag];
      simpl in E.
    2:{ injection E as <- <-. exists 0. rewrite Nat.add_0_r.
        repeat split; try done; try (simpl; lia).
        - exists []. by rewrite app_nil_r.
        - apply extendsDown_refl. }
    apply bind_Done in E as (acc1 & Hrec & E).
    apply recurseInto_ok in Hrec as [Hown Hdown]; [|by apply PreP_slice].
    apply IH in E as (count & -> & Hlo & Hln & Htags & Hc & Hd & Hi & Hr & Hu & Hdown');
      [|exact Hrest].
    destruct Hown as (Hc1 & Hd1 & Hi1 & Hr1 & Hu1).
    exists (S count). split; [lia|]. split; [simpl; lia|]. split; [simpl; lia|].
    split; [simpl; by rewrite Htag, Htags|].
    destruct Hu as (updates & Hu & Hall).
    destruct (ShadowView_eqb (shadowView old) (shadowView new)); simpl in *.
    + rewrite Hc, Hd, Hi, Hr, Hu, Hc1, Hd1, Hi1, Hr1, Hu1. repeat split.
      * by exists updates.
      * eapply extendsDown_trans; [exact Hdown | exact Hdown'].
    + rewrite Hc, Hd, Hi, Hr, Hu, Hc1, Hd1, Hi1, Hr1, Hu1. repeat split.
      * eexists (_ :: updates). rewrite <- app_assoc. split; [reflexivity|].
        constructor; [reflexivity | exact Hall].
      * eapply extendsDown_trans; [|exact Hdown'].
        eapply extendsDown_same; [| |exact Hdown]; reflexivity.
Qed.

Lemma stage2_ok parent news : forall index acc m acc' m',
  stage2 parent news index acc m = Done (acc', m') ->
  acc' = mkAccumulators (createMutations acc) (deleteMutations acc)
           (insertMutations acc ++ emitFrom (InsertMutation parent) index news)
           (removeMutations acc) (updateMutations acc) (downwardMutations acc)
           (destructiveDownwardMutations acc)
  /\ m' = m ++ entriesOf news
  /\ Forall (fun new => tag (shadowView new) <> 0%Z) news.
Proof.
  induction news as [|new newRest IH]; intros index acc m acc' m' E; simpl in E.
  - injection E as <- <-. destruct acc; simpl. by rewrite !app_nil_r.
  - apply bind_Done in E as (m1 & Hins & E). unfold TinyMap.insert in Hins. simpl in Hins.
    destruct (Z.eqb_spec (tag (shadowView new)) 0) as [|Hnz]; [discriminate|].
    injection Hins as <-. apply IH in E as (-> & -> & Hall).
    destruct acc; simpl. rewrite <- !app_assoc. simpl. repeat split. by constructor.
Qed.

Lemma eraseAll_found old rest m slot :
  TinyMap.find (tag (shadowView old)) m = Some slot ->
  eraseAll (tagsOf (old :: rest)) m = eraseAll (tagsOf rest) (TinyMap.erase slot m).
Proof. intros E. unfold eraseAll. simpl. unfold eraseFound at 2. by rewrite E. Qed.

Lemma eraseAll_missing old rest m :
  TinyMap.find (tag (shadowView old)) m = None ->
  eraseAll (tagsOf (old :: rest)) m = eraseAll (tagsOf rest) m.
Proof. intros E. unfold eraseAll. simpl. unfold eraseFound at 2. by rewrite E. Qed.

Lemma stage3_ok parent olds : forall index acc m acc' m',
  Forall PreP olds ->
  stage3 rec parent olds index acc m = Done (acc', m') ->
  createMutations acc' = createMutations acc
  /\ insertMutations acc' = insertMutations acc
  /\ updateMutations acc' = updateMutations acc
  /\ removeMutations acc' = removeMutations acc ++ emitFrom (RemoveMutation parent) index olds
  /\ (exists deletes,
        deleteMutations acc' = deleteMutations acc ++ deletes /\ Forall isDelete deletes)
  /\ extendsDown Q acc acc'
  /\ m' = eraseAll (tagsOf olds) m.
Proof.
  induction olds as [|old oldRest IH]; intros index acc m acc' m' Hpre E; simpl in E.
  - injection E as <- <-. rewrite app_nil_r. repeat split.
    + exists []. by rewrite app_nil_r.
    + apply extendsDown_refl.
  - apply Forall_cons in Hpre as [Hold Hrest].
    destruct (TinyMap.find (tag (shadowView old)) m) as [slot|] eqn:Hfind;
      [rewrite (eraseAll_found _ _ _ _ Hfind) | rewrite (eraseAll_missing _ _ _ Hfind)].
    + destruct (find_Some _ _ _ Hfind) as (found & Hslot & _). rewrite Hslot in E.
      apply bind_Done in E as (acc1 & Hrec & E).
      apply IH in E as (Hc & Hi & Hu & Hr & (deletes & Hd & Hall) & Hdown & ->);
        [|exact Hrest].
      destruct (ShadowViewNodePair_eqb found old); simpl in Hrec.
      * injection Hrec as <-. simpl in *. rewrite Hc, Hi, Hu, Hr, Hd, <- app_assoc.
        repeat split; [by exists deletes | exact Hdown].
      * apply recurseInto_ok in Hrec as [(Hc1 & Hd1 & Hi1 & Hr1 & Hu1) Hdown1];
          [|by apply PreP_slice].
        simpl in *. rewrite Hc, Hi, Hu, Hr, Hd, Hc1, Hd1, Hi1, Hr1, Hu1, <- app_assoc.
        repeat split; [by exists deletes|].
        eapply extendsDown_trans; [|exact Hdown].
        eapply extendsDown_same; [| |exact Hdown1]; reflexivity.
    + apply bind_Done in E as (acc1 & Hrec & E).
      apply IH in E as (Hc & Hi & Hu & Hr & (deletes & Hd & Hall) & Hdown & ->);
        [|exact Hrest].
      apply recurseInto_ok in Hrec as [(Hc1 & Hd1 & Hi1 & Hr1 & Hu1) Hdown1];
        [|by apply PreP_slice].
      simpl in *. rewrite Hc, Hi, Hu, Hr, Hd, Hc1, Hd1, Hi1, Hr1, Hu1, <- !app_assoc.
      repeat split.
      * eexists (_ :: deletes). split; [reflexivity|]. by constructor.
      * eapply extendsDown_trans; [|exact Hdown].
        eapply extendsDown_same; [| |exact Hdown1]; reflexivity.
Qed.

Lemma stage4_ok m news : forall acc acc',
  stage4 rec news acc m = Done acc' ->
  deleteMutations acc' = deleteMutations acc
  /\ insertMutations acc' = insertMutations acc
  /\ removeMutations acc' = removeMutations acc
  /\ updateMutations acc' = updateMutations acc
  /\ createMutations acc' = createMutations acc ++ createsOf m news
  /\ extendsDown Q acc acc'.
Proof.
  unfold createsOf.
  induction news as [|new newRest IH]; intros acc acc' E; simpl in E.
  - injection E as <-. rewrite app_nil_r. repeat split. apply extendsDown_refl.
  - rewrite filter_cons.
    destruct (TinyMap.find (tag (shadowView new)) m) as [slot|] eqn:Hfind.
    + apply bind_Done in E as (acc1 & Hrec & E).
      apply IH in E as (Hd & Hi & Hr & Hu & Hc & Hdown).
      apply recurseInto_ok in Hrec as [(Hc1 & Hd1 & Hi1 & Hr1 & Hu1) Hdown1];
        [|constructor].
      destruct (decide _) as [_|Hno]; [|by destruct Hno].
      simpl in *. rewrite Hd, Hi, Hr, Hu, Hc, Hc1, Hd1, Hi1, Hr1, Hu1, <- !app_assoc.
      repeat split.
      eapply extendsDown_trans; [|exact Hdown].
      eapply extendsDown_same; [| |exact Hdown1]; reflexivity.
    + destruct (decide _) as [Hyes|_]; [by destruct Hyes|].
      by apply IH in E.
Qed.

Lemma stages_ok parent olds news acc :
  Forall PreP olds ->
  stages rec parent olds news = Done acc ->
  ownShape parent olds news acc
  /\ Q (downwardMutations acc) /\ Q (destructiveDownwardMutations acc).
Proof.
  intros Hpre E. unfold stages in E.
  assert (Forall PreP (reorderInPlaceIfNeeded olds)) as Hpre'.
  { by rewrite reorder_perm. }
  apply bind_Done in E as ([last acc1] & H1 & E). simpl in E.
  apply bind_Done in E as ([acc2 m2] & H2 & E). simpl in E.
  apply bind_Done in E as ([acc3 m3] & H3 & E). simpl in E.
  apply stage1_ok in H1
    as (count & -> & Hlo & Hln & Htags & Hc1 & Hd1 & Hi1 & Hr1 & (ups & Hu1 & Hups) & Hdown1);
    [|exact Hpre'].
  simpl in *. rewrite reorder_length in Hlo, Hln.
  apply stage2_ok in H2 as (-> & -> & Hnz). simpl in *.
  apply stage3_ok in H3
    as (Hc3 & Hi3 & Hu3 & Hr3 & (dels & Hd3 & Hdels) & Hdown3 & ->);
    [|by apply Forall_drop].
  apply stage4_ok in E as (Hd4 & Hi4 & Hr4 & Hu4 & Hc4 & Hdown4).
  simpl in *.
  split; [|split].
  - exists count.
    rewrite Hc4, Hc3, Hc1, Hd4, Hd3, Hd1, Hi4, Hi3, Hi1, Hr4, Hr3, Hr1, Hu4, Hu3, Hu1.
    simpl. repeat split; done.
  - pose proof (extendsDown_trans _ _ _ Hdown1
      (extendsDown_trans _ _ _ (extendsDown_same acc1 _ _ eq_refl eq_refl Hdown3) Hdown4))
      as (d & e & -> & _ & Qd & _).
    exact Qd.
  - pose proof (extendsDown_trans _ _ _ Hdown1
      (extendsDown_trans _ _ _ (extendsDown_same acc1 _ _ eq_refl eq_refl Hdown3) Hdown4))
      as (d & e & _ & -> & _ & Qe).
    exact Qe.
Qed.
End StageFacts.

Section FlushFacts.
Context `{FloatOps}.

Lemma moveBack_app source mutations : moveBack source mutations = mutations ++ source.
Proof.
  unfold moveBack. revert mutations.
  induction source as [|m rest IH]; intros mutations; simpl.
  - by rewrite app_nil_r.
  - rewrite IH, <- app_assoc. reflexivity.
Qed.

Lemma flush_flushed mutations acc : flush mutations acc = mutations ++ flushed acc.
Proof.
  unfold flush, flushed, moveBackReversed. rewrite !moveBack_app, <- !app_assoc. reflexivity.
Qed.

Lemma flushed_noMutations : flushed noMutations = [].
Proof. reflexivity. Qed.

Lemma ownShape_nil parent : ownShape parent [] [] noMutations.
Proof. exists 0. simpl. repeat split; try done; try constructor. Qed.

(** Unfolding of the driver. *)
Lemma driver_nil fuel mutations parent :
  calculateShadowViewMutations fuel mutations parent [] [] = Done mutations.
Proof. destruct fuel; reflexivity. Qed.

Lemma driver_unfold fuel mutations parent olds news :
  calculateShadowViewMutations (S fuel) mutations parent olds news
  = if (length olds =? 0) && (length news =? 0) then Done mutations
    else do acc <- stages (calculateShadowViewMutations fuel) parent olds news;
         Done (flush mutations acc).
Proof. reflexivity. Qed.

Lemma driver_Done fuel mutations parent olds news out :
  calculateShadowViewMutations fuel mutations parent olds news = Done out ->
  (olds = [] /\ news = [] /\ out = mutations)
  \/ (exists fuel' acc,
        fuel = S fuel'
        /\ stages (calculateShadowViewMutations fuel') parent olds news = Done acc
        /\ out = mutations ++ flushed acc).
Proof.
  destruct olds as [|old olds]; [destruct news as [|new news]|].
  - rewrite driver_nil. intros [= <-]. by left.
  - destruct fuel as [|fuel']; [discriminate|]. rewrite driver_unfold. simpl.
    intros E. apply bind_Done in E as (acc & Hs & [= <-]). right.
    exists fuel', acc. by rewrite flush_flushed.
  - destruct fuel as [|fuel']; [discriminate|]. rewrite driver_unfold. simpl.
    intros E. apply bind_Done in E as (acc & Hs & [= <-]). right.
    exists fuel', acc. by rewrite flush_flushed.
Qed.
End FlushFacts.

Section DriverFacts.
Context `{FloatOps}.
Variable PreP : ShadowViewNodePair -> Prop.
Variable Q : list ShadowViewMutation -> Prop.
Hypothesis Q_nil : Q [].
Hypothesis Q_app : forall a b, Q a -> Q b -> Q (a ++ b).
Hypothesis PreP_slice :
  forall pair, PreP pair -> Forall PreP (sliceChildShadowNodeViewPairs (shadowNode pair)).
Hypothesis Q_flush :
  forall parent olds news acc,
    Forall PreP olds -> ownShape parent olds news acc ->
    Q (downwardMutations acc) -> Q (destructiveDownwardMutations acc) ->
    Q (flushed acc).

Lemma driver_ok fuel : forall mutations parent olds news out,
  Forall PreP olds ->
  calculateShadowViewMutations fuel mutations parent olds news = Done out ->
  exists added, out = mutations ++ added /\ Q added.
Proof.
  induction fuel as [|fuel IH]; intros mutations parent olds news out Hpre E;
    apply driver_Done in E as [(-> & -> & ->)|(fuel' & acc & Hf & Hs & ->)];
    try (exists []; by rewrite app_nil_r); try discriminate.
  injection Hf as <-. exists (flushed acc). split; [reflexivity|].
  pose proof (stages_ok _ PreP Q Q_nil Q_app PreP_slice IH _ _ _ _ Hpre Hs)
    as (Hshape & Qd & Qe).
  by apply (Q_flush parent olds news).
Qed.
End DriverFacts.

Section Appends.
Context `{FloatOps}.

Lemma driver_appends fuel mutations parent olds news out :
  calculateShadowViewMutations fuel mutations parent olds news = Done out ->
  exists added, out = mutations ++ added.
Proof.
  intros E.
  destruct (driver_ok (fun _ => True) (fun _ => True)) with (6 := E) as (added & -> & _);
    try done.
  - intros. by apply Forall_forall.
  - by apply Forall_forall.
  - by exists added.
Qed.

Lemma stages_shape fuel parent olds news acc :
  stages (calculateShadowViewMutations fuel) parent olds news = Done acc ->
  ownShape parent olds news acc.
Proof.
  intros E.
  eapply (stages_ok _ (fun _ => True) (fun _ => True)) in E as [Hshape _]; try done.
  - intros. by apply Forall_forall.
  - intros muts p o n out _ Hd. apply driver_appends in Hd as [added ->]. by exists added.
  - by apply Forall_forall.
Qed.
End Appends.

(** ** [insertedPairs] across stage 3 *)

Section InsertedPairsFacts.
Context `{FloatOps}.
Implicit Types (m : TinyMap.t ShadowViewNodePair) (t k : Z).

Lemma eraseFound_lookup m t j k v :
  k <> 0%Z -> eraseFound m t !! j = Some (k, v) -> m !! j = Some (k, v).
Proof.
  intros Hk. unfold eraseFound. destruct (TinyMap.find t m) as [slot|]; [|done].
  rewrite erase_lookup. destruct (decide (slot = j)) as [->|]; [|done].
  destruct (m !! j) as [[k' v']|]; simpl; [|done]. intros [= <- <-]. done.
Qed.

Lemma key_survives m t k : k <> 0%Z -> k ∈ (eraseFound m t).*1 -> k ∈ m.*1.
Proof.
  intros Hk Hin. apply list_elem_of_fmap in Hin as ([k' v] & -> & Hin).
  apply list_elem_of_lookup in Hin as [j Hj]. apply eraseFound_lookup in Hj; [|exact Hk].
  apply list_elem_of_fmap. exists (k', v). split; [done|]. by eapply list_elem_of_lookup_2.
Qed.

Lemma key_survives_all ts : forall m k,
  k <> 0%Z -> k ∈ (eraseAll ts m).*1 -> k ∈ m.*1.
Proof.
  induction ts as [|t ts IH]; intros m k Hk Hin; [exact Hin|].
  apply (key_survives m t); [exact Hk|]. by apply IH.
Qed.

Lemma key_erased m t k : k ∈ m.*1 -> k ∉ (eraseFound m t).*1 -> k = t.
Proof.
  intros Hin Hnot. unfold eraseFound in Hnot.
  destruct (TinyMap.find t m) as [slot|] eqn:Hfind; [|done].
  apply find_Some in Hfind as (value & Hslot & _).
  apply list_elem_of_fmap in Hin as ([k' v] & -> & Hin). simpl.
  apply list_elem_of_lookup in Hin as [j Hj].
  destruct (decide (slot = j)) as [->|Hne]; [by simplify_eq|].
  exfalso. apply Hnot. apply list_elem_of_fmap. exists (k', v). split; [done|].
  apply list_elem_of_lookup. exists j. rewrite erase_lookup. by destruct (decide (slot = j)).
Qed.

Lemma key_erased_all ts : forall m k,
  k ∈ m.*1 -> k ∉ (eraseAll ts m).*1 -> k ∈ ts.
Proof.
  induction ts as [|t ts IH]; intros m k Hin Hnot; [done|].
  apply elem_of_cons.
  destruct (decide (k ∈ (eraseFound m t).*1)) as [Hstill|Hgone].
  - right. by apply (IH (eraseFound m t)).
  - left. by apply (key_erased m).
Qed.

Lemma uniqueKey_eraseFound m t t' : t <> 0%Z -> uniqueKey m t -> uniqueKey (eraseFound m t') t.
Proof.
  intros Ht Hu i j v w Hi Hj.
  apply eraseFound_lookup in Hi; [|exact Ht]. apply eraseFound_lookup in Hj; [|exact Ht].
  by eapply Hu.
Qed.

Lemma unique_key_erased m t : t <> 0%Z -> uniqueKey m t -> t ∉ (eraseFound m t).*1.
Proof.
  intros Ht Hu Hin. apply list_elem_of_fmap in Hin as ([k v] & Hk & Hin). simpl in Hk. subst k.
  apply list_elem_of_lookup in Hin as [j Hj].
  pose proof Hj as Hj'. apply eraseFound_lookup in Hj'; [|exact Ht].
  unfold eraseFound in Hj. destruct (TinyMap.find t m) as [slot|] eqn:Hfind.
  - apply find_Some in Hfind as (value & Hslot & _).
    assert (slot = j) as -> by (by eapply Hu).
    rewrite erase_lookup in Hj. rewrite decide_True in Hj by done.
    rewrite Hslot in Hj. simpl in Hj. injection Hj as Hz _. by apply Ht.
  - apply find_None in Hfind. apply Hfind. apply list_elem_of_fmap.
    exists (t, v). split; [done|]. by eapply list_elem_of_lookup_2.
Qed.

Lemma unique_key_erased_all ts : forall m t,
  t <> 0%Z -> uniqueKey m t -> t ∈ ts -> t ∉ (eraseAll ts m).*1.
Proof.
  induction ts as [|t' ts IH]; intros m t Ht Hu Hin; [by apply elem_of_nil in Hin|].
  destruct (decide (t = t')) as [<-|Hne].
  - intros Hkey. change (t ∈ (eraseAll ts (eraseFound m t)).*1) in Hkey.
    apply key_survives_all in Hkey; [|exact Ht].
    by apply (unique_key_erased m t).
  - apply elem_of_cons in Hin as [?|Hin]; [done|].
    apply (IH (eraseFound m t')); [exact Ht | by apply uniqueKey_eraseFound | exact Hin].
Qed.

Lemma entriesOf_keys pairs : (entriesOf pairs).*1 = tagsOf pairs.
Proof. unfold entriesOf, tagsOf. by rewrite <- list_fmap_compose. Qed.

Lemma entriesOf_unique pairs t : NoDup (tagsOf pairs) -> uniqueKey (entriesOf pairs) t.
Proof.
  intros Hnd i j v w Hi Hj. apply (NoDup_lookup _ i j t Hnd).
  - rewrite <- entriesOf_keys, list_lookup_fmap, Hi. reflexivity.
  - rewrite <- entriesOf_keys, list_lookup_fmap, Hj. reflexivity.
Qed.

Lemma elem_of_createsOf m pairs view :
  CreateMutation view ∈ createsOf m pairs <->
  exists pair, pair ∈ pairs /\ shadowView pair = view
               /\ TinyMap.find (tag (shadowView pair)) m <> None.
Proof.
  unfold createsOf. rewrite list_elem_of_fmap. split.
  - intros (pair & [= ->] & Hin). apply list_elem_of_filter in Hin as [Hf Hin]. eauto.
  - intros (pair & Hin & <- & Hf). exists pair. split; [done|].
    apply list_elem_of_filter. done.
Qed.
End InsertedPairsFacts.

(** ** Kinds of mutations, and creation before insertion *)

Section KindFacts.
Context `{FloatOps}.

Lemma emitFrom_Forall (P : ShadowViewMutation -> Prop) make index pairs :
  (forall view i, P (make view i)) -> Forall P (emitFrom make index pairs).
Proof.
  intros HP. revert index. induction pairs as [|first rest IH]; intros index; simpl.
  - constructor.
  - constructor; [apply HP | apply IH].
Qed.

Lemma emitFrom_from make index pairs :
  (forall view i, mutationIndex (make view i) = i) ->
  Forall (fun m => (Z.of_nat index <= mutationIndex m)%Z) (emitFrom make index pairs).
Proof.
  intros Hi. revert index. induction pairs as [|first rest IH]; intros index; simpl.
  - constructor.
  - constructor; [rewrite Hi; lia|].
    eapply Forall_impl; [apply IH|]. simpl. intros; lia.
Qed.

Lemma emitFrom_ascending make index pairs :
  (forall view i, mutationIndex (make view i) = i) ->
  StronglySorted (fun a b => (mutationIndex a < mutationIndex b)%Z)
    (emitFrom make index pairs).
Proof.
  intros Hi. revert index. induction pairs as [|first rest IH]; intros index; simpl.
  - constructor.
  - constructor; [apply IH|]. rewrite Hi.
    eapply Forall_impl; [apply (emitFrom_from make (S index) rest Hi)|]. simpl. intros; lia.
Qed.

Lemma StronglySorted_reverse {A} (R : A -> A -> Prop) (l : list A) :
  StronglySorted R l -> StronglySorted (fun a b => R b a) (reverse l).
Proof.
  induction 1 as [|a l Hs IH Hall]; [constructor|].
  rewrite reverse_cons. apply StronglySorted_app.
  split; [|split; [exact IH | repeat constructor]].
  intros b c Hb Hc. apply list_elem_of_singleton in Hc as ->.
  rewrite elem_of_reverse in Hb. rewrite Forall_forall in Hall. by apply Hall.
Qed.

Lemma createsOf_Forall m pairs : Forall isCreate (createsOf m pairs).
Proof. unfold createsOf. apply Forall_fmap, Forall_forall. by intros. Qed.
End KindFacts.

Section CreatedBeforeInsert.
Context `{FloatOps}.
Variable known : Z -> Prop.
Implicit Types (created : list ShadowView) (ms : list ShadowViewMutation).

Lemma cbi_mono ms : forall created created',
  (forall view, view ∈ created -> view ∈ created') ->
  createdBeforeInsert known created ms -> createdBeforeInsert known created' ms.
Proof.
  induction ms as [|m ms IH]; intros created created' Hsub; simpl; [done|].
  destruct m; try (by apply IH).
  - apply IH. intros view. rewrite !elem_of_cons. intros [->|Hin]; [by left | right; auto].
  - intros [[Hin|Hk] Hrest]; (split; [|by eapply IH]); auto.
Qed.

Lemma cbi_app ms1 : forall created ms2,
  createdBeforeInsert known created ms1 ->
  createdBeforeInsert known (createdIn ms1 ++ created) ms2 ->
  createdBeforeInsert known created (ms1 ++ ms2).
Proof.
  induction ms1 as [|m ms1 IH]; intros created ms2; simpl; [done|].
  destruct m; simpl; try (by apply IH).
  - intros H1 H2. apply IH; [exact H1|].
    eapply cbi_mono; [|exact H2]. intros view.
    rewrite !elem_of_app, !elem_of_cons, elem_of_app. tauto.
  - intros [Hhead H1] H2. split; [exact Hhead | by apply IH].
Qed.

Lemma cbi_no_insert ms created :
  Forall (fun m => match m with InsertMutation _ _ _ => False | _ => True end) ms ->
  createdBeforeInsert known created ms.
Proof.
  revert created. induction ms as [|m ms IH]; intros created Hall; simpl; [done|].
  apply Forall_cons in Hall as [Hm Hall]. destruct m; try (by apply IH). done.
Qed.

Lemma cbi_inserts parent index pairs created :
  (forall pair, pair ∈ pairs ->
     shadowView pair ∈ created \/ known (tag (shadowView pair))) ->
  createdBeforeInsert known created (emitFrom (InsertMutation parent) index pairs).
Proof.
  revert index. induction pairs as [|first rest IH]; intros index Hall; simpl; [done|].
  split.
  - apply Hall. by left.
  - apply IH. intros pair Hin. apply Hall. by right.
Qed.

Lemma cbi_split ms : forall created l1 parent view index l2,
  createdBeforeInsert known created ms ->
  ms = l1 ++ InsertMutation parent view index :: l2 ->
  view ∈ created \/ CreateMutation view ∈ l1 \/ known (tag view).
Proof.
  induction ms as [|m ms IH]; intros created l1 parent view index l2 Hc E.
  - by destruct l1.
  - destruct l1 as [|m1 l1]; simpl in E; injection E as -> E.
    + subst ms. simpl in Hc. destruct Hc as [[?|?] _]; auto.
    + assert (forall created', createdBeforeInsert known created' ms ->
                view ∈ created' \/ CreateMutation view ∈ m1 :: l1 \/ known (tag view))
        as Hrest.
      { intros created' Hc'. destruct (IH created' l1 parent view index l2 Hc' E)
          as [?|[?|?]]; auto. right. left. by right. }
      destruct m1; simpl in Hc; try (by apply Hrest); try (by apply Hrest, Hc).
      destruct (Hrest _ Hc) as [Hin|?]; [|by right].
      apply elem_of_cons in Hin as [->|Hin]; [|by left]. right. left. by left.
Qed.

Lemma createdIn_createsOf m pairs view :
  CreateMutation view ∈ createsOf m pairs -> view ∈ createdIn (createsOf m pairs).
Proof.
  generalize (createsOf m pairs). intros ms Hin.
  induction ms as [|m' ms IH]; [by apply elem_of_nil in Hin|].
  apply elem_of_cons in Hin as [<-|Hin]; simpl; [by left|].
  destruct m'; auto. right. auto.
Qed.
End CreatedBeforeInsert.

(** ** The mutation stream *)

Section Claims.
Context `{FloatOps}.

(** C2: what a call of the recursive driver appends to the list of its
    caller is, in this order, its [destructiveDownwardMutations], its
    [updateMutations], its [removeMutations] reversed, its
    [deleteMutations], its [createMutations], its [downwardMutations] and
    its [insertMutations], as the four stages left them (all empty when the
    call returns at once).  The lists hold mutations of their kind only, and
    the reversed remove list goes from the highest index down. *)
Theorem flush_order fuel mutations parent olds news out :
  calculateShadowViewMutations fuel mutations parent olds news = Done out ->
  exists acc,
    ((olds = [] /\ news = [] /\ acc = noMutations)
     \/ (exists fuel', fuel = S fuel'
           /\ stages (calculateShadowViewMutations fuel') parent olds news = Done acc))
    /\ out = mutations ++ destructiveDownwardMutations acc ++ updateMutations acc
               ++ reverse (removeMutations acc) ++ deleteMutations acc
               ++ createMutations acc ++ downwardMutations acc ++ insertMutations acc
    /\ Forall (isUpdateUnder parent) (updateMutations acc)
    /\ Forall (isRemoveUnder parent) (removeMutations acc)
    /\ StronglySorted (fun a b => (mutationIndex b < mutationIndex a)%Z)
         (reverse (removeMutations acc))
    /\ Forall isDelete (deleteMutations acc)
    /\ Forall isCreate (createMutations acc)
    /\ Forall (isInsertUnder parent) (insertMutations acc).
Proof.
  intros E. apply driver_Done in E as [(-> & -> & ->)|(fuel' & acc & -> & Hs & ->)].
  - exists noMutations. split; [by left|]. simpl. rewrite app_nil_r.
    repeat split; constructor.
  - exists acc. split; [right; by exists fuel'|]. split; [reflexivity|].
    apply stages_shape in Hs
      as (last & _ & _ & _ & _ & -> & Hdel & -> & -> & Hupd).
    split; [exact Hupd|]. split; [by apply emitFrom_Forall|].
    split; [by apply StronglySorted_reverse, emitFrom_ascending|].
    split; [exact Hdel|]. split; [apply createsOf_Forall | by apply emitFrom_Forall].
Qed.

Lemma projection_cbi old parent olds news acc :
  Forall (InProjection old) olds ->
  ownShape parent olds news acc ->
  (forall created,
     createdBeforeInsert (inOldProjection old) created (downwardMutations acc)) ->
  (forall created,
     createdBeforeInsert (inOldProjection old) created (destructiveDownwardMutations acc)) ->
  forall created, createdBeforeInsert (inOldProjection old) created (flushed acc).
Proof.
  intros Hpre (last & _ & _ & _ & _ & Hcre & Hdel & Hins & Hrem & Hupd) Qdown Qdd created.
  unfold flushed.
  apply cbi_app; [apply Qdd|].
  apply cbi_app.
  { apply cbi_no_insert. eapply Forall_impl; [exact Hupd|]. by intros []. }
  apply cbi_app.
  { apply cbi_no_insert, Forall_reverse. rewrite Hrem. by apply emitFrom_Forall. }
  apply cbi_app.
  { apply cbi_no_insert. eapply Forall_impl; [exact Hdel|]. by intros []. }
  apply cbi_app.
  { apply cbi_no_insert. rewrite Hcre.
    eapply Forall_impl; [apply createsOf_Forall|]. by intros []. }
  apply cbi_app; [apply Qdown|].
  rewrite Hins. apply cbi_inserts. intros new Hnew.
  set (m := eraseAll (tagsOf (drop last (reorderInPlaceIfNeeded olds)))
              (entriesOf (drop last (reorderInPlaceIfNeeded news)))) in *.
  destruct (TinyMap.find (tag (shadowView new)) m) as [slot|] eqn:Hfind.
  - left. rewrite !elem_of_app. right. left. rewrite Hcre.
    apply createdIn_createsOf, elem_of_createsOf. exists new. by rewrite Hfind.
  - right. apply find_None in Hfind. apply key_erased_all in Hfind.
    + apply list_elem_of_fmap in Hfind as (old' & Htag & Hold).
      exists old'. split; [|done].
      apply subseteq_drop in Hold. rewrite elem_of_reorder in Hold.
      rewrite Forall_forall in Hpre. by apply Hpre.
    + rewrite entriesOf_keys. apply list_elem_of_fmap. by exists new.
Qed.

Variable emptyShadowView : ShadowView.

(** C3: in the list returned by [diffRoots], every [Insert] of a view comes
    after a [Create] of that view, unless the tag of the view is the tag of
    a pair of the flattened projection of the old tree. *)
Theorem create_before_insert old new L l1 parent view index l2 :
  diffRoots emptyShadowView old new = Done L ->
  L = l1 ++ InsertMutation parent view index :: l2 ->
  CreateMutation view ∈ l1 \/ inOldProjection old (tag view).
Proof.
  unfold diffRoots. destruct (negb (sameFamily old new)); [discriminate|].
  intros E HL.
  apply (driver_ok (InProjection old)
           (fun ms => forall created,
              createdBeforeInsert (inOldProjection old) created ms)) in E.
  - destruct E as (added & -> & Hadded).
    assert (createdBeforeInsert (inOldProjection old) []
              ((if negb (ShadowView_eqb (ShadowView_of old) (ShadowView_of new))
                then [] ++ [UpdateMutation emptyShadowView (ShadowView_of old)
                              (ShadowView_of new) (-1)]
                else []) ++ added)) as Hall.
    { destruct (negb _); simpl; apply Hadded. }
    destruct (cbi_split _ _ _ _ _ _ _ _ Hall HL) as [Hin|[Hin|Hk]]; auto.
    by apply elem_of_nil in Hin.
  - done.
  - intros a b Ha Hb created. apply cbi_app; [apply Ha | apply Hb].
  - intros pair Hp. apply Forall_forall. intros inner Hin.
    by apply (InProjection_below old pair inner).
  - intros. by eapply projection_cbi.
  - apply Forall_forall. intros pair Hin. by apply InProjection_child.
Qed.

(** C4: in a call on the sibling lists [olds] and [news] of a common
    parent, where the tags of the new siblings are distinct as the data
    model has them, a tag that occurs among the old and among the new
    siblings gets no [Create]: no mutation of [createMutations] creates a
    view with that tag. *)
Theorem reinsertion_no_create fuel parent olds news acc t view :
  stages (calculateShadowViewMutations fuel) parent olds news = Done acc ->
  NoDup (tagsOf news) ->
  t ∈ tagsOf olds -> t ∈ tagsOf news ->
  CreateMutation view ∈ createMutations acc ->
  tag view <> t.
Proof.
  intros Hs Hnd Hold Hnew Hcreate Htag.
  apply stages_shape in Hs as (last & _ & _ & Hprefix & Hnz & Hcre & _).
  rewrite Hcre in Hcreate. apply elem_of_createsOf in Hcreate as (new & Hin & <- & Hfind).
  assert (tagsOf (reorderInPlaceIfNeeded news) ≡ₚ tagsOf news) as Hperm
    by (unfold tagsOf; by rewrite reorder_perm).
  assert (tagsOf (reorderInPlaceIfNeeded olds) ≡ₚ tagsOf olds) as Hperm'
    by (unfold tagsOf; by rewrite reorder_perm).
  rewrite <- Hperm in Hnd. rewrite <- Hperm' in Hold.
  rewrite <- (take_drop last (tagsOf (reorderInPlaceIfNeeded news))) in Hnd.
  apply NoDup_app in Hnd as (_ & Hdisjoint & Hnd).
  assert (t <> 0%Z) as Ht.
  { rewrite Forall_forall in Hnz. rewrite <- Htag. by apply Hnz. }
  assert (t ∈ drop last (tagsOf (reorderInPlaceIfNeeded news))) as Htail.
  { unfold tagsOf. rewrite <- fmap_drop. apply list_elem_of_fmap. by exists new. }
  rewrite <- (take_drop last (tagsOf (reorderInPlaceIfNeeded olds))) in Hold.
  apply elem_of_app in Hold as [Hold|Hold].
  - rewrite Hprefix in Hold. by apply (Hdisjoint t).
  - apply Hfind, find_None. rewrite Htag.
    apply unique_key_erased_all; [exact Ht | |].
    + apply entriesOf_unique. unfold tagsOf in *. by rewrite fmap_drop.
    + unfold tagsOf in *. by rewrite fmap_drop.
Qed.
End Claims.

(** ** The recursion budget is enough; identical trees *)

Lemma bind_not_OutOfFuel {A B : Type} (m : outcome A) (k : A -> outcome B) :
  m <> OutOfFuel -> (forall a, m = Done a -> k a <> OutOfFuel) -> bind m k <> OutOfFuel.
Proof. destruct m as [a| |]; simpl; intros Hm Hk; [by apply Hk | done | done]. Qed.

Section Totality.
Context `{FloatOps}.
Variable rec : Driver.
Variable fuel : nat.
Hypothesis rec_total :
  forall mutations parent olds news,
    shallowerThan fuel olds -> shallowerThan fuel news ->
    rec mutations parent olds news <> OutOfFuel.

Lemma slice_shallower node :
  depth node < S fuel -> shallowerThan fuel (sliceChildShadowNodeViewPairs node).
Proof.
  intros Hd. apply Forall_forall. intros inner Hin. apply slice_depth in Hin. lia.
Qed.

Lemma recurseInto_total intoDownward acc parent olds news :
  shallowerThan fuel olds -> shallowerThan fuel news ->
  recurseInto rec intoDownward acc parent olds news <> OutOfFuel.
Proof.
  intros Ho Hn. unfold recurseInto.
  destruct intoDownward; (apply bind_not_OutOfFuel; [by apply rec_total | done]).
Qed.

Lemma stage1_total parent olds : forall news index acc,
  shallowerThan (S fuel) olds -> shallowerThan (S fuel) news ->
  stage1 rec parent olds news index acc <> OutOfFuel.
Proof.
  induction olds as [|old oldRest IH]; intros news index acc Ho Hn; [done|].
  destruct news as [|new newRest]; [done|]. simpl.
  apply Forall_cons in Ho as [Ho Horest]. apply Forall_cons in Hn as [Hn Hnrest].
  destruct (negb _); [done|].
  apply bind_not_OutOfFuel.
  - apply recurseInto_total; by apply slice_shallower.
  - intros acc1 _. by apply IH.
Qed.

Lemma stage2_total parent news : forall index acc m,
  stage2 parent news index acc m <> OutOfFuel.
Proof.
  induction news as [|new newRest IH]; intros index acc m; simpl; [done|].
  apply bind_not_OutOfFuel; [|intros; apply IH].
  unfold TinyMap.insert. by destruct (_ =? _)%Z.
Qed.

Lemma stage3_total parent olds : forall index acc (m : TinyMap.t ShadowViewNodePair),
  shallowerThan (S fuel) olds ->
  Forall (fun item => depth (shadowNode item.2) < S fuel) m ->
  stage3 rec parent olds index acc m <> OutOfFuel.
Proof.
  induction olds as [|old oldRest IH]; intros index acc m Ho Hm; simpl; [done|].
  apply Forall_cons in Ho as [Ho Horest].
  destruct (TinyMap.find (tag (shadowView old)) m) as [slot|].
  - destruct (m !! slot) as [[key found]|] eqn:Hslot; [|done].
    assert (depth (shadowNode found) < S fuel) as Hfound.
    { rewrite Forall_forall in Hm. apply (Hm (key, found)). by eapply list_elem_of_lookup_2. }
    apply bind_not_OutOfFuel.
    + destruct (negb _); [|done]. apply recurseInto_total; by apply slice_shallower.
    + intros acc1 _. apply IH; [exact Horest|].
      unfold TinyMap.erase. apply Forall_alter; [exact Hm|]. by intros [].
  - apply bind_not_OutOfFuel.
    + apply recurseInto_total; [by apply slice_shallower | constructor].
    + intros acc1 _. by apply IH.
Qed.

Lemma stage4_total news : forall acc (m : TinyMap.t ShadowViewNodePair),
  shallowerThan (S fuel) news -> stage4 rec news acc m <> OutOfFuel.
Proof.
  induction news as [|new newRest IH]; intros acc m Hn; simpl; [done|].
  apply Forall_cons in Hn as [Hn Hnrest].
  destruct (TinyMap.find _ m); [|by apply IH].
  apply bind_not_OutOfFuel.
  - apply recurseInto_total; [constructor | by apply slice_shallower].
  - intros acc1 _. by apply IH.
Qed.

Lemma stages_total parent olds news :
  shallowerThan (S fuel) olds -> shallowerThan (S fuel) news ->
  stages rec parent olds news <> OutOfFuel.
Proof.
  intros Ho Hn. unfold stages.
  assert (shallowerThan (S fuel) (reorderInPlaceIfNeeded olds)) as Ho'
    by (unfold shallowerThan; by rewrite reorder_perm).
  assert (shallowerThan (S fuel) (reorderInPlaceIfNeeded news)) as Hn'
    by (unfold shallowerThan; by rewrite reorder_perm).
  apply bind_not_OutOfFuel; [by apply stage1_total|]. intros [last acc1] _. simpl.
  apply bind_not_OutOfFuel; [apply stage2_total|]. intros [acc2 m2] H2. simpl.
  apply stage2_ok in H2 as (_ & -> & _). simpl.
  apply bind_not_OutOfFuel.
  - apply stage3_total; [by apply Forall_drop|].
    unfold entriesOf. apply Forall_fmap. simpl. by apply Forall_drop.
  - intros [acc3 m3] _. simpl. apply stage4_total. by apply Forall_drop.
Qed.
End Totality.

Section Identity.
Context `{FloatOps}.

Lemma driver_total fuel : forall mutations parent olds news,
  shallowerThan fuel olds -> shallowerThan fuel news ->
  calculateShadowViewMutations fuel mutations parent olds news <> OutOfFuel.
Proof.
  induction fuel as [|fuel IH]; intros mutations parent olds news Ho Hn.
  - destruct olds as [|old olds]; [|apply Forall_cons in Ho as [Ho _]; lia].
    destruct news as [|new news]; [|apply Forall_cons in Hn as [Hn _]; lia].
    by rewrite driver_nil.
  - rewrite driver_unfold. destruct (_ && _); [done|].
    apply bind_not_OutOfFuel; [|done]. by apply (stages_total _ fuel).
Qed.

Variable emptyShadowView : ShadowView.

Lemma diffRoots_total old new : diffRoots emptyShadowView old new <> OutOfFuel.
Proof.
  unfold diffRoots. destruct (negb (sameFamily old new)); [done|].
  apply driver_total; apply Forall_forall; intros inner Hin; apply slice_depth in Hin; lia.
Qed.

Lemma recurseInto_identity (rec : Driver) intoDownward acc parent pairs :
  (forall mutations, rec mutations parent pairs pairs = Done mutations) ->
  recurseInto rec intoDownward acc parent pairs pairs = Done acc.
Proof.
  intros Hrec. unfold recurseInto. destruct intoDownward; rewrite Hrec; simpl; by destruct acc.
Qed.

Lemma stage1_identity (rec : Driver) parent pairs : forall index acc,
  (forall pair, pair ∈ pairs ->
     ShadowView_eqb (shadowView pair) (shadowView pair) = true
     /\ forall mutations parent',
          rec mutations parent' (sliceChildShadowNodeViewPairs (shadowNode pair))
            (sliceChildShadowNodeViewPairs (shadowNode pair)) = Done mutations) ->
  stage1 rec parent pairs pairs index acc = Done (index + length pairs, acc).
Proof.
  induction pairs as [|first rest IH]; intros index acc Hall; simpl.
  - by rewrite Nat.add_0_r.
  - destruct (Hall first) as [Heq Hrec]; [by left|].
    rewrite Z.eqb_refl, Heq. simpl.
    rewrite recurseInto_identity by (intros; apply Hrec). simpl.
    rewrite IH; [f_equal; f_equal; lia|].
    intros pair Hin. apply Hall. by right.
Qed.

Lemma driver_identity fuel : forall mutations parent pairs,
  shallowerThan fuel pairs -> ReflexiveBelow pairs ->
  calculateShadowViewMutations fuel mutations parent pairs pairs = Done mutations.
Proof.
  induction fuel as [|fuel IH]; intros mutations parent pairs Hd Hrefl.
  - destruct pairs as [|first rest]; [|apply Forall_cons in Hd as [Hd _]; lia].
    apply driver_nil.
  - rewrite driver_unfold. destruct (_ && _); [done|].
    unfold stages. rewrite stage1_identity.
    + simpl. rewrite drop_all. simpl. by rewrite flush_flushed, app_nil_r.
    + intros pair Hin. rewrite elem_of_reorder in Hin.
      destruct Hrefl as [pairs Hall]. destruct (Hall pair Hin) as [Heq Hbelow].
      split; [exact Heq|]. intros mutations' parent'. apply IH; [|exact Hbelow].
      unfold shallowerThan in Hd. rewrite Forall_forall in Hd.
      by apply slice_shallower, Hd.
Qed.

(** C6: when equality of shadow views is reflexive on the views of a tree,
    [diffRoots] of the tree with itself returns the empty list. *)
Theorem diffRoots_identity T :
  ReflexiveOn T -> diffRoots emptyShadowView T T = Done [].
Proof.
  intros [Hroot Hbelow]. unfold diffRoots, sameFamily.
  rewrite !Z.eqb_refl, String.eqb_refl, Hroot. simpl.
  apply driver_identity; [|exact Hbelow].
  apply Forall_forall. intros inner Hin. apply slice_depth in Hin. lia.
Qed.
End Identity.

(** ** No assertion fails on trees without the tag 0 *)

Lemma bind_not_AssertionFailed {A B : Type} (m : outcome A) (k : A -> outcome B) :
  m <> AssertionFailed -> (forall a, m = Done a -> k a <> AssertionFailed) ->
  bind m k <> AssertionFailed.
Proof. destruct m as [a| |]; simpl; intros Hm Hk; [by apply Hk | done | done]. Qed.

Section NoAssertionFails.
Context `{FloatOps}.
Variable rec : Driver.
Hypothesis rec_safe :
  forall mutations parent olds news,
    NonzeroBelow news -> rec mutations parent olds news <> AssertionFailed.

Lemma NonzeroBelow_nil : NonzeroBelow [].
Proof. constructor. intros pair Hin. by apply elem_of_nil in Hin. Qed.

Lemma NonzeroBelow_cons first rest :
  NonzeroBelow (first :: rest) ->
  tag (shadowView first) <> 0%Z
  /\ NonzeroBelow (sliceChildShadowNodeViewPairs (shadowNode first))
  /\ NonzeroBelow rest.
Proof.
  inversion 1 as [pairs Hall Heq]. subst pairs.
  destruct (Hall first) as [Htag Hbelow]; [by left|].
  split; [exact Htag|]. split; [exact Hbelow|].
  constructor. intros pair Hin. apply Hall. by right.
Qed.

Lemma NonzeroBelow_subseteq pairs pairs' :
  pairs' ⊆ pairs -> NonzeroBelow pairs -> NonzeroBelow pairs'.
Proof.
  intros Hsub Hn. inversion Hn as [? Hall Heq]. subst.
  constructor. intros pair Hin. by apply Hall, Hsub.
Qed.

Lemma recurseInto_safe intoDownward acc parent olds news :
  NonzeroBelow news -> recurseInto rec intoDownward acc parent olds news <> AssertionFailed.
Proof.
  intros Hn. unfold recurseInto.
  destruct intoDownward; (apply bind_not_AssertionFailed; [by apply rec_safe | done]).
Qed.

Lemma stage1_safe parent olds : forall news index acc,
  NonzeroBelow news -> stage1 rec parent olds news index acc <> AssertionFailed.
Proof.
  induction olds as [|old oldRest IH]; intros news index acc Hn; [done|].
  destruct news as [|new newRest]; [done|]. simpl.
  apply NonzeroBelow_cons in Hn as (_ & Hbelow & Hrest).
  destruct (negb _); [done|].
  apply bind_not_AssertionFailed.
  - by apply recurseInto_safe.
  - intros acc1 _. by apply IH.
Qed.

Lemma stage2_safe parent news : forall index acc m,
  NonzeroBelow news -> stage2 parent news index acc m <> AssertionFailed.
Proof.
  induction news as [|new newRest IH]; intros index acc m Hn; simpl; [done|].
  apply NonzeroBelow_cons in Hn as (Htag & _ & Hrest).
  rewrite insert_nonzero by exact Htag. simpl. by apply IH.
Qed.

Lemma stage3_safe parent olds : forall index acc (m : TinyMap.t ShadowViewNodePair),
  Forall (fun item => NonzeroBelow (sliceChildShadowNodeViewPairs (shadowNode item.2))) m ->
  stage3 rec parent olds index acc m <> AssertionFailed.
Proof.
  induction olds as [|old oldRest IH]; intros index acc m Hm; simpl; [done|].
  destruct (TinyMap.find (tag (shadowView old)) m) as [slot|] eqn:Hfind.
  - destruct (find_Some _ _ _ Hfind) as (found & Hslot & _). rewrite Hslot.
    assert (NonzeroBelow (sliceChildShadowNodeViewPairs (shadowNode found))) as Hfound.
    { rewrite Forall_forall in Hm.
      apply (Hm (tag (shadowView old), found)). by eapply list_elem_of_lookup_2. }
    apply bind_not_AssertionFailed.
    + destruct (negb _); [|done]. by apply recurseInto_safe.
    + intros acc1 _. apply IH.
      unfold TinyMap.erase. apply Forall_alter; [exact Hm|]. by intros [].
  - apply bind_not_AssertionFailed.
    + apply recurseInto_safe, NonzeroBelow_nil.
    + intros acc1 _. by apply IH.
Qed.

Lemma stage4_safe news : forall acc (m : TinyMap.t ShadowViewNodePair),
  NonzeroBelow news -> stage4 rec news acc m <> AssertionFailed.
Proof.
  induction news as [|new newRest IH]; intros acc m Hn; simpl; [done|].
  apply NonzeroBelow_cons in Hn as (_ & Hbelow & Hrest).
  destruct (TinyMap.find _ m); [|by apply IH].
  apply bind_not_AssertionFailed.
  - by apply recurseInto_safe.
  - intros acc1 _. by apply IH.
Qed.

Lemma stages_safe parent olds news :
  NonzeroBelow news -> stages rec parent olds news <> AssertionFailed.
Proof.
  intros Hn. unfold stages.
  assert (NonzeroBelow (reorderInPlaceIfNeeded news)) as Hn'.
  { eapply NonzeroBelow_subseteq; [|exact Hn]. intros pair. by rewrite elem_of_reorder. }
  assert (forall last, NonzeroBelow (drop last (reorderInPlaceIfNeeded news))) as Htail.
  { intros last. eapply NonzeroBelow_subseteq; [apply subseteq_drop | exact Hn']. }
  apply bind_not_AssertionFailed; [by apply stage1_safe|]. intros [last acc1] _. simpl.
  apply bind_not_AssertionFailed; [by apply stage2_safe|]. intros [acc2 m2] H2. simpl.
  apply stage2_ok in H2 as (_ & -> & _). simpl.
  apply bind_not_AssertionFailed.
  - apply stage3_safe. unfold entriesOf. apply Forall_fmap, Forall_forall.
    intros pair Hin. simpl. pose proof (Htail last) as Hlast.
    inversion Hlast as [? Hall Heq]. subst. by apply Hall.
  - intros [acc3 m3] _. simpl. by apply stage4_safe.
Qed.
End NoAssertionFails.

Section Returns.
Context `{FloatOps}.

Lemma driver_safe fuel : forall mutations parent olds news,
  NonzeroBelow news ->
  calculateShadowViewMutations fuel mutations parent olds news <> AssertionFailed.
Proof.
  induction fuel as [|fuel IH]; intros mutations parent olds news Hn.
  - simpl. by destruct (_ && _).
  - rewrite driver_unfold. destruct (_ && _); [done|].
    apply bind_not_AssertionFailed; [|done]. by apply stages_safe.
Qed.

Variable emptyShadowView : ShadowView.

Lemma diffRoots_returns old new :
  sameFamily old new = true ->
  NonzeroBelow (sliceChildShadowNodeViewPairs new) ->
  exists mutations, diffRoots emptyShadowView old new = Done mutations.
Proof.
  intros Hfamily Hn.
  pose proof (diffRoots_total emptyShadowView old new) as Hfuel.
  assert (diffRoots emptyShadowView old new <> AssertionFailed) as Hsafe.
  { unfold diffRoots. rewrite Hfamily. simpl. by apply driver_safe. }
  destruct (diffRoots emptyShadowView old new) as [mutations| |];
    [by exists mutations | done | done].
Qed.
End Returns.

(** ** Prepending one child *)

Section Prepend.
Context `{FloatOps}.
Variable emptyShadowView : ShadowView.

(** C5, as the code has it: for [P[A]] and [P[B, A]] with plain leaf
    views A and B of distinct non-zero tags and order index 0 under a
    stacking context P whose view is unchanged, [diffRoots] returns
    [Remove(P, A, 0)], [Create(B)], [Insert(P, B, 0)], [Insert(P, A, 1)]:
    stage 1 stops at index 0, so A is removed and inserted again. *)
Theorem prepend_one_child
    (tP sP : Z) (cP : string) (pP eP : Z) (lP : LayoutMetrics) (stP oP : Z) (fvP : bool)
    (tA sA : Z) (cA : string) (pA eA : Z) (lA : LayoutMetrics) (stA : Z)
    (tB sB : Z) (cB : string) (pB eB : Z) (lB : LayoutMetrics) (stB : Z) :
  let A := mkShadowNode tA sA cA pA eA lA stA 0 (mkTraits true true) [] in
  let B := mkShadowNode tB sB cB pB eB lB stB 0 (mkTraits true true) [] in
  let old := mkShadowNode tP sP cP pP eP lP stP oP (mkTraits fvP true) [A] in
  let new := mkShadowNode tP sP cP pP eP lP stP oP (mkTraits fvP true) [B; A] in
  let viewP := ShadowView_of old in
  let viewA := offsetShadowView (mkPoint Float_zero Float_zero) A in
  let viewB := offsetShadowView (mkPoint Float_zero Float_zero) B in
  tA <> tB -> tA <> 0%Z -> tB <> 0%Z ->
  ShadowView_eqb viewP viewP = true ->
  diffRoots emptyShadowView old new
  = Done [RemoveMutation viewP viewA 0; CreateMutation viewB;
          InsertMutation viewP viewB 0; InsertMutation viewP viewA 1].
Proof.
  intros A B old new viewP viewA viewB HAB HA HB HP.
  assert ((tA =? tB)%Z = false) as EAB by (by apply Z.eqb_neq).
  assert ((tB =? tA)%Z = false) as EBA by (apply Z.eqb_neq; congruence).
  assert ((tA =? 0)%Z = false) as EA0 by (by apply Z.eqb_neq).
  assert ((tB =? 0)%Z = false) as EB0 by (by apply Z.eqb_neq).
  assert (tag viewA = tA) as TA by reflexivity.
  assert (tag viewB = tB) as TB by reflexivity.
  assert (sliceChildShadowNodeViewPairs A = []) as SA by reflexivity.
  assert (sliceChildShadowNodeViewPairs B = []) as SB by reflexivity.
  unfold diffRoots, sameFamily. simpl getTag. simpl getSurfaceId. simpl getComponentName.
  rewrite !Z.eqb_refl, String.eqb_refl.
  change (ShadowView_of new) with viewP. fold viewP. rewrite HP.
  change (sliceChildShadowNodeViewPairs old) with [mkPair viewA A].
  change (sliceChildShadowNodeViewPairs new) with [mkPair viewB B; mkPair viewA A].
  change (Nat.max (depth old) (depth new)) with 1.
  rewrite driver_unfold. unfold stages.
  change (reorderInPlaceIfNeeded [mkPair viewA A]) with [mkPair viewA A].
  change (reorderInPlaceIfNeeded [mkPair viewB B; mkPair viewA A])
    with [mkPair viewB B; mkPair viewA A].
  clearbody viewA viewB viewP. clearbody A B. clear old new HP.
  subst tA tB.
  simpl. rewrite EAB. simpl.
  repeat (rewrite insert_nonzero by done; simpl).
  unfold TinyMap.find. simpl. rewrite EBA, Z.eqb_refl. simpl.
  rewrite SA, SB. unfold recurseInto. simpl.
  destruct (negb _); simpl; rewrite Z.eqb_refl; simpl; rewrite EBA;
    (destruct (tag viewA); [done | reflexivity | reflexivity]).
Qed.
End Prepend.

(** ** TinyMap, the registry, and trees the stream does not reach *)

Section TinyMapClaims.
Context {ValueT : Type}.

End TinyMapClaims.


Section RegistryClaims.
Context {ShadowTree : Type} (getSurfaceId : ShadowTree -> Z).

(** C10: [add] with a tree whose surface id is already in the registry
    leaves the registry as it is; the tree stored before stays mapped to
    the surface id. *)
Theorem add_keeps_present_tree (shadowTree present : ShadowTree)
    (registry_ : gmap Z ShadowTree) :
  registry_ !! getSurfaceId shadowTree = Some present ->
  ShadowTreeRegistry.add getSurfaceId shadowTree registry_ = registry_
  /\ ShadowTreeRegistry.add getSurfaceId shadowTree registry_ !! getSurfaceId shadowTree
     = Some present.
Proof.
  intros Hpresent. unfold ShadowTreeRegistry.add, ShadowTreeRegistry.emplace.
  destruct (decide (registry_ !! getSurfaceId shadowTree = None)) as [Hnone|_].
  - rewrite Hpresent in Hnone. discriminate.
  - by split.
Qed.
End RegistryClaims.

(** C10 at a registry that holds surface 1. *)
Lemma add_keeps_present_tree_witness :
  Examples.registryOf [(1%Z, "first")] !! 1%Z = Some (1%Z, "first")
  /\ ShadowTreeRegistry.add fst (1%Z, "second") (Examples.registryOf [(1%Z, "first")])
     = Examples.registryOf [(1%Z, "first")]
  /\ ShadowTreeRegistry.add fst (1%Z, "second") (Examples.registryOf [(1%Z, "first")]) !! 1%Z
     = Some (1%Z, "first").
Proof.
  assert (Examples.registryOf [(1%Z, "first")] !! 1%Z = Some (1%Z, "first")) as Hpresent
    by (vm_compute; reflexivity).
  split; [exact Hpresent|].
  exact (add_keeps_present_tree fst (1%Z, "second") (1%Z, "first") _ Hpresent).
Defined.

Import Examples.

(** C1 evaluated on two pairs of same-family trees.  When X moves from
    under B to under A, the list creates and inserts X before it removes
    and deletes it: the host tree that matches the old tree refuses it, and
    a host that went on would end without X, which the new tree has under
    A.  When C goes away and A, whose own view is unchanged, gets Y for X,
    the list does not mention X or Y: the host tree ends with X under A,
    the new tree has Y there. *)
Theorem diff_misses_new_tree :
  (diffRoots emptyView moveOld moveNew
   = Done [CreateMutation (viewOf 20 0);
           InsertMutation (viewOf 10 0) (viewOf 20 0) 1;
           RemoveMutation (viewOf 11 0) (viewOf 21 0) 1;
           RemoveMutation (viewOf 11 0) (viewOf 20 0) 0;
           DeleteMutation (viewOf 20 0);
           InsertMutation (viewOf 11 0) (viewOf 21 0) 0]
   /\ applyMutations (project moveOld)
        [CreateMutation (viewOf 20 0);
         InsertMutation (viewOf 10 0) (viewOf 20 0) 1;
         RemoveMutation (viewOf 11 0) (viewOf 21 0) 1;
         RemoveMutation (viewOf 11 0) (viewOf 20 0) 0;
         DeleteMutation (viewOf 20 0);
         InsertMutation (viewOf 11 0) (viewOf 21 0) 0] = None
   /\ structure (project moveOld) !! 20%Z = Some []
   /\ structure (project moveNew) !! 10%Z = Some [30%Z; 20%Z]
   /\ structure (project moveNew) !! 20%Z = Some [])
  /\ (diffRoots emptyView staleOld staleNew
      = Done [RemoveMutation (viewOf 1 0) (viewOf 10 0) 1;
              RemoveMutation (viewOf 1 0) (viewOf 9 0) 0;
              DeleteMutation (viewOf 9 0);
              InsertMutation (viewOf 1 0) (viewOf 10 0) 0]
      /\ exists host,
           applyMutations (project staleOld)
             [RemoveMutation (viewOf 1 0) (viewOf 10 0) 1;
              RemoveMutation (viewOf 1 0) (viewOf 9 0) 0;
              DeleteMutation (viewOf 9 0);
              InsertMutation (viewOf 1 0) (viewOf 10 0) 0] = Some host
           /\ structure host !! 10%Z = Some [20%Z]
           /\ structure (project staleNew) !! 10%Z = Some [21%Z]
           /\ structure host <> structure (project staleNew)).
Proof.
  split.
  - repeat split; vm_compute; reflexivity.
  - split; [vm_compute; reflexivity|].
    eexists. split; [vm_compute; reflexivity|].
    split; [vm_compute; reflexivity|]. split; [vm_compute; reflexivity|].
    intros E. apply (f_equal (fun m : gmap Z (list Z) => m !! 10%Z)) in E.
    vm_compute in E. discriminate.
Qed.

(** C5 fails as stated: for [P[A]] and [P[B, A]] the list is not
    [Create(B), Insert(P, B, 0)]; it removes A at index 0 and inserts it
    again at index 1. *)
Lemma prepend_is_not_two_mutations :
  diffRoots emptyView prependOld prependNew
  <> Done [CreateMutation (viewOf 11 0); InsertMutation (viewOf 1 0) (viewOf 11 0) 0]
  /\ exists mutations,
       diffRoots emptyView prependOld prependNew = Done mutations
       /\ RemoveMutation (viewOf 1 0) (viewOf 10 0) 0 ∈ mutations
       /\ InsertMutation (viewOf 1 0) (viewOf 10 0) 1 ∈ mutations
       /\ mentions 10 (RemoveMutation (viewOf 1 0) (viewOf 10 0) 0).
Proof.
  assert (diffRoots emptyView prependOld prependNew
          = Done [RemoveMutation (viewOf 1 0) (viewOf 10 0) 0; CreateMutation (viewOf 11 0);
                  InsertMutation (viewOf 1 0) (viewOf 11 0) 0;
                  InsertMutation (viewOf 1 0) (viewOf 10 0) 1]) as E
    by (vm_compute; reflexivity).
  split.
  - rewrite E. discriminate.
  - eexists. split; [exact E|]. split; [by left|]. split; [|reflexivity].
    do 3 right. by left.
Qed.

(** ** The theorems at concrete trees *)


Lemma prepend_slices :
  sliceChildShadowNodeViewPairs prependOld = [mkPair (viewOf 10 0) (plainView 10 0 [])]
  /\ sliceChildShadowNodeViewPairs prependNew
     = [mkPair (viewOf 11 0) (plainView 11 0 []); mkPair (viewOf 10 0) (plainView 10 0 [])].
Proof. split; vm_compute; reflexivity. Qed.

(** C2 at the call on the children of [P[A]] and [P[B, A]]. *)
Lemma flush_order_witness :
  calculateShadowViewMutations 1 [] (viewOf 1 0)
    (sliceChildShadowNodeViewPairs prependOld) (sliceChildShadowNodeViewPairs prependNew)
  = Done [RemoveMutation (viewOf 1 0) (viewOf 10 0) 0; CreateMutation (viewOf 11 0);
          InsertMutation (viewOf 1 0) (viewOf 11 0) 0;
          InsertMutation (viewOf 1 0) (viewOf 10 0) 1]
  /\ exists acc,
       [RemoveMutation (viewOf 1 0) (viewOf 10 0) 0; CreateMutation (viewOf 11 0);
        InsertMutation (viewOf 1 0) (viewOf 11 0) 0;
        InsertMutation (viewOf 1 0) (viewOf 10 0) 1]
       = [] ++ destructiveDownwardMutations acc ++ updateMutations acc
            ++ reverse (removeMutations acc) ++ deleteMutations acc
            ++ createMutations acc ++ downwardMutations acc ++ insertMutations acc.
Proof.
  assert (calculateShadowViewMutations 1 [] (viewOf 1 0)
            (sliceChildShadowNodeViewPairs prependOld)
            (sliceChildShadowNodeViewPairs prependNew)
          = Done [RemoveMutation (viewOf 1 0) (viewOf 10 0) 0; CreateMutation (viewOf 11 0);
                  InsertMutation (viewOf 1 0) (viewOf 11 0) 0;
                  InsertMutation (viewOf 1 0) (viewOf 10 0) 1]) as E
    by (vm_compute; reflexivity).
  split; [exact E|].
  destruct (flush_order 1 [] _ _ _ _ E) as (acc & _ & Hout & _).
  exists acc. exact Hout.
Defined.

(** C3 at [P[A]] and [P[B, A]], for the [Insert] of B. *)
Lemma create_before_insert_witness :
  diffRoots emptyView prependOld prependNew
  = Done ([RemoveMutation (viewOf 1 0) (viewOf 10 0) 0; CreateMutation (viewOf 11 0)]
          ++ InsertMutation (viewOf 1 0) (viewOf 11 0) 0
             :: [InsertMutation (viewOf 1 0) (viewOf 10 0) 1])
  /\ (CreateMutation (viewOf 11 0)
        ∈ [RemoveMutation (viewOf 1 0) (viewOf 10 0) 0; CreateMutation (viewOf 11 0)]
      \/ inOldProjection prependOld (tag (viewOf 11 0))).
Proof.
  assert (diffRoots emptyView prependOld prependNew
          = Done ([RemoveMutation (viewOf 1 0) (viewOf 10 0) 0; CreateMutation (viewOf 11 0)]
                  ++ InsertMutation (viewOf 1 0) (viewOf 11 0) 0
                     :: [InsertMutation (viewOf 1 0) (viewOf 10 0) 1])) as E
    by (vm_compute; reflexivity).
  split; [exact E|].
  exact (create_before_insert emptyView prependOld prependNew _ _ _ _ _ _ E eq_refl).
Defined.

(** C4 at the children of [P[A]] and [P[B, A]], for the tag of A. *)
Lemma reinsertion_no_create_witness :
  stages (calculateShadowViewMutations 0) (viewOf 1 0)
    (sliceChildShadowNodeViewPairs prependOld) (sliceChildShadowNodeViewPairs prependNew)
  = Done (mkAccumulators [CreateMutation (viewOf 11 0)] []
            [InsertMutation (viewOf 1 0) (viewOf 11 0) 0;
             InsertMutation (viewOf 1 0) (viewOf 10 0) 1]
            [RemoveMutation (viewOf 1 0) (viewOf 10 0) 0] [] [] [])
  /\ tag (viewOf 11 0) <> 10%Z.
Proof.
  assert (stages (calculateShadowViewMutations 0) (viewOf 1 0)
            (sliceChildShadowNodeViewPairs prependOld)
            (sliceChildShadowNodeViewPairs prependNew)
          = Done (mkAccumulators [CreateMutation (viewOf 11 0)] []
                    [InsertMutation (viewOf 1 0) (viewOf 11 0) 0;
                     InsertMutation (viewOf 1 0) (viewOf 10 0) 1]
                    [RemoveMutation (viewOf 1 0) (viewOf 10 0) 0] [] [] [])) as E
    by (vm_compute; reflexivity).
  split; [exact E|].
  apply (reinsertion_no_create 0 (viewOf 1 0) _ _ _ 10%Z (viewOf 11 0) E).
  - change (NoDup [11%Z; 10%Z]).
    apply NoDup_cons. split; [|apply NoDup_singleton].
    intros Hin. apply list_elem_of_singleton in Hin. discriminate.
  - change (10%Z ∈ [10%Z]). by left.
  - change (10%Z ∈ [11%Z; 10%Z]). right. by left.
  - simpl. by left.
Defined.

(** C5, amended, at P = 1, A = 10, B = 11. *)
Lemma prepend_one_child_witness :
  10%Z <> 11%Z /\ 10%Z <> 0%Z /\ 11%Z <> 0%Z
  /\ ShadowView_eqb (ShadowView_of prependOld) (ShadowView_of prependOld) = true
  /\ diffRoots emptyView prependOld prependNew
     = Done [RemoveMutation (viewOf 1 0) (viewOf 10 0) 0; CreateMutation (viewOf 11 0);
             InsertMutation (viewOf 1 0) (viewOf 11 0) 0;
             InsertMutation (viewOf 1 0) (viewOf 10 0) 1].
Proof.
  assert (10%Z <> 11%Z) as H1 by discriminate.
  assert (10%Z <> 0%Z) as H2 by discriminate.
  assert (11%Z <> 0%Z) as H3 by discriminate.
  assert (ShadowView_eqb (ShadowView_of prependOld) (ShadowView_of prependOld) = true)
    as H4 by (vm_compute; reflexivity).
  split; [exact H1|]. split; [exact H2|]. split; [exact H3|]. split; [exact H4|].
  exact (prepend_one_child (H := binary64) emptyView
           1 1 "View" 0 0 zeroMetrics 0 0 true
           10 1 "View" 0 0 zeroMetrics 0
           11 1 "View" 0 0 zeroMetrics 0 H1 H2 H3 H4).
Defined.

(** C6 at the tree [P[A]]. *)
Lemma diffRoots_identity_witness :
  ReflexiveOn prependOld /\ diffRoots emptyView prependOld prependOld = Done [].
Proof.
  assert (ReflexiveOn prependOld) as Hrefl.
  { split; [vm_compute; reflexivity|].
    rewrite (proj1 prepend_slices). constructor. intros pair Hin.
    apply list_elem_of_singleton in Hin as ->. split; [vm_compute; reflexivity|].
    constructor. intros inner Hinner. vm_compute in Hinner. inversion Hinner. }
  split; [exact Hrefl|].
  exact (diffRoots_identity emptyView prependOld Hrefl).
Defined.

(** Without reflexivity the identity fails: a root with a NaN coordinate
    differs from itself and is updated. *)
Lemma nan_breaks_identity :
  ShadowView_eqb (ShadowView_of nanTree) (ShadowView_of nanTree) = false
  /\ diffRoots emptyView nanTree nanTree
     = Done [UpdateMutation emptyView (ShadowView_of nanTree) (ShadowView_of nanTree) (-1)].
Proof. split; vm_compute; reflexivity. Qed.

(** C8 at the children of [P[B, A]], whose order indices are zero. *)
Lemma reorder_spec_witness :
  Forall (fun p => getOrderIndex (shadowNode p) = 0%Z)
    (sliceChildShadowNodeViewPairs prependNew)
  /\ reorderInPlaceIfNeeded (sliceChildShadowNodeViewPairs prependNew)
     = sliceChildShadowNodeViewPairs prependNew.
Proof.
  assert (Forall (fun p => getOrderIndex (shadowNode p) = 0%Z)
            (sliceChildShadowNodeViewPairs prependNew)) as Hzero.
  { rewrite (proj2 prepend_slices). repeat constructor. }
  split; [exact Hzero|].
  destruct (reorder_spec (sliceChildShadowNodeViewPairs prependNew))
    as (_ & _ & _ & _ & _ & Hsame).
  exact (Hsame Hzero).
Defined.


(** ** The own lists of a call, exactly *)

Section OwnExact.
Context `{FloatOps}.
Variable rec : Driver.
Implicit Types (acc : Accumulators) (m : TinyMap.t ShadowViewNodePair).

Lemma recurseInto_sameOwn intoDownward acc parent olds news acc' :
  recurseInto rec intoDownward acc parent olds news = Done acc' -> sameOwn acc acc'.
Proof.
  unfold recurseInto. destruct intoDownward; intros E;
    apply bind_Done in E as (ms & _ & E); injection E as <-; by repeat split.
Qed.

Lemma stage1_exact parent olds : forall news index acc last acc',
  stage1 rec parent olds news index acc = Done (last, acc') ->
  last = index + alignedCount olds news
  /\ createMutations acc' = createMutations acc
  /\ deleteMutations acc' = deleteMutations acc
  /\ insertMutations acc' = insertMutations acc
  /\ removeMutations acc' = removeMutations acc
  /\ updateMutations acc' = updateMutations acc ++ updatesOf parent index olds news.
Proof.
  induction olds as [|old oldRest IH]; intros news index acc last acc' E.
  - simpl in E. injection E as <- <-. simpl. by rewrite Nat.add_0_r, app_nil_r.
  - destruct news as [|new newRest].
    { simpl in E. injection E as <- <-. simpl. by rewrite Nat.add_0_r, app_nil_r. }
    simpl in E. simpl.
    destruct (Z.eqb_spec (tag (shadowView old)) (tag (shadowView new))) as [Htag|Htag];
      simpl in E; simpl.
    2:{ injection E as <- <-. by rewrite Nat.add_0_r, app_nil_r. }
    apply bind_Done in E as (acc1 & Hrec & E).
    apply recurseInto_sameOwn in Hrec as (Hc1 & Hd1 & Hi1 & Hr1 & Hu1).
    apply IH in E as (-> & Hc & Hd & Hi & Hr & Hu).
    rewrite Hc, Hd, Hi, Hr, Hu, Hc1, Hd1, Hi1, Hr1, Hu1.
    split; [lia|].
    destruct (ShadowView_eqb (shadowView old) (shadowView new)); simpl;
      rewrite <- ?app_assoc; done.
Qed.

Lemma stage3_exact parent olds : forall index acc m acc' m',
  stage3 rec parent olds index acc m = Done (acc', m') ->
  createMutations acc' = createMutations acc
  /\ insertMutations acc' = insertMutations acc
  /\ updateMutations acc' = updateMutations acc
  /\ removeMutations acc' = removeMutations acc ++ emitFrom (RemoveMutation parent) index olds
  /\ deleteMutations acc' = deleteMutations acc ++ deletesOf m olds
  /\ m' = eraseAll (tagsOf olds) m.
Proof.
  induction olds as [|old oldRest IH]; intros index acc m acc' m' E; simpl in E.
  - injection E as <- <-. simpl. by rewrite !app_nil_r.
  - simpl deletesOf.
    destruct (TinyMap.find (tag (shadowView old)) m) as [slot|] eqn:Hfind;
      [rewrite (eraseAll_found _ _ _ _ Hfind) | rewrite (eraseAll_missing _ _ _ Hfind)].
    + destruct (find_Some _ _ _ Hfind) as (found & Hslot & _). rewrite Hslot in E.
      apply bind_Done in E as (acc1 & Hrec & E).
      apply IH in E as (Hc & Hi & Hu & Hr & Hd & ->).
      assert (sameOwn
                (push_remove (RemoveMutation parent (shadowView old) (Z.of_nat index)) acc)
                acc1) as (Hc1 & Hd1 & Hi1 & Hr1 & Hu1).
      { destruct (negb _); [by eapply recurseInto_sameOwn|].
        injection Hrec as <-. by repeat split. }
      simpl in *. rewrite Hc, Hi, Hu, Hr, Hd, Hc1, Hd1, Hi1, Hr1, Hu1, <- app_assoc. done.
    + apply bind_Done in E as (acc1 & Hrec & E).
      apply IH in E as (Hc & Hi & Hu & Hr & Hd & ->).
      apply recurseInto_sameOwn in Hrec as (Hc1 & Hd1 & Hi1 & Hr1 & Hu1).
      simpl in *. rewrite Hc, Hi, Hu, Hr, Hd, Hc1, Hd1, Hi1, Hr1, Hu1, <- !app_assoc. done.
Qed.

Lemma stage4_exact m news : forall acc acc',
  stage4 rec news acc m = Done acc' ->
  deleteMutations acc' = deleteMutations acc
  /\ insertMutations acc' = insertMutations acc
  /\ removeMutations acc' = removeMutations acc
  /\ updateMutations acc' = updateMutations acc
  /\ createMutations acc' = createMutations acc ++ createsOf m news.
Proof.
  unfold createsOf.
  induction news as [|new newRest IH]; intros acc acc' E; simpl in E.
  - injection E as <-. by rewrite app_nil_r.
  - rewrite filter_cons.
    destruct (TinyMap.find (tag (shadowView new)) m) as [slot|] eqn:Hfind.
    + apply bind_Done in E as (acc1 & Hrec & E).
      apply IH in E as (Hd & Hi & Hr & Hu & Hc).
      apply recurseInto_sameOwn in Hrec as (Hc1 & Hd1 & Hi1 & Hr1 & Hu1).
      destruct (decide _) as [_|Hno]; [|by destruct Hno].
      simpl in *. rewrite Hd, Hi, Hr, Hu, Hc, Hc1, Hd1, Hi1, Hr1, Hu1, <- !app_assoc. done.
    + destruct (decide _) as [Hyes|_]; [by destruct Hyes|].
      by apply IH in E.
Qed.

Lemma stages_exact parent olds news acc :
  stages rec parent olds news = Done acc -> ownExact parent olds news acc.
Proof.
  intros E. unfold stages in E.
  apply bind_Done in E as ([last acc1] & H1 & E). simpl in E.
  apply bind_Done in E as ([acc2 m2] & H2 & E). simpl in E.
  apply bind_Done in E as ([acc3 m3] & H3 & E). simpl in E.
  apply stage1_exact in H1 as (-> & Hc1 & Hd1 & Hi1 & Hr1 & Hu1). simpl in *.
  apply stage2_ok in H2 as (-> & -> & Hnz). simpl in *.
  apply stage3_exact in H3 as (Hc3 & Hi3 & Hu3 & Hr3 & Hd3 & ->).
  apply stage4_exact in E as (Hd4 & Hi4 & Hr4 & Hu4 & Hc4).
  simpl in *. unfold ownExact. simpl.
  rewrite Hc4, Hc3, Hc1, Hd4, Hd3, Hd1, Hi4, Hi3, Hi1, Hr4, Hr3, Hr1, Hu4, Hu3, Hu1.
  simpl. done.
Qed.
End OwnExact.

Section AlignedFacts.
Context `{FloatOps}.
Implicit Types (olds news : list ShadowViewNodePair).

Lemma alignedCount_le olds : forall news,
  alignedCount olds news <= length olds /\ alignedCount olds news <= length news.
Proof.
  induction olds as [|old oldRest IH]; intros [|new newRest]; simpl; try lia.
  destruct (_ =? _)%Z; simpl; [|lia]. specialize (IH newRest). lia.
Qed.

Lemma alignedCount_tags olds : forall news,
  take (alignedCount olds news) (tagsOf olds) = take (alignedCount olds news) (tagsOf news).
Proof.
  induction olds as [|old oldRest IH]; intros [|new newRest]; simpl; try done.
  destruct (Z.eqb_spec (tag (shadowView old)) (tag (shadowView new))) as [Htag|]; [|done].
  simpl. rewrite Htag. f_equal. apply IH.
Qed.

(** Stage 1 stops at a mismatch of tags or at the end of a list. *)
Lemma alignedCount_stop olds news :
  match olds !! alignedCount olds news, news !! alignedCount olds news with
  | Some old, Some new => tag (shadowView old) <> tag (shadowView new)
  | _, _ => True
  end.
Proof.
  revert news. induction olds as [|old oldRest IH]; intros [|new newRest]; simpl; try done.
  destruct (Z.eqb_spec (tag (shadowView old)) (tag (shadowView new))) as [Htag|Htag].
  - apply IH.
  - simpl. exact Htag.
Qed.

Lemma elem_of_updatesOf parent olds : forall news index mutation,
  mutation ∈ updatesOf parent index olds news <->
  exists k old new,
    k < alignedCount olds news
    /\ olds !! k = Some old /\ news !! k = Some new
    /\ ShadowView_eqb (shadowView old) (shadowView new) = false
    /\ mutation
       = UpdateMutation parent (shadowView old) (shadowView new) (Z.of_nat (index + k)).
Proof.
  induction olds as [|old oldRest IH]; intros [|new newRest] index mutation; simpl;
    try (split; [intros Hin; by apply elem_of_nil in Hin | intros (k & ? & ? & ? & _); lia]).
  destruct (Z.eqb_spec (tag (shadowView old)) (tag (shadowView new))) as [Htag|Htag]; simpl.
  2:{ split; [intros Hin; by apply elem_of_nil in Hin | intros (k & ? & ? & ? & _); lia]. }
  rewrite elem_of_app, IH. split.
  - intros [Hin|(k & o & n & Hk & Ho & Hn & Hne & ->)].
    + destruct (ShadowView_eqb (shadowView old) (shadowView new)) eqn:Heq; simpl in Hin;
        [by apply elem_of_nil in Hin|].
      apply list_elem_of_singleton in Hin as ->.
      exists 0, old, new. rewrite Nat.add_0_r. repeat split; [lia | exact Heq].
    + exists (S k), o, n. repeat split; try done; [lia|]. do 2 f_equal. lia.
  - intros (k & o & n & Hk & Ho & Hn & Hne & ->). destruct k as [|k]; simpl in Ho, Hn.
    + injection Ho as <-. injection Hn as <-. left. rewrite Hne. simpl.
      rewrite Nat.add_0_r. by left.
    + right. exists k, o, n. repeat split; try done; [lia|]. do 2 f_equal. lia.
Qed.
End AlignedFacts.

(** ** What one call does to its sibling list *)

Section Siblings.
Context `{FloatOps}.
Implicit Types (olds news : list ShadowViewNodePair) (m : TinyMap.t ShadowViewNodePair).

Lemma replaySiblings_app first : forall children second,
  replaySiblings children (first ++ second)
  = match replaySiblings children first with
    | Some children' => replaySiblings children' second
    | None => None
    end.
Proof.
  induction first as [|mutation rest IH]; intros children second; simpl; [done|].
  destruct (replaySibling children mutation); [apply IH | done].
Qed.

Lemma replay_removes parent tail : forall prefix : list Z,
  replaySiblings (prefix ++ tagsOf tail)
    (reverse (emitFrom (RemoveMutation parent) (length prefix) tail))
  = Some prefix.
Proof.
  induction tail as [|old rest IH]; intros prefix; simpl.
  - by rewrite app_nil_r.
  - rewrite reverse_cons, replaySiblings_app.
    specialize (IH (prefix ++ [tag (shadowView old)])).
    rewrite length_app, Nat.add_1_r, <- app_assoc in IH. simpl in IH.
    unfold tagsOf in IH |- *. rewrite IH. simpl. unfold detach.
    destruct (Z.leb_spec 0 (Z.of_nat (length prefix))) as [_|]; [|lia].
    rewrite Nat2Z.id, lookup_app_r, Nat.sub_diag by lia. simpl.
    rewrite Z.eqb_refl. f_equal.
    rewrite delete_middle. by rewrite app_nil_r.
Qed.

Lemma replay_inserts parent tail : forall prefix : list Z,
  replaySiblings prefix (emitFrom (InsertMutation parent) (length prefix) tail)
  = Some (prefix ++ tagsOf tail).
Proof.
  induction tail as [|new rest IH]; intros prefix; simpl.
  - by rewrite app_nil_r.
  - unfold attach.
    destruct (Z.leb_spec 0 (Z.of_nat (length prefix))) as [_|]; [|lia].
    destruct (Z.leb_spec (Z.of_nat (length prefix)) (Z.of_nat (length prefix))) as [_|];
      [|lia].
    simpl. rewrite Nat2Z.id, take_ge, drop_ge by lia.
    specialize (IH (prefix ++ [tag (shadowView new)])).
    rewrite length_app, Nat.add_1_r, <- app_assoc in IH. exact IH.
Qed.

Lemma tagsOf_drop n pairs : tagsOf (drop n pairs) = drop n (tagsOf pairs).
Proof. unfold tagsOf. by rewrite fmap_drop. Qed.

Lemma tagsOf_length pairs : length (tagsOf pairs) = length pairs.
Proof. unfold tagsOf. by rewrite length_fmap. Qed.

Lemma tagsOf_reorder pairs : tagsOf (reorderInPlaceIfNeeded pairs) ≡ₚ tagsOf pairs.
Proof. unfold tagsOf. by rewrite reorder_perm. Qed.

Lemma tagsOf_lookup pairs i pair :
  pairs !! i = Some pair -> tagsOf pairs !! i = Some (tag (shadowView pair)).
Proof. intros E. unfold tagsOf. by rewrite list_lookup_fmap, E. Qed.

Lemma alignedCount_lt olds : forall news k,
  k < alignedCount olds news <->
  k < length olds /\ k < length news
  /\ take (S k) (tagsOf olds) = take (S k) (tagsOf news).
Proof.
  induction olds as [|old oldRest IH]; intros [|new newRest] k; simpl;
    try (split; [lia | intros (? & ? & _); lia]).
  destruct (Z.eqb_spec (tag (shadowView old)) (tag (shadowView new))) as [Htag|Htag].
  - destruct k as [|k].
    + split; [intros _|lia]. repeat split; try lia. by rewrite Htag.
    + rewrite <- Nat.succ_lt_mono, IH. split.
      * intros (? & ? & Ht). repeat split; try lia. by rewrite Htag, Ht.
      * intros (? & ? & Ht). repeat split; try lia. by injection Ht.
  - split; [lia|]. intros (_ & _ & Ht). injection Ht as Ht _. done.
Qed.

Lemma elem_of_deletesOf olds : forall m mutation,
  mutation ∈ deletesOf m olds <->
  exists i old,
    olds !! i = Some old
    /\ mutation = DeleteMutation (shadowView old)
    /\ TinyMap.find (tag (shadowView old)) (eraseAll (tagsOf (take i olds)) m) = None.
Proof.
  induction olds as [|old rest IH]; intros m mutation.
  - split; [intros Hin; by apply elem_of_nil in Hin | by intros (i & o & Hl & _)].
  - assert (forall i, eraseAll (tagsOf (take (S i) (old :: rest))) m
                      = eraseAll (tagsOf (take i rest)) (eraseFound m (tag (shadowView old))))
      as Hstep by reflexivity.
    simpl deletesOf. unfold eraseFound in Hstep.
    destruct (TinyMap.find (tag (shadowView old)) m) as [slot|] eqn:Hfind.
    + rewrite IH. split.
      * intros (i & o & Hl & -> & Hf). exists (S i), o. by rewrite Hstep.
      * intros (i & o & Hl & -> & Hf). destruct i as [|i].
        { injection Hl as <-. change (TinyMap.find (tag (shadowView old)) m = None) in Hf.
          congruence. }
        exists i, o. by rewrite Hstep in Hf.
    + rewrite elem_of_cons, IH. split.
      * intros [->|(i & o & Hl & -> & Hf)].
        { exists 0, old. by repeat split. }
        exists (S i), o. by rewrite Hstep.
      * intros (i & o & Hl & -> & Hf). destruct i as [|i].
        { injection Hl as <-. by left. }
        right. exists i, o. by rewrite Hstep in Hf.
Qed.

(** A pair of a sibling list whose tag the other list does not have lies
    behind the aligned prefix. *)
Lemma behind_aligned (pairs others : list ShadowViewNodePair) last pair :
  take last (tagsOf pairs) = take last (tagsOf others) ->
  pair ∈ pairs -> tag (shadowView pair) ∉ tagsOf others ->
  pair ∈ drop last pairs.
Proof.
  intros Hprefix Hin Hnot.
  rewrite <- (take_drop last pairs) in Hin. apply elem_of_app in Hin as [Hin|Hin]; [|done].
  exfalso. apply Hnot.
  assert (tag (shadowView pair) ∈ take last (tagsOf pairs)) as Ht.
  { unfold tagsOf. rewrite <- fmap_take. apply list_elem_of_fmap. by exists pair. }
  rewrite Hprefix in Ht. by apply subseteq_take in Ht.
Qed.
End Siblings.

Section PerCall.
Context `{FloatOps}.
Variable rec : Driver.

(** X1: whatever the nested calls do, the [Remove] mutations of a call,
    taken from the highest index down as the flush has them, followed by
    its [Insert] mutations turn the tags of the old sibling list, in the
    order the call processes it, into the tags of the new sibling list:
    every remove finds its view at its index and every insert lands at its
    index. *)
Theorem removes_then_inserts_rebuild_siblings parent olds news acc :
  stages rec parent olds news = Done acc ->
  replaySiblings (tagsOf (reorderInPlaceIfNeeded olds))
    (reverse (removeMutations acc) ++ insertMutations acc)
  = Some (tagsOf (reorderInPlaceIfNeeded news)).
Proof.
  intros E. apply stages_exact in E as (_ & Hins & Hrem & _).
  set (olds' := reorderInPlaceIfNeeded olds) in *.
  set (news' := reorderInPlaceIfNeeded news) in *.
  set (last := alignedCount olds' news') in *.
  pose proof (alignedCount_le olds' news') as [Hlo Hln]. fold last in Hlo, Hln.
  pose proof (alignedCount_tags olds' news') as Hprefix. fold last in Hprefix.
  assert (length (take last (tagsOf olds')) = last) as Hlen
    by (rewrite length_take, tagsOf_length; lia).
  pose proof (replay_removes parent (drop last olds') (take last (tagsOf olds'))) as Hr.
  pose proof (replay_inserts parent (drop last news') (take last (tagsOf olds'))) as Hi.
  rewrite Hlen, tagsOf_drop, take_drop in Hr.
  rewrite Hlen, Hprefix, tagsOf_drop, take_drop in Hi.
  rewrite replaySiblings_app, Hrem, Hins, Hr, Hprefix. exact Hi.
Qed.

(** X2: an old sibling with a non-zero tag that no new sibling has is
    deleted by the call; when the tags of the old siblings are distinct
    these are the only old siblings the call deletes. *)
Theorem delete_iff_tag_gone parent olds news acc old :
  stages rec parent olds news = Done acc ->
  old ∈ olds -> tag (shadowView old) <> 0%Z ->
  (tag (shadowView old) ∉ tagsOf news ->
   DeleteMutation (shadowView old) ∈ deleteMutations acc)
  /\ (NoDup (tagsOf olds) ->
      DeleteMutation (shadowView old) ∈ deleteMutations acc ->
      tag (shadowView old) ∉ tagsOf news).
Proof.
  intros E Hold Hnz. apply stages_exact in E as (_ & _ & _ & Hdel & _).
  set (olds' := reorderInPlaceIfNeeded olds) in *.
  set (news' := reorderInPlaceIfNeeded news) in *.
  set (last := alignedCount olds' news') in *.
  pose proof (alignedCount_tags olds' news') as Hprefix. fold last in Hprefix.
  assert (tagsOf olds' ≡ₚ tagsOf olds) as Hpo by apply tagsOf_reorder.
  assert (tagsOf news' ≡ₚ tagsOf news) as Hpn by apply tagsOf_reorder.
  rewrite Hdel, !elem_of_deletesOf. split.
  - intros Hgone.
    assert (old ∈ drop last olds') as Hin.
    { apply (behind_aligned olds' news'); [done | by apply elem_of_reorder|].
      by rewrite Hpn. }
    apply list_elem_of_lookup in Hin as [i Hi]. exists i, old. repeat split; [done|].
    apply find_None. intros Hkey. apply key_survives_all in Hkey; [|done].
    rewrite entriesOf_keys, tagsOf_drop in Hkey. apply subseteq_drop in Hkey.
    by rewrite Hpn in Hkey.
  - intros Hnd (i & old' & Hi & [= Hview] & Hfind) Hkept.
    rewrite <- Hpo in Hnd. rewrite <- Hpn in Hkept.
    rewrite Hview in Hkept. set (t := tag (shadowView old')) in *.
    assert (tagsOf olds' !! (last + i) = Some t) as Hat.
    { rewrite <- lookup_drop, <- tagsOf_drop. by apply tagsOf_lookup. }
    rewrite <- (take_drop last (tagsOf news')) in Hkept.
    apply elem_of_app in Hkept as [Hkept|Hkept].
    + rewrite <- Hprefix in Hkept. apply list_elem_of_lookup in Hkept as [j Hj].
      pose proof (lookup_lt_Some _ _ _ Hj) as Hlt. rewrite length_take in Hlt.
      rewrite lookup_take_lt in Hj by lia.
      pose proof (NoDup_lookup _ _ _ _ Hnd Hj Hat). lia.
    + apply find_None in Hfind. rewrite <- tagsOf_drop, <- entriesOf_keys in Hkept.
      apply (key_erased_all _ _ _ Hkept) in Hfind.
      unfold tagsOf in Hfind. rewrite fmap_take in Hfind.
      apply list_elem_of_lookup in Hfind as [j Hj].
      pose proof (lookup_lt_Some _ _ _ Hj) as Hlt. rewrite length_take in Hlt.
      rewrite lookup_take_lt in Hj by lia.
      change ((tagsOf (drop last olds')) !! j = Some t) in Hj.
      rewrite tagsOf_drop, lookup_drop in Hj.
      pose proof (NoDup_lookup _ _ _ _ Hnd Hj Hat). lia.
Qed.

(** X3: a new sibling whose tag no old sibling has is created by the
    call. *)
Theorem create_for_fresh_tag parent olds news acc new :
  stages rec parent olds news = Done acc ->
  new ∈ news -> tag (shadowView new) ∉ tagsOf olds ->
  CreateMutation (shadowView new) ∈ createMutations acc.
Proof.
  intros E Hnew Hfresh. apply stages_exact in E as (_ & _ & _ & _ & Hcre & _).
  set (olds' := reorderInPlaceIfNeeded olds) in *.
  set (news' := reorderInPlaceIfNeeded news) in *.
  set (last := alignedCount olds' news') in *.
  pose proof (alignedCount_tags olds' news') as Hprefix. fold last in Hprefix.
  assert (tagsOf olds' ≡ₚ tagsOf olds) as Hpo by apply tagsOf_reorder.
  assert (tagsOf news' ≡ₚ tagsOf news) as Hpn by apply tagsOf_reorder.
  assert (new ∈ drop last news') as Hin.
  { apply (behind_aligned news' olds'); [done | by apply elem_of_reorder|].
    by rewrite Hpo. }
  rewrite Hcre. apply elem_of_createsOf. exists new. repeat split; [done|].
  rewrite find_None. intros Hgone. apply key_erased_all in Hgone.
  - rewrite tagsOf_drop in Hgone. apply subseteq_drop in Hgone.
    by rewrite Hpo in Hgone.
  - rewrite entriesOf_keys. apply list_elem_of_fmap. by exists new.
Qed.

(** X4: the [Update] mutations of a call are exactly those for the
    positions of the aligned prefix, where the two lists have the same tags
    up to and including the position, at which the old and the new view
    differ; the index of the mutation is the position. *)
Theorem update_iff_aligned_and_changed parent olds news acc mutation :
  stages rec parent olds news = Done acc ->
  mutation ∈ updateMutations acc <->
  exists k old new,
    reorderInPlaceIfNeeded olds !! k = Some old
    /\ reorderInPlaceIfNeeded news !! k = Some new
    /\ take (S k) (tagsOf (reorderInPlaceIfNeeded olds))
       = take (S k) (tagsOf (reorderInPlaceIfNeeded news))
    /\ ShadowView_eqb (shadowView old) (shadowView new) = false
    /\ mutation = UpdateMutation parent (shadowView old) (shadowView new) (Z.of_nat k).
Proof.
  intros E. apply stages_exact in E as (Hupd & _).
  rewrite Hupd, elem_of_updatesOf. split.
  - intros (k & old & new & Hk & Ho & Hn & Hne & ->). exists k, old, new.
    apply alignedCount_lt in Hk as (_ & _ & Ht). done.
  - intros (k & old & new & Ho & Hn & Ht & Hne & ->). exists k, old, new.
    split; [|done]. apply alignedCount_lt. repeat split; [| |done].
    + by eapply lookup_lt_Some.
    + by eapply lookup_lt_Some.
Qed.
End PerCall.

(** ** Invariants of the whole recursion, with conditions on both lists *)

Section TwoSided.
Context `{FloatOps}.
Variable rec : Driver.
Variables PreO PreN : ShadowViewNodePair -> Prop.
Variable PrePar : ShadowView -> Prop.
Variable Q : list ShadowViewMutation -> Prop.
Hypothesis Q_nil : Q [].
Hypothesis Q_app : forall a b, Q a -> Q b -> Q (a ++ b).
Hypothesis PreO_slice :
  forall pair, PreO pair -> Forall PreO (sliceChildShadowNodeViewPairs (shadowNode pair)).
Hypothesis PreN_slice :
  forall pair, PreN pair -> Forall PreN (sliceChildShadowNodeViewPairs (shadowNode pair)).
Hypothesis PreO_parent : forall pair, PreO pair -> PrePar (shadowView pair).
Hypothesis PreN_parent : forall pair, PreN pair -> PrePar (shadowView pair).
Hypothesis rec_ok :
  forall muts parent olds news out,
    PrePar parent -> Forall PreO olds -> Forall PreN news ->
    rec muts parent olds news = Done out ->
    exists added, out = muts ++ added /\ Q added.

Implicit Types (acc : Accumulators) (m : TinyMap.t ShadowViewNodePair).

Lemma recurseInto_down intoDownward acc parent olds news acc' :
  PrePar parent -> Forall PreO olds -> Forall PreN news ->
  recurseInto rec intoDownward acc parent olds news = Done acc' ->
  extendsDown Q acc acc'.
Proof.
  intros Hpar Ho Hn. unfold recurseInto. destruct intoDownward; intros E;
    apply bind_Done in E as (ms & Hrec & E); injection E as <-;
    apply rec_ok in Hrec as (added & -> & HQ); try done.
  - exists added, []. simpl. by rewrite app_nil_r.
  - exists [], added. simpl. by rewrite app_nil_r.
Qed.

Lemma stage1_down parent olds : forall news index acc last acc',
  Forall PreO olds -> Forall PreN news ->
  stage1 rec parent olds news index acc = Done (last, acc') ->
  extendsDown Q acc acc'.
Proof.
  induction olds as [|old oldRest IH]; intros news index acc last acc' Ho Hn E.
  - simpl in E. injection E as <- <-. by apply extendsDown_refl.
  - destruct news as [|new newRest].
    { simpl in E. injection E as <- <-. by apply extendsDown_refl. }
    simpl in E. apply Forall_cons in Ho as [Hold Ho]. apply Forall_cons in Hn as [Hnew Hn].
    destruct (negb (tag (shadowView old) =? tag (shadowView new))%Z).
    { injection E as <- <-. by apply extendsDown_refl. }
    apply bind_Done in E as (acc1 & Hrec & E).
    apply recurseInto_down in Hrec; [|by apply PreO_parent|by apply PreO_slice
                                     |by apply PreN_slice].
    apply IH in E; [|done|done].
    eapply extendsDown_trans; [exact Q_app| |exact E].
    eapply extendsDown_same; [| |exact Hrec];
      by destruct (negb (ShadowView_eqb _ _)).
Qed.

Lemma stage3_down parent olds : forall index acc m acc' m',
  Forall PreO olds ->
  (forall slot k v, m !! slot = Some (k, v) -> PreN v) ->
  stage3 rec parent olds index acc m = Done (acc', m') ->
  extendsDown Q acc acc'.
Proof.
  induction olds as [|old oldRest IH]; intros index acc m acc' m' Ho Hm E; simpl in E.
  - injection E as <- <-. by apply extendsDown_refl.
  - apply Forall_cons in Ho as [Hold Ho].
    destruct (TinyMap.find (tag (shadowView old)) m) as [slot|] eqn:Hfind.
    + destruct (m !! slot) as [[k newChildPair]|] eqn:Hslot; [|discriminate].
      apply bind_Done in E as (acc1 & Hrec & E).
      apply IH in E; [|done|].
      2:{ intros j k' v Hj. rewrite erase_lookup in Hj.
          destruct (decide (slot = j)) as [->|_]; [|by eapply Hm].
          rewrite Hslot in Hj. simpl in Hj. injection Hj as _ <-. by eapply Hm. }
      eapply extendsDown_trans; [exact Q_app| |exact E].
      destruct (negb (ShadowViewNodePair_eqb newChildPair old)).
      * apply recurseInto_down in Hrec;
          [|apply PreN_parent; by eapply Hm
           |by apply PreO_slice
           |apply PreN_slice; by eapply Hm].
        eapply extendsDown_same; [| |exact Hrec]; done.
      * injection Hrec as <-. exists [], []. simpl. by rewrite !app_nil_r.
    + apply bind_Done in E as (acc1 & Hrec & E).
      apply IH in E; [|done|done].
      eapply extendsDown_trans; [exact Q_app| |exact E].
      apply recurseInto_down in Hrec; [|by apply PreO_parent|by apply PreO_slice|done].
      eapply extendsDown_same; [| |exact Hrec]; done.
Qed.

Lemma stage4_down m news : forall acc acc',
  Forall PreN news ->
  stage4 rec news acc m = Done acc' ->
  extendsDown Q acc acc'.
Proof.
  induction news as [|new newRest IH]; intros acc acc' Hn E; simpl in E.
  - injection E as <-. by apply extendsDown_refl.
  - apply Forall_cons in Hn as [Hnew Hn].
    destruct (TinyMap.find (tag (shadowView new)) m) as [slot|]; [|by apply IH in E].
    apply bind_Done in E as (acc1 & Hrec & E).
    apply IH in E; [|done].
    eapply extendsDown_trans; [exact Q_app| |exact E].
    apply recurseInto_down in Hrec; [|by apply PreN_parent|done|by apply PreN_slice].
    eapply extendsDown_same; [| |exact Hrec]; done.
Qed.

Lemma stages_down parent olds news acc :
  Forall PreO olds -> Forall PreN news ->
  stages rec parent olds news = Done acc ->
  Q (downwardMutations acc) /\ Q (destructiveDownwardMutations acc).
Proof.
  intros Ho Hn E. unfold stages in E.
  assert (Forall PreO (reorderInPlaceIfNeeded olds)) as Ho' by (by rewrite reorder_perm).
  assert (Forall PreN (reorderInPlaceIfNeeded news)) as Hn' by (by rewrite reorder_perm).
  apply bind_Done in E as ([last acc1] & H1 & E). simpl in E.
  apply bind_Done in E as ([acc2 m2] & H2 & E). simpl in E.
  apply bind_Done in E as ([acc3 m3] & H3 & E). simpl in E.
  apply stage1_down in H1; [|done|done].
  apply stage2_ok in H2 as (-> & -> & _).
  apply stage3_down in H3; [|by apply Forall_drop|].
  2:{ intros slot k v Hl. simpl in Hl. unfold entriesOf in Hl.
      rewrite list_lookup_fmap in Hl.
      destruct (drop last (reorderInPlaceIfNeeded news) !! slot) as [pair|] eqn:Hp;
        [|discriminate].
      simpl in Hl. injection Hl as _ <-.
      apply list_elem_of_lookup_2, subseteq_drop in Hp.
      rewrite Forall_forall in Hn'. by apply Hn'. }
  apply stage4_down in E; [|by apply Forall_drop].
  pose proof (extendsDown_trans Q Q_app _ _ _ H1
    (extendsDown_trans Q Q_app _ _ _
       (extendsDown_same Q acc1 _ _ eq_refl eq_refl H3) E))
    as (d & e & -> & -> & Qd & Qe).
  done.
Qed.
End TwoSided.

Section TwoSidedDriver.
Context `{FloatOps}.
Variables PreO PreN : ShadowViewNodePair -> Prop.
Variable PrePar : ShadowView -> Prop.
Variable Q : list ShadowViewMutation -> Prop.
Hypothesis Q_nil : Q [].
Hypothesis Q_app : forall a b, Q a -> Q b -> Q (a ++ b).
Hypothesis PreO_slice :
  forall pair, PreO pair -> Forall PreO (sliceChildShadowNodeViewPairs (shadowNode pair)).
Hypothesis PreN_slice :
  forall pair, PreN pair -> Forall PreN (sliceChildShadowNodeViewPairs (shadowNode pair)).
Hypothesis PreO_parent : forall pair, PreO pair -> PrePar (shadowView pair).
Hypothesis PreN_parent : forall pair, PreN pair -> PrePar (shadowView pair).
Hypothesis Q_flush :
  forall parent olds news acc,
    PrePar parent -> Forall PreO olds -> Forall PreN news ->
    ownExact parent olds news acc ->
    Q (downwardMutations acc) -> Q (destructiveDownwardMutations acc) ->
    Q (flushed acc).

Lemma driver_both fuel : forall mutations parent olds news out,
  PrePar parent -> Forall PreO olds -> Forall PreN news ->
  calculateShadowViewMutations fuel mutations parent olds news = Done out ->
  exists added, out = mutations ++ added /\ Q added.
Proof.
  induction fuel as [|fuel IH]; intros mutations parent olds news out Hpar Ho Hn E;
    apply driver_Done in E as [(-> & -> & ->)|(fuel' & acc & Hf & Hs & ->)];
    try (exists []; by rewrite app_nil_r); try discriminate.
  injection Hf as <-. exists (flushed acc). split; [reflexivity|].
  pose proof (stages_down _ PreO PreN PrePar Q Q_nil Q_app PreO_slice PreN_slice
                PreO_parent PreN_parent IH _ _ _ _ Ho Hn Hs) as [Qd Qe].
  apply (Q_flush parent olds news); try done. by eapply stages_exact.
Qed.
End TwoSidedDriver.

(** ** Scanning a list with the mutations seen so far *)

Section Scanned.
Context `{FloatOps}.
Variable ok : list ShadowViewMutation -> ShadowViewMutation -> Prop.
Hypothesis ok_mono : forall seen seen' mutation,
  seen ⊆ seen' -> ok seen mutation -> ok seen' mutation.

Lemma scanned_app first : forall seen second,
  scanned ok seen (first ++ second)
  <-> scanned ok seen first /\ scanned ok (reverse first ++ seen) second.
Proof.
  induction first as [|mutation rest IH]; intros seen second; simpl.
  - tauto.
  - rewrite IH, reverse_cons, <- app_assoc. simpl. tauto.
Qed.

Lemma scanned_each mutations : forall seen,
  Forall (ok seen) mutations -> scanned ok seen mutations.
Proof.
  induction mutations as [|mutation rest IH]; intros seen Hall; simpl; [done|].
  apply Forall_cons in Hall as [Hm Hall]. split; [done|]. apply IH.
  eapply Forall_impl; [exact Hall|]. intros m. apply ok_mono.
  intros x Hx. apply elem_of_cons. by right.
Qed.

Lemma scanned_split l1 : forall seen mutation l2,
  scanned ok seen (l1 ++ mutation :: l2) -> ok (reverse l1 ++ seen) mutation.
Proof.
  intros seen mutation l2 Hs. apply scanned_app in Hs as [_ Hs]. simpl in Hs. tauto.
Qed.
End Scanned.

Section ExactFacts.
Context `{FloatOps}.

Lemma elem_of_emitFrom make pairs : forall index mutation,
  mutation ∈ emitFrom make index pairs <->
  exists i pair, pairs !! i = Some pair
    /\ mutation = make (shadowView pair) (Z.of_nat (index + i)).
Proof.
  induction pairs as [|first rest IH]; intros index mutation; simpl.
  - split; [intros Hin; by apply elem_of_nil in Hin | by intros (i & p & Hl & _)].
  - rewrite elem_of_cons, IH. split.
    + intros [->|(i & p & Hl & ->)].
      * exists 0, first. by rewrite Nat.add_0_r.
      * exists (S i), p. split; [done|]. do 2 f_equal. lia.
    + intros (i & p & Hl & ->). destruct i as [|i]; simpl in Hl.
      * injection Hl as <-. left. by rewrite Nat.add_0_r.
      * right. exists i, p. split; [done|]. do 2 f_equal. lia.
Qed.

Lemma emitFrom_covers make pairs index pair :
  pair ∈ pairs -> exists i, make (shadowView pair) i ∈ emitFrom make index pairs.
Proof.
  intros Hin. apply list_elem_of_lookup in Hin as [i Hi].
  exists (Z.of_nat (index + i)). apply elem_of_emitFrom. by exists i, pair.
Qed.

Lemma elem_of_creates m pairs mutation :
  mutation ∈ createsOf m pairs ->
  exists pair, pair ∈ pairs /\ mutation = CreateMutation (shadowView pair).
Proof.
  unfold createsOf. rewrite list_elem_of_fmap. intros (pair & -> & Hin).
  apply list_elem_of_filter in Hin as [_ Hin]. by exists pair.
Qed.

Lemma elem_of_deletes m olds mutation :
  mutation ∈ deletesOf m olds ->
  exists old, old ∈ olds /\ mutation = DeleteMutation (shadowView old).
Proof.
  rewrite elem_of_deletesOf. intros (i & old & Hl & -> & _). exists old.
  split; [by eapply list_elem_of_lookup_2 | done].
Qed.

Lemma reordered_tail last pairs pair :
  pair ∈ drop last (reorderInPlaceIfNeeded pairs) -> pair ∈ pairs.
Proof. intros Hin. apply subseteq_drop in Hin. by rewrite elem_of_reorder in Hin. Qed.

(** Every mutation of the five own lists of a call is one the call can
    emit for its arguments. *)
Lemma ownExact_Emitted parent olds news acc :
  ownExact parent olds news acc ->
  Forall (Emitted parent olds news)
    (updateMutations acc ++ removeMutations acc ++ deleteMutations acc
     ++ createMutations acc ++ insertMutations acc).
Proof.
  intros (Hupd & Hins & Hrem & Hdel & Hcre & _).
  rewrite Hupd, Hins, Hrem, Hdel, Hcre. rewrite !Forall_app. repeat split;
    apply Forall_forall; intros mutation Hin.
  - apply elem_of_updatesOf in Hin as (k & old & new & Hk & Ho & Hn & Hne & ->).
    apply alignedCount_lt in Hk as (_ & _ & Ht).
    constructor; [|  | |done|lia].
    + rewrite <- elem_of_reorder. by eapply list_elem_of_lookup_2.
    + rewrite <- elem_of_reorder. by eapply list_elem_of_lookup_2.
    + assert (tagsOf (reorderInPlaceIfNeeded olds) !! k
              = tagsOf (reorderInPlaceIfNeeded news) !! k) as Hk.
      { rewrite <- (lookup_take_lt _ (S k) k), Ht, lookup_take_lt by lia. done. }
      rewrite (tagsOf_lookup _ _ _ Ho), (tagsOf_lookup _ _ _ Hn) in Hk. by injection Hk.
  - apply elem_of_emitFrom in Hin as (i & old & Hl & ->).
    constructor; [|lia]. eapply reordered_tail. by eapply list_elem_of_lookup_2.
  - apply elem_of_deletes in Hin as (old & Ho & ->).
    constructor. by eapply reordered_tail.
  - apply elem_of_creates in Hin as (new & Hn & ->).
    constructor. by eapply reordered_tail.
  - apply elem_of_emitFrom in Hin as (i & new & Hl & ->).
    constructor; [|lia]. eapply reordered_tail. by eapply list_elem_of_lookup_2.
Qed.

Lemma Forall_flushed (P : ShadowViewMutation -> Prop) acc :
  Forall P (downwardMutations acc) -> Forall P (destructiveDownwardMutations acc) ->
  Forall P (updateMutations acc ++ removeMutations acc ++ deleteMutations acc
            ++ createMutations acc ++ insertMutations acc) ->
  Forall P (flushed acc).
Proof.
  unfold flushed. rewrite !Forall_app, Forall_reverse. tauto.
Qed.

Variable emptyShadowView : ShadowView.

Lemma diffRoots_Done old new L :
  diffRoots emptyShadowView old new = Done L ->
  sameFamily old new = true
  /\ calculateShadowViewMutations (Nat.max (depth old) (depth new))
       (rootUpdate emptyShadowView old new) (ShadowView_of old)
       (sliceChildShadowNodeViewPairs old) (sliceChildShadowNodeViewPairs new)
     = Done L.
Proof.
  unfold diffRoots, rootUpdate. destruct (sameFamily old new); [|discriminate]. simpl.
  intros E. split; [done|]. exact E.
Qed.
End ExactFacts.

(** ** Invariants that every emitted mutation satisfies *)

Section Everywhere.
Context `{FloatOps}.
Variables PreO PreN : ShadowViewNodePair -> Prop.
Variable PrePar : ShadowView -> Prop.
Variable P : ShadowViewMutation -> Prop.
Hypothesis PreO_slice :
  forall pair, PreO pair -> Forall PreO (sliceChildShadowNodeViewPairs (shadowNode pair)).
Hypothesis PreN_slice :
  forall pair, PreN pair -> Forall PreN (sliceChildShadowNodeViewPairs (shadowNode pair)).
Hypothesis PreO_parent : forall pair, PreO pair -> PrePar (shadowView pair).
Hypothesis PreN_parent : forall pair, PreN pair -> PrePar (shadowView pair).
Hypothesis P_emitted :
  forall parent olds news mutation,
    PrePar parent -> Forall PreO olds -> Forall PreN news ->
    Emitted parent olds news mutation -> P mutation.

Lemma driver_everywhere fuel mutations parent olds news out :
  PrePar parent -> Forall PreO olds -> Forall PreN news ->
  calculateShadowViewMutations fuel mutations parent olds news = Done out ->
  exists added, out = mutations ++ added /\ Forall P added.
Proof.
  apply (driver_both PreO PreN PrePar (Forall P)); try done.
  - intros a b Ha Hb. by apply Forall_app.
  - intros p o n acc Hpar Ho Hn Hexact Hd He.
    apply Forall_flushed; [done|done|].
    eapply Forall_impl; [by apply ownExact_Emitted|].
    intros mutation. by apply P_emitted.
Qed.
End Everywhere.

(** ** The order of the stream, and the views it names *)

Section Global.
Context `{FloatOps}.
Variable emptyShadowView : ShadowView.

Lemma removedFirst_mono seen seen' mutation :
  seen ⊆ seen' -> removedFirst seen mutation -> removedFirst seen' mutation.
Proof.
  intros Hsub Hok view Hm. destruct (Hok view Hm) as (parent & index & Hin).
  exists parent, index. by apply Hsub.
Qed.

Lemma insertedLater_mono seen seen' mutation :
  seen ⊆ seen' -> insertedLater seen mutation -> insertedLater seen' mutation.
Proof.
  intros Hsub Hok view Hm. destruct (Hok view Hm) as (parent & index & Hin).
  exists parent, index. by apply Hsub.
Qed.

Lemma scanned_no_delete seen mutations :
  Forall (fun mutation => ~ isDelete mutation) mutations ->
  scanned removedFirst seen mutations.
Proof.
  intros Hall. apply scanned_each; [apply removedFirst_mono|].
  eapply Forall_impl; [exact Hall|]. intros mutation Hno view ->. by destruct Hno.
Qed.

Lemma scanned_no_create seen mutations :
  Forall (fun mutation => ~ isCreate mutation) mutations ->
  scanned insertedLater seen mutations.
Proof.
  intros Hall. apply scanned_each; [apply insertedLater_mono|].
  eapply Forall_impl; [exact Hall|]. intros mutation Hno view ->. by destruct Hno.
Qed.

Lemma driver_removes_first fuel mutations parent olds news out :
  calculateShadowViewMutations fuel mutations parent olds news = Done out ->
  exists added,
    out = mutations ++ added /\ forall seen, scanned removedFirst seen added.
Proof.
  apply (driver_both (fun _ => True) (fun _ => True) (fun _ => True)
           (fun ms => forall seen, scanned removedFirst seen ms)); try done.
  - intros a b Ha Hb seen. apply scanned_app. split; [apply Ha | apply Hb].
  - intros. by apply Forall_forall.
  - intros. by apply Forall_forall.
  - intros p o n acc _ _ _ (Hupd & Hins & Hrem & Hdel & Hcre & _) Hd He seen.
    unfold flushed.
    apply scanned_app. split; [apply He|].
    apply scanned_app. split.
    { apply scanned_no_delete. rewrite Hupd. apply Forall_forall. intros mutation Hin.
      apply elem_of_updatesOf in Hin as (? & ? & ? & _ & _ & _ & _ & ->). tauto. }
    apply scanned_app. split.
    { apply scanned_no_delete, Forall_reverse. rewrite Hrem.
      apply emitFrom_Forall. tauto. }
    apply scanned_app. split.
    { apply scanned_each; [apply removedFirst_mono|].
      apply Forall_forall. intros mutation Hin view ->.
      rewrite Hdel in Hin. apply elem_of_deletes in Hin as (old & Hold & [= ->]).
      destruct (emitFrom_covers (RemoveMutation p)
                  (drop (alignedCount (reorderInPlaceIfNeeded o) (reorderInPlaceIfNeeded n))
                     (reorderInPlaceIfNeeded o))
                  (alignedCount (reorderInPlaceIfNeeded o) (reorderInPlaceIfNeeded n))
                  old Hold) as [index Hin].
      exists p, index. rewrite reverse_involutive, Hrem. apply elem_of_app. by left. }
    apply scanned_app. split.
    { apply scanned_no_delete. rewrite Hcre.
      eapply Forall_impl; [apply createsOf_Forall|]. intros []; simpl; tauto. }
    apply scanned_app. split; [apply Hd|].
    apply scanned_no_delete. rewrite Hins. apply emitFrom_Forall. tauto.
  - by apply Forall_forall.
  - by apply Forall_forall.
Qed.

Lemma driver_inserts_later fuel mutations parent olds news out :
  calculateShadowViewMutations fuel mutations parent olds news = Done out ->
  exists added,
    out = mutations ++ added /\ forall seen, scanned insertedLater seen (reverse added).
Proof.
  apply (driver_both (fun _ => True) (fun _ => True) (fun _ => True)
           (fun ms => forall seen, scanned insertedLater seen (reverse ms))); try done.
  - intros a b Ha Hb seen. rewrite reverse_app. apply scanned_app.
    split; [apply Hb | apply Ha].
  - intros. by apply Forall_forall.
  - intros. by apply Forall_forall.
  - intros p o n acc _ _ _ (Hupd & Hins & Hrem & Hdel & Hcre & _) Hd He seen.
    unfold flushed. rewrite !reverse_app, <- !app_assoc.
    apply scanned_app. split.
    { apply scanned_no_create, Forall_reverse. rewrite Hins. apply emitFrom_Forall. tauto. }
    apply scanned_app. split; [apply Hd|].
    apply scanned_app. split.
    { apply scanned_each; [apply insertedLater_mono|].
      apply Forall_forall. intros mutation Hin view ->.
      rewrite elem_of_reverse, Hcre in Hin.
      apply elem_of_creates in Hin as (new & Hnew & [= ->]).
      destruct (emitFrom_covers (InsertMutation p)
                  (drop (alignedCount (reorderInPlaceIfNeeded o) (reorderInPlaceIfNeeded n))
                     (reorderInPlaceIfNeeded n))
                  (alignedCount (reorderInPlaceIfNeeded o) (reorderInPlaceIfNeeded n))
                  new Hnew) as [index Hin].
      exists p, index. rewrite !reverse_involutive, Hins, !elem_of_app. auto. }
    apply scanned_app. split.
    { apply scanned_no_create, Forall_reverse. rewrite Hdel.
      apply Forall_forall. intros mutation Hin.
      apply elem_of_deletes in Hin as (? & _ & ->). tauto. }
    apply scanned_app. split.
    { apply scanned_no_create. rewrite reverse_involutive, Hrem.
      apply emitFrom_Forall. tauto. }
    apply scanned_app. split.
    { apply scanned_no_create, Forall_reverse. rewrite Hupd.
      apply Forall_forall. intros mutation Hin.
      apply elem_of_updatesOf in Hin as (? & ? & ? & _ & _ & _ & _ & ->). tauto. }
    apply He.
  - by apply Forall_forall.
  - by apply Forall_forall.
Qed.

(** X5: in the list [diffRoots] returns, every [Delete] of a view comes
    after a [Remove] of that view. *)
Theorem delete_after_remove old new L l1 view l2 :
  diffRoots emptyShadowView old new = Done L ->
  L = l1 ++ DeleteMutation view :: l2 ->
  exists parent index, RemoveMutation parent view index ∈ l1.
Proof.
  intros E HL. apply diffRoots_Done in E as [_ E].
  apply driver_removes_first in E as (added & -> & Hs).
  assert (scanned removedFirst [] (rootUpdate emptyShadowView old new ++ added)) as Hall.
  { apply scanned_app. split; [|apply Hs].
    apply scanned_no_delete. unfold rootUpdate. destruct (negb _); repeat constructor. tauto. }
  rewrite HL in Hall. apply scanned_split in Hall.
  destruct (Hall view eq_refl) as (parent & index & Hin).
  exists parent, index. rewrite app_nil_r, elem_of_reverse in Hin. exact Hin.
Qed.

(** X6: in the list [diffRoots] returns, every [Create] of a view is
    followed by an [Insert] of that view. *)
Theorem create_is_followed_by_insert old new L l1 view l2 :
  diffRoots emptyShadowView old new = Done L ->
  L = l1 ++ CreateMutation view :: l2 ->
  exists parent index, InsertMutation parent view index ∈ l2.
Proof.
  intros E HL. apply diffRoots_Done in E as [_ E].
  apply driver_inserts_later in E as (added & -> & Hs).
  assert (scanned insertedLater []
            (reverse (rootUpdate emptyShadowView old new ++ added))) as Hall.
  { rewrite reverse_app. apply scanned_app. split; [apply Hs|].
    apply scanned_no_create, Forall_reverse.
    unfold rootUpdate. destruct (negb _); repeat constructor. tauto. }
  rewrite HL, reverse_app, reverse_cons, <- app_assoc in Hall. simpl in Hall.
  apply scanned_split in Hall.
  destruct (Hall view eq_refl) as (parent & index & Hin).
  exists parent, index. rewrite app_nil_r, reverse_involutive in Hin. exact Hin.
Qed.

(** X7: apart from the update of the root, which carries the index -1 and
    stands first exactly when the views of the two roots differ, every
    mutation [diffRoots] returns has an index that is not negative, and
    every [Update] pairs two views of the same tag that are not equal. *)
Theorem root_update_then_well_formed old new L :
  diffRoots emptyShadowView old new = Done L ->
  exists added,
    L = rootUpdate emptyShadowView old new ++ added
    /\ Forall wellFormedMutation added.
Proof.
  intros E. apply diffRoots_Done in E as [_ E]. revert E.
  apply (driver_everywhere (fun _ => True) (fun _ => True) (fun _ => True));
    try done; try (intros; by apply Forall_forall); try (by apply Forall_forall).
  intros p o n mutation _ _ _ []; simpl; auto.
Qed.

(** X8: [diffRoots] invents no view.  Apart from the update of the root,
    a created or inserted view is a view of the flattened projection of the
    new tree, a removed or deleted view is one of the old tree, an update
    pairs a view of the old tree with one of the new tree, and the parent a
    mutation names is the view of the old root or a view of one of the two
    projections. *)
Theorem mutations_name_views_of_the_trees old new L mutation :
  diffRoots emptyShadowView old new = Done L ->
  mutation ∈ L ->
  mutation ∈ rootUpdate emptyShadowView old new
  \/ (viewsFrom (viewOfProjection old) (viewOfProjection new) mutation
      /\ parentFrom
           (fun view =>
              view = ShadowView_of old
              \/ viewOfProjection old view \/ viewOfProjection new view)
           mutation).
Proof.
  intros E Hin. apply diffRoots_Done in E as [_ E].
  apply (driver_everywhere (InProjection old) (InProjection new)
           (fun view =>
              view = ShadowView_of old
              \/ viewOfProjection old view \/ viewOfProjection new view)
           (fun mutation =>
              viewsFrom (viewOfProjection old) (viewOfProjection new) mutation
              /\ parentFrom
                   (fun view =>
                      view = ShadowView_of old
                      \/ viewOfProjection old view \/ viewOfProjection new view)
                   mutation)) in E.
  - destruct E as (added & -> & Hall). apply elem_of_app in Hin as [Hin|Hin]; [by left|].
    right. rewrite Forall_forall in Hall. by apply Hall.
  - intros pair Hp. apply Forall_forall. intros inner Hi.
    by apply (InProjection_below old pair inner).
  - intros pair Hp. apply Forall_forall. intros inner Hi.
    by apply (InProjection_below new pair inner).
  - intros pair Hp. right. left. by exists pair.
  - intros pair Hp. right. right. by exists pair.
  - intros p o n m Hpar Ho Hn Hem. rewrite Forall_forall in Ho, Hn.
    destruct Hem; simpl; repeat split; try done; eexists; eauto.
  - by left.
  - apply Forall_forall. intros pair Hp. by apply InProjection_child.
  - apply Forall_forall. intros pair Hp. by apply InProjection_child.
Qed.

Lemma no_pairs (pairs : list ShadowViewNodePair) : Forall (fun _ => False) pairs -> pairs = [].
Proof. destruct 1; [done|tauto]. Qed.

(** X9: when the old root has no child pairs, as on the first mount of a
    surface, every mutation [diffRoots] returns after the update of the
    root is a [Create] or an [Insert]. *)
Theorem first_mount_creates_and_inserts old new L :
  sliceChildShadowNodeViewPairs old = [] ->
  diffRoots emptyShadowView old new = Done L ->
  exists added,
    L = rootUpdate emptyShadowView old new ++ added
    /\ Forall isCreateOrInsert added.
Proof.
  intros Hempty E. apply diffRoots_Done in E as [_ E]. rewrite Hempty in E. revert E.
  apply (driver_everywhere (fun _ => False) (fun _ => True) (fun _ => True));
    try done; try (intros; by apply Forall_forall); try (by apply Forall_forall).
  intros p o n mutation _ Ho _ Hem. apply no_pairs in Ho as ->.
  destruct Hem; simpl; try done;
    match goal with Hin : _ ∈ [] |- _ => by apply elem_of_nil in Hin end.
Qed.

(** X10: when the new root has no child pairs, [diffRoots] on roots of the
    same family returns a list, and every mutation of it after the update
    of the root is a [Remove] or a [Delete]. *)
Theorem teardown_removes_and_deletes old new :
  sameFamily old new = true ->
  sliceChildShadowNodeViewPairs new = [] ->
  exists added,
    diffRoots emptyShadowView old new
    = Done (rootUpdate emptyShadowView old new ++ added)
    /\ Forall isRemoveOrDelete added.
Proof.
  intros Hfamily Hempty.
  destruct (diffRoots_returns emptyShadowView old new Hfamily) as [L E].
  { rewrite Hempty. apply NonzeroBelow_nil. }
  rewrite E. pose proof E as E'. apply diffRoots_Done in E' as [_ E']. rewrite Hempty in E'.
  apply (driver_everywhere (fun _ => True) (fun _ => False) (fun _ => True)
           isRemoveOrDelete) in E'.
  - destruct E' as (added & -> & Hall). by exists added.
  - intros. by apply Forall_forall.
  - done.
  - done.
  - done.
  - intros p o n mutation _ _ Hn Hem. apply no_pairs in Hn as ->.
    destruct Hem; simpl; try done;
      match goal with Hin : _ ∈ [] |- _ => by apply elem_of_nil in Hin end.
  - done.
  - by apply Forall_forall.
  - constructor.
Qed.
End Global.

(** ** Mounting and unmounting whole subtrees *)

Section Subtrees.
Context `{FloatOps}.
Implicit Types (acc : Accumulators) (m : TinyMap.t ShadowViewNodePair).

Lemma projection_unfold root pair :
  InProjection root pair <-> belowPairs (sliceChildShadowNodeViewPairs root) pair.
Proof.
  split.
  - induction 1 as [pair Hin|pair inner Hp IH Hin]; [by left|]. right.
    destruct IH as [Hc|(above & Ha & Hb)].
    + exists pair. split; [done|]. by apply InProjection_child.
    + exists above. split; [done|]. by apply (InProjection_below _ pair inner).
  - intros [Hin|(above & Ha & Hb)]; [by apply InProjection_child|].
    induction Hb as [pair Hin|pair inner Hp IH Hin].
    + apply (InProjection_below root above pair); [by apply InProjection_child | done].
    + by apply (InProjection_below root pair inner).
Qed.

Lemma unmounts_mono pair (a b : list ShadowViewMutation) :
  a ⊆ b -> unmounts pair a -> unmounts pair b.
Proof. intros Hsub [Hd (p & i & Hr)]. split; [by apply Hsub|]. exists p, i. by apply Hsub. Qed.

Lemma mounts_mono pair (a b : list ShadowViewMutation) :
  a ⊆ b -> mounts pair a -> mounts pair b.
Proof. intros Hsub [Hd (p & i & Hr)]. split; [by apply Hsub|]. exists p, i. by apply Hsub. Qed.

Lemma stage1_nil_r (rec : Driver) parent olds index acc :
  stage1 rec parent olds [] index acc = Done (index, acc).
Proof. by destruct olds. Qed.

Lemma alignedCount_nil_r olds : alignedCount olds [] = 0.
Proof. by destruct olds. Qed.

Lemma deletesOf_empty olds :
  deletesOf [] olds = (fun old => DeleteMutation (shadowView old)) <$> olds.
Proof. induction olds as [|old rest IH]; simpl; [done|]. by rewrite IH. Qed.

Section Unmount.
Variable rec : Driver.
Hypothesis rec_unmounts :
  forall muts parent olds out,
    rec muts parent olds [] = Done out ->
    exists added, out = muts ++ added /\ forall pair, belowPairs olds pair -> unmounts pair added.

Lemma stage3_unmounts parent olds : forall index acc acc' m',
  stage3 rec parent olds index acc [] = Done (acc', m') ->
  exists added,
    destructiveDownwardMutations acc' = destructiveDownwardMutations acc ++ added
    /\ forall old pair,
         old ∈ olds -> InProjection (shadowNode old) pair -> unmounts pair added.
Proof.
  induction olds as [|old rest IH]; intros index acc acc' m' E; simpl in E.
  - injection E as <- <-. exists []. rewrite app_nil_r. split; [done|].
    intros old pair Hin. by apply elem_of_nil in Hin.
  - change (TinyMap.find (tag (shadowView old)) []) with (@None nat) in E.
    apply bind_Done in E as (acc1 & Hrec & E).
    unfold recurseInto in Hrec. apply bind_Done in Hrec as (ms & Hrec & [= <-]).
    apply rec_unmounts in Hrec as (added1 & -> & H1).
    apply IH in E as (added2 & -> & H2). simpl.
    exists (added1 ++ added2). rewrite <- app_assoc. split; [done|].
    intros old' pair Hin Hp. apply elem_of_cons in Hin as [->|Hin].
    + apply (unmounts_mono pair added1); [intros x Hx; apply elem_of_app; by left|].
      apply H1. by apply projection_unfold.
    + apply (unmounts_mono pair added2); [intros x Hx; apply elem_of_app; by right|]. by apply (H2 old').
Qed.

Lemma stages_unmounts parent olds acc :
  stages rec parent olds [] = Done acc ->
  forall pair, belowPairs olds pair -> unmounts pair (flushed acc).
Proof.
  intros E pair Hbelow. pose proof (stages_exact _ _ _ _ _ E) as (_ & _ & Hrem & Hdel & _).
  change (reorderInPlaceIfNeeded []) with (@nil ShadowViewNodePair) in Hrem, Hdel.
  rewrite alignedCount_nil_r in Hrem, Hdel. simpl in Hrem, Hdel.
  rewrite deletesOf_empty in Hdel.
  unfold stages in E. change (reorderInPlaceIfNeeded []) with (@nil ShadowViewNodePair) in E.
  rewrite stage1_nil_r in E. simpl in E.
  apply bind_Done in E as ([acc3 m3] & H3 & [= <-]).
  apply stage3_unmounts in H3 as (added & Hdd & Hall). simpl in Hdd.
  destruct Hbelow as [Hin|(above & Ha & Hp)].
  - rewrite <- elem_of_reorder in Hin. split.
    + unfold flushed. rewrite !elem_of_app, Hdel. right. right. right. left.
      apply list_elem_of_fmap. by exists pair.
    + destruct (emitFrom_covers (RemoveMutation parent) _ 0 pair Hin) as [index Hr].
      exists parent, index. unfold flushed. rewrite !elem_of_app, elem_of_reverse, Hrem.
      auto.
  - rewrite <- elem_of_reorder in Ha.
    apply (unmounts_mono pair added); [|by apply (Hall above)].
    intros x Hx. unfold flushed. rewrite Hdd, !elem_of_app. auto.
Qed.
End Unmount.

Lemma driver_unmounts fuel : forall mutations parent olds out,
  calculateShadowViewMutations fuel mutations parent olds [] = Done out ->
  exists added,
    out = mutations ++ added /\ forall pair, belowPairs olds pair -> unmounts pair added.
Proof.
  induction fuel as [|fuel IH]; intros mutations parent olds out E;
    apply driver_Done in E as [(-> & _ & ->)|(fuel' & acc & Hf & Hs & ->)];
    try discriminate.
  - exists []. rewrite app_nil_r. split; [done|].
    intros pair [Hin|(above & Hin & _)]; by apply elem_of_nil in Hin.
  - exists []. rewrite app_nil_r. split; [done|].
    intros pair [Hin|(above & Hin & _)]; by apply elem_of_nil in Hin.
  - injection Hf as <-. exists (flushed acc). split; [done|].
    by apply (stages_unmounts (calculateShadowViewMutations fuel) IH parent).
Qed.

Section Mount.
Variable rec : Driver.
Hypothesis rec_mounts :
  forall muts parent news out,
    rec muts parent [] news = Done out ->
    exists added, out = muts ++ added /\ forall pair, belowPairs news pair -> mounts pair added.

Lemma stage4_mounts m news : forall acc acc',
  (forall new, new ∈ news -> TinyMap.find (tag (shadowView new)) m <> None) ->
  stage4 rec news acc m = Done acc' ->
  exists added,
    downwardMutations acc' = downwardMutations acc ++ added
    /\ forall new pair,
         new ∈ news -> InProjection (shadowNode new) pair -> mounts pair added.
Proof.
  induction news as [|new rest IH]; intros acc acc' Hfound E; simpl in E.
  - injection E as <-. exists []. rewrite app_nil_r. split; [done|].
    intros new pair Hin. by apply elem_of_nil in Hin.
  - destruct (TinyMap.find (tag (shadowView new)) m) as [slot|] eqn:Hfind.
    2:{ exfalso. apply (Hfound new); [by left | done]. }
    apply bind_Done in E as (acc1 & Hrec & E).
    unfold recurseInto in Hrec. apply bind_Done in Hrec as (ms & Hrec & [= <-]).
    apply rec_mounts in Hrec as (added1 & -> & H1).
    apply IH in E as (added2 & -> & H2).
    2:{ intros new' Hin. apply Hfound. by right. }
    simpl. exists (added1 ++ added2). rewrite <- app_assoc. split; [done|].
    intros new' pair Hin Hp. apply elem_of_cons in Hin as [->|Hin].
    + apply (mounts_mono pair added1); [intros x Hx; apply elem_of_app; by left|].
      apply H1. by apply projection_unfold.
    + apply (mounts_mono pair added2); [intros x Hx; apply elem_of_app; by right|]. by apply (H2 new').
Qed.

Lemma stages_mounts parent news acc :
  stages rec parent [] news = Done acc ->
  forall pair, belowPairs news pair -> mounts pair (flushed acc).
Proof.
  intros E pair Hbelow.
  pose proof (stages_exact _ _ _ _ _ E) as (_ & Hins & _ & _ & Hcre & _).
  change (reorderInPlaceIfNeeded []) with (@nil ShadowViewNodePair) in Hins, Hcre.
  simpl in Hins, Hcre.
  unfold stages in E. change (reorderInPlaceIfNeeded []) with (@nil ShadowViewNodePair) in E.
  simpl in E.
  apply bind_Done in E as ([acc2 m2] & H2 & E). simpl in E.
  apply stage2_ok in H2 as (-> & -> & _). simpl in E.
  apply stage4_mounts in E as (added & Hd & Hall).
  2:{ intros new Hin. rewrite find_None, entriesOf_keys. intros Hno. apply Hno.
      apply list_elem_of_fmap. by exists new. }
  simpl in Hd.
  destruct Hbelow as [Hin|(above & Ha & Hp)].
  - rewrite <- elem_of_reorder in Hin. split.
    + unfold flushed. rewrite !elem_of_app, Hcre. do 4 right. left.
      apply elem_of_createsOf. exists pair. repeat split; [done|].
      rewrite find_None, entriesOf_keys. intros Hno. apply Hno.
      apply list_elem_of_fmap. by exists pair.
    + destruct (emitFrom_covers (InsertMutation parent) _ 0 pair Hin) as [index Hr].
      exists parent, index. unfold flushed. rewrite !elem_of_app, Hins. auto 10.
  - rewrite <- elem_of_reorder in Ha.
    apply (mounts_mono pair added); [|by apply (Hall above)].
    intros x Hx. unfold flushed. rewrite Hd, !elem_of_app. auto 10.
Qed.
End Mount.

Lemma driver_mounts fuel : forall mutations parent news out,
  calculateShadowViewMutations fuel mutations parent [] news = Done out ->
  exists added,
    out = mutations ++ added /\ forall pair, belowPairs news pair -> mounts pair added.
Proof.
  induction fuel as [|fuel IH]; intros mutations parent news out E;
    apply driver_Done in E as [(_ & -> & ->)|(fuel' & acc & Hf & Hs & ->)];
    try discriminate.
  - exists []. rewrite app_nil_r. split; [done|].
    intros pair [Hin|(above & Hin & _)]; by apply elem_of_nil in Hin.
  - exists []. rewrite app_nil_r. split; [done|].
    intros pair [Hin|(above & Hin & _)]; by apply elem_of_nil in Hin.
  - injection Hf as <-. exists (flushed acc). split; [done|].
    by apply (stages_mounts (calculateShadowViewMutations fuel) IH parent).
Qed.

Variable emptyShadowView : ShadowView.

(** X11: when the new root has no child pairs, the list [diffRoots]
    returns unmounts the whole old projection: it holds a [Remove] and a
    [Delete] of the view of every pair of it. *)
Theorem teardown_is_complete old new L pair :
  sliceChildShadowNodeViewPairs new = [] ->
  diffRoots emptyShadowView old new = Done L ->
  InProjection old pair ->
  DeleteMutation (shadowView pair) ∈ L
  /\ exists parent index, RemoveMutation parent (shadowView pair) index ∈ L.
Proof.
  intros Hempty E Hp. apply diffRoots_Done in E as [_ E]. rewrite Hempty in E.
  apply driver_unmounts in E as (added & -> & Hall).
  apply (unmounts_mono pair added); [intros x Hx; apply elem_of_app; by right|].
  apply Hall. by apply projection_unfold.
Qed.

(** X12: when the old root has no child pairs, the list [diffRoots]
    returns mounts the whole new projection: it holds a [Create] and an
    [Insert] of the view of every pair of it. *)
Theorem first_mount_is_complete old new L pair :
  sliceChildShadowNodeViewPairs old = [] ->
  diffRoots emptyShadowView old new = Done L ->
  InProjection new pair ->
  CreateMutation (shadowView pair) ∈ L
  /\ exists parent index, InsertMutation parent (shadowView pair) index ∈ L.
Proof.
  intros Hempty E Hp. apply diffRoots_Done in E as [_ E]. rewrite Hempty in E.
  apply driver_mounts in E as (added & -> & Hall).
  apply (mounts_mono pair added); [intros x Hx; apply elem_of_app; by right|].
  apply Hall. by apply projection_unfold.
Qed.
End Subtrees.

(** ** Outcomes of the root entry *)

Section Outcomes.
Context `{FloatOps}.
Variable emptyShadowView : ShadowView.

Lemma stage2_zero parent news : forall index acc (m : TinyMap.t ShadowViewNodePair) pair,
  pair ∈ news -> tag (shadowView pair) = 0%Z ->
  stage2 parent news index acc m = AssertionFailed.
Proof.
  induction news as [|new rest IH]; intros index acc m pair Hin Hzero.
  - by apply elem_of_nil in Hin.
  - simpl. unfold TinyMap.insert. simpl.
    destruct (Z.eqb_spec (tag (shadowView new)) 0) as [|Hnz]; [done|]. simpl.
    apply elem_of_cons in Hin as [->|Hin]; [done|]. by apply (IH _ _ _ pair).
Qed.

(** X13: on a first mount, where the old root has no child pairs, a child
    pair of the new root with the tag 0 makes [diffRoots] fail the
    assertion of [TinyMap::insert]: no list is returned. *)
Theorem first_mount_zero_tag_aborts old new pair :
  sameFamily old new = true ->
  sliceChildShadowNodeViewPairs old = [] ->
  pair ∈ sliceChildShadowNodeViewPairs new ->
  tag (shadowView pair) = 0%Z ->
  diffRoots emptyShadowView old new = AssertionFailed.
Proof.
  intros Hfamily Hempty Hin Hzero. unfold diffRoots. rewrite Hfamily, Hempty. simpl.
  pose proof (slice_depth _ _ Hin) as Hdepth.
  destruct (Nat.max (depth old) (depth new)) as [|fuel] eqn:Hfuel; [lia|].
  rewrite driver_unfold.
  destruct (sliceChildShadowNodeViewPairs new) as [|first rest] eqn:Hnews;
    [by apply elem_of_nil in Hin|].
  simpl length. simpl andb. cbv iota. unfold stages.
  change (reorderInPlaceIfNeeded []) with (@nil ShadowViewNodePair). simpl stage1.
  simpl bind at 1. simpl drop.
  rewrite (stage2_zero _ _ _ _ _ pair); [done| |done].
  by apply elem_of_reorder.
Qed.

(** X14: [diffRoots] never exhausts its recursion budget; it fails the
    assertion on the families when the roots are of different families;
    and for roots of one family it returns a list when no pair sliced
    below the new root has the tag 0. *)
Theorem diffRoots_outcome old new :
  diffRoots emptyShadowView old new <> OutOfFuel
  /\ (sameFamily old new = false -> diffRoots emptyShadowView old new = AssertionFailed)
  /\ (sameFamily old new = true ->
      NonzeroBelow (sliceChildShadowNodeViewPairs new) ->
      exists mutations, diffRoots emptyShadowView old new = Done mutations).
Proof.
  split; [apply diffRoots_total|]. split.
  - intros Hfamily. unfold diffRoots. by rewrite Hfamily.
  - apply diffRoots_returns.
Qed.
End Outcomes.

(** ** TinyMap: lookups after an insertion and after an erasure *)

Section TinyMapRoundTrips.
Context {ValueT : Type}.
Implicit Types (m : TinyMap.t ValueT) (key k : Z).


Lemma find_intro k m slot value :
  m !! slot = Some (k, value) ->
  (forall j item, j < slot -> m !! j = Some item -> item.1 <> k) ->
  TinyMap.find k m = Some slot.
Proof.
  intros Hslot Hbefore. destruct (TinyMap.find k m) as [found|] eqn:E.
  - apply find_Some in E as (v & Hfound & Hb). f_equal.
    destruct (Nat.lt_trichotomy found slot) as [Hlt|[->|Hlt]]; [|done|].
    + exfalso. by apply (Hbefore found (k, v) Hlt Hfound).
    + exfalso. by apply (Hb slot (k, value) Hlt Hslot).
  - apply find_None in E. exfalso. apply E. apply list_elem_of_fmap.
    exists (k, value). split; [done|]. by eapply list_elem_of_lookup_2.
Qed.


(** X16: after the slot [find] returned for a non-zero key was erased,
    every other non-zero key is found where it was; the erased key is
    found only in a later slot that already held it, and not at all when
    no other slot held it; and the key 0 is found, at the erased slot or
    before it. *)
Theorem find_after_erase m key slot :
  TinyMap.find key m = Some slot ->
  key <> 0%Z ->
  (forall k, k <> 0%Z -> k <> key ->
     TinyMap.find k (TinyMap.erase slot m) = TinyMap.find k m)
  /\ match TinyMap.find key (TinyMap.erase slot m) with
     | Some later => slot < later /\ exists value, m !! later = Some (key, value)
     | None => forall j value, m !! j = Some (key, value) -> j = slot
     end
  /\ exists tombstone,
       TinyMap.find 0 (TinyMap.erase slot m) = Some tombstone /\ tombstone <= slot.
Proof.
  intros Hfind Hkey. apply find_Some in Hfind as (value & Hslot & Hbefore).
  split; [|split].
  - intros k Hk Hne. destruct (TinyMap.find k m) as [found|] eqn:E.
    + apply find_Some in E as (v & Hfound & Hb).
      apply (find_intro k _ found v).
      * rewrite erase_lookup. destruct (decide (slot = found)) as [->|]; [|done].
        rewrite Hslot in Hfound. by injection Hfound.
      * intros j item Hj. rewrite erase_lookup.
        destruct (decide (slot = j)) as [->|]; [|by apply Hb].
        rewrite Hslot. simpl. intros [= <-]. simpl. congruence.
    + apply find_None. apply find_None in E. intros Hin. apply E.
      apply list_elem_of_fmap in Hin as ([k' v] & Hk' & Hin). simpl in Hk'. subst k'.
      apply list_elem_of_lookup in Hin as [j Hj]. rewrite erase_lookup in Hj.
      destruct (decide (slot = j)) as [->|].
      * rewrite Hslot in Hj. simpl in Hj. by injection Hj.
      * apply list_elem_of_fmap. exists (k, v). split; [done|].
        by eapply list_elem_of_lookup_2.
  - destruct (TinyMap.find key (TinyMap.erase slot m)) as [later|] eqn:E.
    + apply find_Some in E as (v & Hlater & _). rewrite erase_lookup in Hlater.
      destruct (decide (slot = later)) as [->|Hne].
      { rewrite Hslot in Hlater. simpl in Hlater. by injection Hlater. }
      split; [|by exists v].
      destruct (Nat.lt_trichotomy later slot) as [Hlt|[->|Hlt]]; [|done|done].
      exfalso. by apply (Hbefore later (key, v) Hlt Hlater).
    + apply find_None in E. intros j v Hj.
      destruct (decide (j = slot)) as [|Hne]; [done|]. exfalso. apply E.
      apply list_elem_of_fmap. exists (key, v). split; [done|].
      apply list_elem_of_lookup. exists j. rewrite erase_lookup.
      by destruct (decide (slot = j)) as [->|].
  - assert (TinyMap.erase slot m !! slot = Some (0%Z, value)) as Hzero.
    { rewrite erase_lookup, decide_True by done. by rewrite Hslot. }
    destruct (TinyMap.find 0 (TinyMap.erase slot m)) as [tombstone|] eqn:E.
    + exists tombstone. split; [done|].
      apply find_Some in E as (v & _ & Hb).
      destruct (le_lt_dec tombstone slot) as [|Hlt]; [done|].
      exfalso. by apply (Hb slot (0%Z, value) Hlt Hzero).
    + apply find_None in E. exfalso. apply E. apply list_elem_of_fmap.
      exists (0%Z, value). split; [done|]. by eapply list_elem_of_lookup_2.
Qed.
End TinyMapRoundTrips.

(** ** Reordering a list that is in order already *)

Section Resort.
Context `{FloatOps}.
Implicit Types (pair : ShadowViewNodePair) (pairs : list ShadowViewNodePair).

Lemma stable_sort_of_sorted pairs :
  StronglySorted (fun p q => (orderOf p <= orderOf q)%Z) pairs ->
  stable_sort shouldFirstPairComesBeforeSecondOne pairs = pairs.
Proof.
  induction 1 as [|a rest Hs IH Hall]; simpl; [done|]. rewrite IH.
  destruct rest as [|b rest]; simpl; [done|].
  apply Forall_cons in Hall as [Hab _].
  destruct (shouldFirstPairComesBeforeSecondOne b a) eqn:E; [|done].
  apply before_lt in E. lia.
Qed.

Lemma reorder_of_sorted pairs :
  StronglySorted (fun p q => (orderOf p <= orderOf q)%Z) pairs ->
  reorderInPlaceIfNeeded pairs = pairs.
Proof.
  intros Hs. rewrite reorder_unfold. destruct (isReorderNeeded pairs); [|done].
  by apply stable_sort_of_sorted.
Qed.

Lemma reorder_twice pairs :
  reorderInPlaceIfNeeded (reorderInPlaceIfNeeded pairs) = reorderInPlaceIfNeeded pairs.
Proof.
  rewrite (reorder_unfold pairs). destruct (isReorderNeeded pairs) eqn:E.
  - apply reorder_of_sorted, stable_sort_sorted.
  - by rewrite reorder_unfold, E.
Qed.

(** X17: [reorderInPlaceIfNeeded] leaves a list as it is when its order
    indices do not decrease along the list, so reordering a second time
    changes nothing. *)
Theorem reorder_fixpoints pairs :
  (StronglySorted (fun p q => (orderOf p <= orderOf q)%Z) pairs ->
   reorderInPlaceIfNeeded pairs = pairs)
  /\ reorderInPlaceIfNeeded (reorderInPlaceIfNeeded pairs) = reorderInPlaceIfNeeded pairs.
Proof. split; [apply reorder_of_sorted | apply reorder_twice]. Qed.

(** X18: a call of the recursive driver on sibling lists that were
    reordered beforehand gives the result of the call on the lists as they
    were: the outcome depends on the order of the siblings only through
    [reorderInPlaceIfNeeded]. *)
Theorem reordered_siblings_same_result fuel mutations parent olds news :
  calculateShadowViewMutations fuel mutations parent
    (reorderInPlaceIfNeeded olds) (reorderInPlaceIfNeeded news)
  = calculateShadowViewMutations fuel mutations parent olds news.
Proof.
  destruct fuel as [|fuel].
  - simpl. by rewrite !reorder_length.
  - rewrite !driver_unfold, !reorder_length. unfold stages. by rewrite !reorder_twice.
Qed.
End Resort.

(** ** What the slicer yields *)

Section SlicedPairs.
Context `{FloatOps}.

Lemma effective_forms node : forall layoutOffset pair,
  pair ∈ effectiveChildren layoutOffset node ->
  check (getTraits (shadowNode pair)) FormsStackingContext
  || check (getTraits (shadowNode pair)) FormsView = true
  /\ exists offset, shadowView pair = offsetShadowView offset (shadowNode pair).
Proof.
  induction node as [t s c p e l st o tr children IH] using ShadowNode_rect'.
  intros layoutOffset pair. simpl.
  induction IH as [|child rest Hchild _ IHrest]; simpl.
  - intros Hin. by apply elem_of_nil in Hin.
  - rewrite elem_of_app. intros [Hin|Hin]; [|by apply IHrest].
    destruct (formsStackingContext (getTraits child)) eqn:Hsc.
    + apply list_elem_of_singleton in Hin as ->. simpl. rewrite Hsc. eauto.
    + apply elem_of_app in Hin as [Hin|Hin]; [|by eapply Hchild].
      destruct (formsView (getTraits child)) eqn:Hfv; [|by apply elem_of_nil in Hin].
      apply list_elem_of_singleton in Hin as ->. simpl. rewrite Hsc, Hfv. eauto.
Qed.

Lemma effective_below node : forall layoutOffset pair,
  pair ∈ effectiveChildren layoutOffset node ->
  shadowNode pair ∈ descendants node.
Proof.
  induction node as [t s c p e l st o tr children IH] using ShadowNode_rect'.
  intros layoutOffset pair. simpl.
  induction IH as [|child rest Hchild _ IHrest]; simpl.
  - intros Hin. by apply elem_of_nil in Hin.
  - rewrite elem_of_app. intros [Hin|Hin].
    2:{ apply elem_of_cons. right. apply elem_of_app. right. by apply IHrest. }
    destruct (formsStackingContext (getTraits child)).
    + apply list_elem_of_singleton in Hin as ->. by left.
    + apply elem_of_app in Hin as [Hin|Hin].
      * destruct (formsView (getTraits child)); [|by apply elem_of_nil in Hin].
        apply list_elem_of_singleton in Hin as ->. by left.
      * apply elem_of_cons. right. apply elem_of_app. left. by eapply Hchild.
Qed.

(** X19: every pair [sliceChildShadowNodeViewPairs] yields for a node holds
    a node that forms a stacking context or a view and that lies strictly
    below the node it was sliced from: it is one of the nodes below that
    node, so its depth is smaller; the view of the pair is the view of
    that node with its origin moved by an offset, so it carries the tag of
    the node; and a node that yields a pair forms a stacking context or no
    view. *)
Theorem slice_pairs_form_views node pair :
  pair ∈ sliceChildShadowNodeViewPairs node ->
  check (getTraits (shadowNode pair)) FormsStackingContext
  || check (getTraits (shadowNode pair)) FormsView = true
  /\ (exists offset, shadowView pair = offsetShadowView offset (shadowNode pair))
  /\ tag (shadowView pair) = getTag (shadowNode pair)
  /\ shadowNode pair ∈ descendants node
  /\ depth (shadowNode pair) < depth node
  /\ negb (check (getTraits node) FormsStackingContext) && check (getTraits node) FormsView
     = false.
Proof.
  intros Hin. pose proof (slice_depth _ _ Hin) as Hdepth.
  rewrite slice_effective in Hin.
  destruct (negb _ && _); [by apply elem_of_nil in Hin|].
  pose proof (effective_below _ _ _ Hin) as Hbelow.
  apply effective_forms in Hin as [Hforms [offset Hview]].
  split; [done|]. split; [by exists offset|]. split; [by rewrite Hview|]. done.
Qed.

Lemma effective_tags node : forall layoutOffset,
  tagsOf (effectiveChildren layoutOffset node) `sublist_of` descendantTags node.
Proof.
  induction node as [t s c p e l st o tr children IH] using ShadowNode_rect'.
  intros layoutOffset. simpl.
  induction IH as [|child rest Hchild _ IHrest]; simpl; [done|].
  unfold tagsOf in *. rewrite fmap_app.
  change (getTag child :: descendantTags child ++ ?r)
    with ((getTag child :: descendantTags child) ++ r).
  apply sublist_app; [|exact IHrest].
  destruct (formsStackingContext (getTraits child)).
  - simpl. apply sublist_skip, sublist_nil_l.
  - rewrite fmap_app. destruct (formsView (getTraits child)); simpl.
    + apply sublist_skip, Hchild.
    + apply sublist_cons, Hchild.
Qed.

Lemma effective_descendants node : forall layoutOffset pair,
  pair ∈ effectiveChildren layoutOffset node ->
  (getTag (shadowNode pair) :: descendantTags (shadowNode pair))
    `sublist_of` descendantTags node.
Proof.
  induction node as [t s c p e l st o tr children IH] using ShadowNode_rect'.
  intros layoutOffset pair. simpl.
  induction IH as [|child rest Hchild _ IHrest]; simpl.
  - intros Hin. by apply elem_of_nil in Hin.
  - change (getTag child :: descendantTags child ++ ?r)
      with ((getTag child :: descendantTags child) ++ r).
    rewrite elem_of_app. intros [Hin|Hin].
    2:{ etrans; [by apply IHrest|]. apply sublist_inserts_l. done. }
    etrans; [|apply sublist_inserts_r; reflexivity].
    destruct (formsStackingContext (getTraits child)).
    + apply list_elem_of_singleton in Hin as ->. done.
    + apply elem_of_app in Hin as [Hin|Hin].
      * destruct (formsView (getTraits child)); [|by apply elem_of_nil in Hin].
        apply list_elem_of_singleton in Hin as ->. done.
      * apply sublist_cons. by eapply Hchild.
Qed.

Lemma slice_tags node :
  tagsOf (sliceChildShadowNodeViewPairs node) `sublist_of` descendantTags node.
Proof.
  rewrite slice_effective. destruct (negb _ && _); [apply sublist_nil_l|].
  apply effective_tags.
Qed.

Lemma slice_descendants node pair :
  pair ∈ sliceChildShadowNodeViewPairs node ->
  descendantTags (shadowNode pair) `sublist_of` descendantTags node.
Proof.
  rewrite slice_effective. destruct (negb _ && _); [intros Hin; by apply elem_of_nil in Hin|].
  intros Hin. etrans; [|by eapply effective_descendants]. by apply sublist_cons.
Qed.

(** X20: when the tags of the nodes below a root are distinct, the tags of
    every sibling list the differentiator works on are distinct: those of
    the slice of the root and those of the slice of the node of every pair
    of the flattened projection. *)
Theorem sliced_siblings_have_distinct_tags root :
  NoDup (descendantTags root) ->
  NoDup (tagsOf (sliceChildShadowNodeViewPairs root))
  /\ forall pair,
       InProjection root pair ->
       NoDup (tagsOf (sliceChildShadowNodeViewPairs (shadowNode pair))).
Proof.
  intros Hnd. split; [eapply sublist_NoDup; [exact Hnd | apply slice_tags]|].
  intros pair Hp. eapply sublist_NoDup; [|apply slice_tags].
  eapply sublist_NoDup; [exact Hnd|].
  induction Hp as [pair Hin|pair inner Hp IH Hin].
  - by apply slice_descendants.
  - etrans; [by apply slice_descendants|]. exact IH.
Qed.
End SlicedPairs.

(** ** The registry: visiting after a change, enumerating, destroying *)

Section RegistryRoundTrips.
Context {ShadowTree : Type} (getSurfaceId : ShadowTree -> Z).

(** X21: after [add], [visit] finds under the surface id of the added tree
    the tree that was stored there before or, when there was none, the
    added tree; under any other surface id it finds what it found
    before. *)
Theorem visit_after_add shadowTree (registry_ : gmap Z ShadowTree) surfaceId :
  ShadowTreeRegistry.visit surfaceId
    (ShadowTreeRegistry.add getSurfaceId shadowTree registry_)
  = if decide (surfaceId = getSurfaceId shadowTree)
    then (true, Some (default shadowTree (registry_ !! surfaceId)))
    else ShadowTreeRegistry.visit surfaceId registry_.
Proof.
  unfold ShadowTreeRegistry.visit, ShadowTreeRegistry.add, ShadowTreeRegistry.emplace.
  destruct (decide (surfaceId = getSurfaceId shadowTree)) as [->|Hne].
  - destruct (decide (registry_ !! getSurfaceId shadowTree = None)) as [Hnone|Hsome].
    + by rewrite lookup_insert_eq, Hnone.
    + by destruct (registry_ !! getSurfaceId shadowTree).
  - destruct (decide (registry_ !! getSurfaceId shadowTree = None)); [|done].
    by rewrite lookup_insert_ne.
Qed.

(** X22: after [remove], [visit] finds nothing under the removed surface
    id and under any other surface id what it found before. *)
Theorem visit_after_remove removed (registry_ : gmap Z ShadowTree) surfaceId :
  ShadowTreeRegistry.visit surfaceId (ShadowTreeRegistry.remove removed registry_)
  = if decide (surfaceId = removed) then (false, None)
    else ShadowTreeRegistry.visit surfaceId registry_.
Proof.
  unfold ShadowTreeRegistry.visit, ShadowTreeRegistry.remove.
  destruct (decide (surfaceId = removed)) as [->|Hne].
  - destruct (registry_ !! removed) eqn:E; [by rewrite lookup_delete_eq | by rewrite E].
  - destruct (registry_ !! removed); [by rewrite lookup_delete_ne | done].
Qed.

(** X23: [remove] undoes an [add] that stored its tree, and an [add]
    after the [remove] of its surface id replaces the tree that was
    stored. *)
Theorem remove_undoes_add shadowTree (registry_ : gmap Z ShadowTree) :
  (registry_ !! getSurfaceId shadowTree = None ->
   ShadowTreeRegistry.remove (getSurfaceId shadowTree)
     (ShadowTreeRegistry.add getSurfaceId shadowTree registry_)
   = registry_)
  /\ ShadowTreeRegistry.add getSurfaceId shadowTree
       (ShadowTreeRegistry.remove (getSurfaceId shadowTree) registry_)
     = <[getSurfaceId shadowTree := shadowTree]> registry_.
Proof.
  unfold ShadowTreeRegistry.remove, ShadowTreeRegistry.add, ShadowTreeRegistry.emplace.
  split.
  - intros Hnone. rewrite decide_True by done. rewrite lookup_insert_eq.
    by apply delete_insert_id.
  - destruct (registry_ !! getSurfaceId shadowTree) eqn:E.
    + rewrite decide_True by apply lookup_delete_eq. apply insert_delete_eq.
    + by rewrite decide_True.
Qed.

Lemma enumerateOver_log (trees : list ShadowTree) : forall seen : list ShadowTree,
  ShadowTreeRegistryOps.enumerateOver (fun seen tree => (seen ++ [tree], false)) trees seen
  = seen ++ trees.
Proof.
  induction trees as [|tree rest IH]; intros seen; simpl.
  - by rewrite app_nil_r.
  - by rewrite IH, <- app_assoc.
Qed.

(** X24: [enumerate] with a callback that never sets [stop] passes every
    tree of the registry to the callback, once each: the trees it is
    called on are as many as the entries, and a tree is among them exactly
    when it is stored under some surface id. *)
Theorem enumerate_visits_every_tree (registry_ : gmap Z ShadowTree) :
  length
    (ShadowTreeRegistryOps.enumerate (fun seen tree => (seen ++ [tree], false)) registry_ [])
  = base.size registry_
  /\ forall shadowTree,
       shadowTree
         ∈ ShadowTreeRegistryOps.enumerate (fun seen tree => (seen ++ [tree], false))
             registry_ []
       <-> exists surfaceId, registry_ !! surfaceId = Some shadowTree.
Proof.
  unfold ShadowTreeRegistryOps.enumerate. rewrite enumerateOver_log. simpl. split.
  - by rewrite length_fmap, length_map_to_list.
  - intros shadowTree. rewrite list_elem_of_fmap. split.
    + intros ([surfaceId tree] & -> & Hin). exists surfaceId. by apply elem_of_map_to_list.
    + intros [surfaceId Hl]. exists (surfaceId, shadowTree). split; [done|].
      by apply elem_of_map_to_list.
Qed.

(** X25: once a callback of [enumerate] sets [stop], the loop ends: the
    trees that come later in the container are not passed to it. *)
Theorem enumerate_stops {State : Type} (callback : State -> ShadowTree -> State * bool)
    (before after : list ShadowTree) shadowTree (state : State) :
  (forall s tree, tree ∈ before -> (callback s tree).2 = false) ->
  (forall s, (callback s shadowTree).2 = true) ->
  ShadowTreeRegistryOps.enumerateOver callback (before ++ shadowTree :: after) state
  = (callback (foldl (fun s tree => (callback s tree).1) state before) shadowTree).1.
Proof.
  intros Hgo Hstop. revert state.
  induction before as [|tree rest IH]; intros state; simpl.
  - by rewrite Hstop.
  - rewrite Hgo by (by left). apply IH. intros s t Hin. apply Hgo. by right.
Qed.

(** X26: destroying a registry to which a tree was added fails the
    assertion of the destructor, whatever the registry held; after the
    only tree was removed again, the registry can be destroyed. *)
Theorem destroy_needs_empty_registry shadowTree (registry_ : gmap Z ShadowTree) :
  ShadowTreeRegistryOps.destroy (ShadowTreeRegistry.add getSurfaceId shadowTree registry_)
  = AssertionFailed
  /\ (registry_ = ∅ ->
      ShadowTreeRegistryOps.destroy
        (ShadowTreeRegistry.remove (getSurfaceId shadowTree)
           (ShadowTreeRegistry.add getSurfaceId shadowTree registry_))
      = Done tt).
Proof.
  unfold ShadowTreeRegistryOps.destroy, ShadowTreeRegistry.add, ShadowTreeRegistry.emplace,
    ShadowTreeRegistry.remove.
  split.
  - destruct (decide (registry_ !! getSurfaceId shadowTree = None)) as [Hnone|Hsome].
    + rewrite decide_False; [done|]. apply insert_non_empty.
    + rewrite decide_False; [done|]. intros ->. by rewrite lookup_empty in Hsome.
  - intros ->.
    destruct (decide ((∅ : gmap Z ShadowTree) !! getSurfaceId shadowTree = None))
      as [_|Hsome]; [|by rewrite lookup_empty in Hsome].
    rewrite lookup_insert_eq, delete_insert_id by apply lookup_empty.
    by rewrite decide_True.
Qed.
End RegistryRoundTrips.

Import Scenes.

(** ** The further theorems at concrete trees *)

(** X1 at the children of [P[A]] and [P[B, A]]. *)
Lemma removes_then_inserts_rebuild_siblings_witness :
  stages (calculateShadowViewMutations 0) (viewOf 1 0)
    (sliceChildShadowNodeViewPairs prependOld) (sliceChildShadowNodeViewPairs prependNew)
  = Done (mkAccumulators [CreateMutation (viewOf 11 0)] []
            [InsertMutation (viewOf 1 0) (viewOf 11 0) 0;
             InsertMutation (viewOf 1 0) (viewOf 10 0) 1]
            [RemoveMutation (viewOf 1 0) (viewOf 10 0) 0] [] [] [])
  /\ replaySiblings
       (tagsOf (reorderInPlaceIfNeeded (sliceChildShadowNodeViewPairs prependOld)))
       (reverse [RemoveMutation (viewOf 1 0) (viewOf 10 0) 0]
        ++ [InsertMutation (viewOf 1 0) (viewOf 11 0) 0;
            InsertMutation (viewOf 1 0) (viewOf 10 0) 1])
     = Some (tagsOf (reorderInPlaceIfNeeded (sliceChildShadowNodeViewPairs prependNew))).
Proof.
  assert (stages (calculateShadowViewMutations 0) (viewOf 1 0)
            (sliceChildShadowNodeViewPairs prependOld)
            (sliceChildShadowNodeViewPairs prependNew)
          = Done (mkAccumulators [CreateMutation (viewOf 11 0)] []
                    [InsertMutation (viewOf 1 0) (viewOf 11 0) 0;
                     InsertMutation (viewOf 1 0) (viewOf 10 0) 1]
                    [RemoveMutation (viewOf 1 0) (viewOf 10 0) 0] [] [] [])) as E
    by (vm_compute; reflexivity).
  split; [exact E|].
  exact (removes_then_inserts_rebuild_siblings _ _ _ _ _ E).
Defined.

(** X2 at the children of [R[C, A[X]]] and [R[A[Y]]], for C. *)
Lemma delete_iff_tag_gone_witness :
  stages (calculateShadowViewMutations 0) (viewOf 1 0)
    (sliceChildShadowNodeViewPairs staleOld) (sliceChildShadowNodeViewPairs staleNew)
  = Done (mkAccumulators [] [DeleteMutation (viewOf 9 0)]
            [InsertMutation (viewOf 1 0) (viewOf 10 0) 0]
            [RemoveMutation (viewOf 1 0) (viewOf 9 0) 0;
             RemoveMutation (viewOf 1 0) (viewOf 10 0) 1] [] [] [])
  /\ DeleteMutation (viewOf 9 0) ∈ [DeleteMutation (viewOf 9 0)].
Proof.
  assert (stages (calculateShadowViewMutations 0) (viewOf 1 0)
            (sliceChildShadowNodeViewPairs staleOld) (sliceChildShadowNodeViewPairs staleNew)
          = Done (mkAccumulators [] [DeleteMutation (viewOf 9 0)]
                    [InsertMutation (viewOf 1 0) (viewOf 10 0) 0]
                    [RemoveMutation (viewOf 1 0) (viewOf 9 0) 0;
                     RemoveMutation (viewOf 1 0) (viewOf 10 0) 1] [] [] [])) as E
    by (vm_compute; reflexivity).
  split; [exact E|].
  assert (mkPair (viewOf 9 0) (plainView 9 0 []) ∈ sliceChildShadowNodeViewPairs staleOld)
    as Hin by (vm_compute; by left).
  assert (tag (shadowView (mkPair (viewOf 9 0) (plainView 9 0 []))) <> 0%Z) as Hnz
    by discriminate.
  apply (proj1 (delete_iff_tag_gone _ _ _ _ _ (mkPair (viewOf 9 0) (plainView 9 0 []))
                  E Hin Hnz)).
  change (9%Z ∉ [10%Z]). intros Hno. apply list_elem_of_singleton in Hno. discriminate.
Defined.

(** X3 at the children of [P[A]] and [P[B, A]], for B. *)
Lemma create_for_fresh_tag_witness :
  stages (calculateShadowViewMutations 0) (viewOf 1 0)
    (sliceChildShadowNodeViewPairs prependOld) (sliceChildShadowNodeViewPairs prependNew)
  = Done (mkAccumulators [CreateMutation (viewOf 11 0)] []
            [InsertMutation (viewOf 1 0) (viewOf 11 0) 0;
             InsertMutation (viewOf 1 0) (viewOf 10 0) 1]
            [RemoveMutation (viewOf 1 0) (viewOf 10 0) 0] [] [] [])
  /\ CreateMutation (viewOf 11 0) ∈ [CreateMutation (viewOf 11 0)].
Proof.
  assert (stages (calculateShadowViewMutations 0) (viewOf 1 0)
            (sliceChildShadowNodeViewPairs prependOld)
            (sliceChildShadowNodeViewPairs prependNew)
          = Done (mkAccumulators [CreateMutation (viewOf 11 0)] []
                    [InsertMutation (viewOf 1 0) (viewOf 11 0) 0;
                     InsertMutation (viewOf 1 0) (viewOf 10 0) 1]
                    [RemoveMutation (viewOf 1 0) (viewOf 10 0) 0] [] [] [])) as E
    by (vm_compute; reflexivity).
  split; [exact E|].
  assert (mkPair (viewOf 11 0) (plainView 11 0 []) ∈ sliceChildShadowNodeViewPairs prependNew)
    as Hin by (vm_compute; by left).
  apply (create_for_fresh_tag _ _ _ _ _ (mkPair (viewOf 11 0) (plainView 11 0 [])) E Hin).
  change (11%Z ∉ [10%Z]). intros Hno. apply list_elem_of_singleton in Hno. discriminate.
Defined.

(** X4 at the children of a root whose only child gets other props. *)
Lemma update_iff_aligned_and_changed_witness :
  stages (calculateShadowViewMutations 0) (viewOf 1 0)
    (sliceChildShadowNodeViewPairs restyledOld) (sliceChildShadowNodeViewPairs restyledNew)
  = Done (mkAccumulators [] [] [] []
            [UpdateMutation (viewOf 1 0) (viewOf 10 0) (viewOf 10 5) 0] [] [])
  /\ UpdateMutation (viewOf 1 0) (viewOf 10 0) (viewOf 10 5) 0
     ∈ [UpdateMutation (viewOf 1 0) (viewOf 10 0) (viewOf 10 5) 0].
Proof.
  assert (stages (calculateShadowViewMutations 0) (viewOf 1 0)
            (sliceChildShadowNodeViewPairs restyledOld)
            (sliceChildShadowNodeViewPairs restyledNew)
          = Done (mkAccumulators [] [] [] []
                    [UpdateMutation (viewOf 1 0) (viewOf 10 0) (viewOf 10 5) 0] [] [])) as E
    by (vm_compute; reflexivity).
  split; [exact E|].
  apply (proj2 (update_iff_aligned_and_changed _ _ _ _ _
                  (UpdateMutation (viewOf 1 0) (viewOf 10 0) (viewOf 10 5) 0) E)).
  exists 0, (mkPair (viewOf 10 0) (plainView 10 0 [])),
    (mkPair (viewOf 10 5) (plainView 10 5 [])).
  repeat split; vm_compute; reflexivity.
Defined.

(** X5 at [R[C, A[X]]] and [R[A[Y]]], for the [Delete] of C. *)
Lemma delete_after_remove_witness :
  diffRoots emptyView staleOld staleNew
  = Done ([RemoveMutation (viewOf 1 0) (viewOf 10 0) 1;
           RemoveMutation (viewOf 1 0) (viewOf 9 0) 0]
          ++ DeleteMutation (viewOf 9 0) :: [InsertMutation (viewOf 1 0) (viewOf 10 0) 0])
  /\ exists parent index,
       RemoveMutation parent (viewOf 9 0) index
         ∈ [RemoveMutation (viewOf 1 0) (viewOf 10 0) 1;
            RemoveMutation (viewOf 1 0) (viewOf 9 0) 0].
Proof.
  assert (diffRoots emptyView staleOld staleNew
          = Done ([RemoveMutation (viewOf 1 0) (viewOf 10 0) 1;
                   RemoveMutation (viewOf 1 0) (viewOf 9 0) 0]
                  ++ DeleteMutation (viewOf 9 0)
                     :: [InsertMutation (viewOf 1 0) (viewOf 10 0) 0])) as E
    by (vm_compute; reflexivity).
  split; [exact E|].
  exact (delete_after_remove emptyView staleOld staleNew _ _ _ _ E eq_refl).
Defined.

(** X6 at [P[A]] and [P[B, A]], for the [Create] of B. *)
Lemma create_is_followed_by_insert_witness :
  diffRoots emptyView prependOld prependNew
  = Done ([RemoveMutation (viewOf 1 0) (viewOf 10 0) 0]
          ++ CreateMutation (viewOf 11 0)
             :: [InsertMutation (viewOf 1 0) (viewOf 11 0) 0;
                 InsertMutation (viewOf 1 0) (viewOf 10 0) 1])
  /\ exists parent index,
       InsertMutation parent (viewOf 11 0) index
         ∈ [InsertMutation (viewOf 1 0) (viewOf 11 0) 0;
            InsertMutation (viewOf 1 0) (viewOf 10 0) 1].
Proof.
  assert (diffRoots emptyView prependOld prependNew
          = Done ([RemoveMutation (viewOf 1 0) (viewOf 10 0) 0]
                  ++ CreateMutation (viewOf 11 0)
                     :: [InsertMutation (viewOf 1 0) (viewOf 11 0) 0;
                         InsertMutation (viewOf 1 0) (viewOf 10 0) 1])) as E
    by (vm_compute; reflexivity).
  split; [exact E|].
  exact (create_is_followed_by_insert emptyView prependOld prependNew _ _ _ _ E eq_refl).
Defined.

(** X7 at a root that gets other props, as its only child does. *)
Lemma root_update_then_well_formed_witness :
  diffRoots emptyView restyledOld restyledNew
  = Done [UpdateMutation emptyView (viewOf 1 0) (viewOf 1 7) (-1);
          UpdateMutation (viewOf 1 0) (viewOf 10 0) (viewOf 10 5) 0]
  /\ exists added,
       [UpdateMutation emptyView (viewOf 1 0) (viewOf 1 7) (-1);
        UpdateMutation (viewOf 1 0) (viewOf 10 0) (viewOf 10 5) 0]
       = rootUpdate emptyView restyledOld restyledNew ++ added
       /\ Forall wellFormedMutation added.
Proof.
  assert (diffRoots emptyView restyledOld restyledNew
          = Done [UpdateMutation emptyView (viewOf 1 0) (viewOf 1 7) (-1);
                  UpdateMutation (viewOf 1 0) (viewOf 10 0) (viewOf 10 5) 0]) as E
    by (vm_compute; reflexivity).
  split; [exact E|].
  exact (root_update_then_well_formed emptyView restyledOld restyledNew _ E).
Defined.

(** X8 at [P[A]] and [P[B, A]], for the [Insert] of B. *)
Lemma mutations_name_views_of_the_trees_witness :
  diffRoots emptyView prependOld prependNew
  = Done [RemoveMutation (viewOf 1 0) (viewOf 10 0) 0; CreateMutation (viewOf 11 0);
          InsertMutation (viewOf 1 0) (viewOf 11 0) 0;
          InsertMutation (viewOf 1 0) (viewOf 10 0) 1]
  /\ (InsertMutation (viewOf 1 0) (viewOf 11 0) 0
        ∈ rootUpdate emptyView prependOld prependNew
      \/ (viewsFrom (viewOfProjection prependOld) (viewOfProjection prependNew)
            (InsertMutation (viewOf 1 0) (viewOf 11 0) 0)
          /\ parentFrom
               (fun view =>
                  view = ShadowView_of prependOld
                  \/ viewOfProjection prependOld view \/ viewOfProjection prependNew view)
               (InsertMutation (viewOf 1 0) (viewOf 11 0) 0))).
Proof.
  assert (diffRoots emptyView prependOld prependNew
          = Done [RemoveMutation (viewOf 1 0) (viewOf 10 0) 0; CreateMutation (viewOf 11 0);
                  InsertMutation (viewOf 1 0) (viewOf 11 0) 0;
                  InsertMutation (viewOf 1 0) (viewOf 10 0) 1]) as E
    by (vm_compute; reflexivity).
  split; [exact E|].
  apply (mutations_name_views_of_the_trees emptyView prependOld prependNew _ _ E).
  do 2 right. by left.
Defined.

(** X9 at the first mount of [R[A[X], B]]. *)
Lemma first_mount_creates_and_inserts_witness :
  sliceChildShadowNodeViewPairs bareRoot = []
  /\ diffRoots emptyView bareRoot mounted
     = Done [CreateMutation (viewOf 10 0); CreateMutation (viewOf 11 0);
             CreateMutation (viewOf 20 0); InsertMutation (viewOf 10 0) (viewOf 20 0) 0;
             InsertMutation (viewOf 1 0) (viewOf 10 0) 0;
             InsertMutation (viewOf 1 0) (viewOf 11 0) 1]
  /\ exists added,
       [CreateMutation (viewOf 10 0); CreateMutation (viewOf 11 0);
        CreateMutation (viewOf 20 0); InsertMutation (viewOf 10 0) (viewOf 20 0) 0;
        InsertMutation (viewOf 1 0) (viewOf 10 0) 0;
        InsertMutation (viewOf 1 0) (viewOf 11 0) 1]
       = rootUpdate emptyView bareRoot mounted ++ added
       /\ Forall isCreateOrInsert added.
Proof.
  assert (sliceChildShadowNodeViewPairs bareRoot = []) as Hbare by (vm_compute; reflexivity).
  assert (diffRoots emptyView bareRoot mounted
          = Done [CreateMutation (viewOf 10 0); CreateMutation (viewOf 11 0);
                  CreateMutation (viewOf 20 0);
                  InsertMutation (viewOf 10 0) (viewOf 20 0) 0;
                  InsertMutation (viewOf 1 0) (viewOf 10 0) 0;
                  InsertMutation (viewOf 1 0) (viewOf 11 0) 1]) as E
    by (vm_compute; reflexivity).
  split; [exact Hbare|]. split; [exact E|].
  exact (first_mount_creates_and_inserts emptyView bareRoot mounted _ Hbare E).
Defined.

(** X10 at the teardown of [R[A[X], B]]. *)
Lemma teardown_removes_and_deletes_witness :
  sameFamily mounted bareRoot = true
  /\ sliceChildShadowNodeViewPairs bareRoot = []
  /\ exists added,
       diffRoots emptyView mounted bareRoot
       = Done (rootUpdate emptyView mounted bareRoot ++ added)
       /\ Forall isRemoveOrDelete added.
Proof.
  assert (sameFamily mounted bareRoot = true) as Hfamily by (vm_compute; reflexivity).
  assert (sliceChildShadowNodeViewPairs bareRoot = []) as Hbare by (vm_compute; reflexivity).
  split; [exact Hfamily|]. split; [exact Hbare|].
  exact (teardown_removes_and_deletes emptyView mounted bareRoot Hfamily Hbare).
Defined.

(** X11 at the teardown of [R[A[X], B]], for X. *)
Lemma teardown_is_complete_witness :
  diffRoots emptyView mounted bareRoot
  = Done [RemoveMutation (viewOf 10 0) (viewOf 20 0) 0; DeleteMutation (viewOf 20 0);
          RemoveMutation (viewOf 1 0) (viewOf 11 0) 1;
          RemoveMutation (viewOf 1 0) (viewOf 10 0) 0;
          DeleteMutation (viewOf 10 0); DeleteMutation (viewOf 11 0)]
  /\ InProjection mounted (mkPair (viewOf 20 0) (plainView 20 0 []))
  /\ DeleteMutation (viewOf 20 0)
       ∈ [RemoveMutation (viewOf 10 0) (viewOf 20 0) 0; DeleteMutation (viewOf 20 0);
          RemoveMutation (viewOf 1 0) (viewOf 11 0) 1;
          RemoveMutation (viewOf 1 0) (viewOf 10 0) 0;
          DeleteMutation (viewOf 10 0); DeleteMutation (viewOf 11 0)].
Proof.
  assert (sliceChildShadowNodeViewPairs bareRoot = []) as Hbare by (vm_compute; reflexivity).
  assert (diffRoots emptyView mounted bareRoot
          = Done [RemoveMutation (viewOf 10 0) (viewOf 20 0) 0; DeleteMutation (viewOf 20 0);
                  RemoveMutation (viewOf 1 0) (viewOf 11 0) 1;
                  RemoveMutation (viewOf 1 0) (viewOf 10 0) 0;
                  DeleteMutation (viewOf 10 0); DeleteMutation (viewOf 11 0)]) as E
    by (vm_compute; reflexivity).
  assert (InProjection mounted (mkPair (viewOf 20 0) (plainView 20 0 []))) as Hp.
  { apply (InProjection_below mounted
             (mkPair (viewOf 10 0) (plainView 10 0 [plainView 20 0 []]))).
    - apply InProjection_child. vm_compute. by left.
    - vm_compute. by left. }
  split; [exact E|]. split; [exact Hp|].
  exact (proj1 (teardown_is_complete emptyView mounted bareRoot _ _ Hbare E Hp)).
Defined.

(** X12 at the first mount of [R[A[X], B]], for X. *)
Lemma first_mount_is_complete_witness :
  diffRoots emptyView bareRoot mounted
  = Done [CreateMutation (viewOf 10 0); CreateMutation (viewOf 11 0);
          CreateMutation (viewOf 20 0); InsertMutation (viewOf 10 0) (viewOf 20 0) 0;
          InsertMutation (viewOf 1 0) (viewOf 10 0) 0;
          InsertMutation (viewOf 1 0) (viewOf 11 0) 1]
  /\ InProjection mounted (mkPair (viewOf 20 0) (plainView 20 0 []))
  /\ CreateMutation (viewOf 20 0)
       ∈ [CreateMutation (viewOf 10 0); CreateMutation (viewOf 11 0);
          CreateMutation (viewOf 20 0); InsertMutation (viewOf 10 0) (viewOf 20 0) 0;
          InsertMutation (viewOf 1 0) (viewOf 10 0) 0;
          InsertMutation (viewOf 1 0) (viewOf 11 0) 1].
Proof.
  assert (sliceChildShadowNodeViewPairs bareRoot = []) as Hbare by (vm_compute; reflexivity).
  assert (diffRoots emptyView bareRoot mounted
          = Done [CreateMutation (viewOf 10 0); CreateMutation (viewOf 11 0);
                  CreateMutation (viewOf 20 0);
                  InsertMutation (viewOf 10 0) (viewOf 20 0) 0;
                  InsertMutation (viewOf 1 0) (viewOf 10 0) 0;
                  InsertMutation (viewOf 1 0) (viewOf 11 0) 1]) as E
    by (vm_compute; reflexivity).
  assert (InProjection mounted (mkPair (viewOf 20 0) (plainView 20 0 []))) as Hp.
  { apply (InProjection_below mounted
             (mkPair (viewOf 10 0) (plainView 10 0 [plainView 20 0 []]))).
    - apply InProjection_child. vm_compute. by left.
    - vm_compute. by left. }
  split; [exact E|]. split; [exact Hp|].
  exact (proj1 (first_mount_is_complete emptyView bareRoot mounted _ _ Hbare E Hp)).
Defined.

(** X13 at the first mount of a root whose child has the tag 0. *)
Lemma first_mount_zero_tag_aborts_witness :
  sameFamily bareRoot zeroTagged = true
  /\ mkPair (viewOf 0 0) (plainView 0 0 []) ∈ sliceChildShadowNodeViewPairs zeroTagged
  /\ diffRoots emptyView bareRoot zeroTagged = AssertionFailed.
Proof.
  assert (sameFamily bareRoot zeroTagged = true) as Hfamily by (vm_compute; reflexivity).
  assert (sliceChildShadowNodeViewPairs bareRoot = []) as Hbare by (vm_compute; reflexivity).
  assert (mkPair (viewOf 0 0) (plainView 0 0 []) ∈ sliceChildShadowNodeViewPairs zeroTagged)
    as Hin by (vm_compute; by left).
  split; [exact Hfamily|]. split; [exact Hin|].
  exact (first_mount_zero_tag_aborts emptyView bareRoot zeroTagged _ Hfamily Hbare Hin
           eq_refl).
Defined.

(** X14 at two roots of different families. *)
Lemma diffRoots_outcome_witness :
  sameFamily bareRoot otherRoot = false
  /\ diffRoots emptyView bareRoot otherRoot = AssertionFailed.
Proof.
  assert (sameFamily bareRoot otherRoot = false) as Hfamily by (vm_compute; reflexivity).
  split; [exact Hfamily|].
  exact (proj1 (proj2 (diffRoots_outcome emptyView bareRoot otherRoot)) Hfamily).
Defined.


(** X16 at a map that holds the keys 7 and 8, after the slot of 7 was
    erased. *)
Lemma find_after_erase_witness :
  TinyMap.find 7 [(7%Z, tt); (8%Z, tt)] = Some 0
  /\ TinyMap.find 8 (TinyMap.erase 0 [(7%Z, tt); (8%Z, tt)])
     = TinyMap.find 8 [(7%Z, tt); (8%Z, tt)].
Proof.
  assert (TinyMap.find 7 [(7%Z, tt); (8%Z, tt)] = Some 0) as Hfind by reflexivity.
  assert (7%Z <> 0%Z) as Hkey by discriminate.
  assert (8%Z <> 0%Z) as Hk by discriminate.
  assert (8%Z <> 7%Z) as Hne by discriminate.
  split; [exact Hfind|].
  exact (proj1 (find_after_erase [(7%Z, tt); (8%Z, tt)] 7 0 Hfind Hkey) 8%Z Hk Hne).
Defined.

(** X17 at the children of [P[B, A]], whose order indices are zero. *)
Lemma reorder_fixpoints_witness :
  StronglySorted (fun p q => (orderOf p <= orderOf q)%Z)
    (sliceChildShadowNodeViewPairs prependNew)
  /\ reorderInPlaceIfNeeded (sliceChildShadowNodeViewPairs prependNew)
     = sliceChildShadowNodeViewPairs prependNew.
Proof.
  assert (StronglySorted (fun p q => (orderOf p <= orderOf q)%Z)
            (sliceChildShadowNodeViewPairs prependNew)) as Hsorted.
  { rewrite (proj2 prepend_slices). repeat constructor; by vm_compute. }
  split; [exact Hsorted|].
  exact (proj1 (reorder_fixpoints (sliceChildShadowNodeViewPairs prependNew)) Hsorted).
Defined.

(** X19 at the root with a flattened child, for the view below that
    child. *)
Lemma slice_pairs_form_views_witness :
  mkPair (viewOf 20 0) (plainView 20 0 []) ∈ sliceChildShadowNodeViewPairs flattened
  /\ tag (shadowView (mkPair (viewOf 20 0) (plainView 20 0 [])))
     = getTag (shadowNode (mkPair (viewOf 20 0) (plainView 20 0 [])))
  /\ shadowNode (mkPair (viewOf 20 0) (plainView 20 0 [])) ∈ descendants flattened
  /\ depth (shadowNode (mkPair (viewOf 20 0) (plainView 20 0 []))) < depth flattened.
Proof.
  assert (mkPair (viewOf 20 0) (plainView 20 0 []) ∈ sliceChildShadowNodeViewPairs flattened)
    as Hin by (vm_compute; by left).
  split; [exact Hin|].
  destruct (slice_pairs_form_views flattened _ Hin) as (_ & _ & Htag & Hbelow & Hdepth & _).
  split; [exact Htag|]. split; [exact Hbelow | exact Hdepth].
Defined.

(** X20 at the tree [R[A[X], B]]. *)
Lemma sliced_siblings_have_distinct_tags_witness :
  NoDup (descendantTags mounted)
  /\ NoDup (tagsOf (sliceChildShadowNodeViewPairs mounted)).
Proof.
  assert (NoDup (descendantTags mounted)) as Hnd.
  { change (NoDup [10%Z; 20%Z; 11%Z]).
    apply (bool_decide_unpack (NoDup [10%Z; 20%Z; 11%Z])). vm_compute. exact I. }
  split; [exact Hnd|].
  exact (proj1 (sliced_siblings_have_distinct_tags mounted Hnd)).
Defined.

(** X23 at a registry that holds surface 1, for a tree of surface 2. *)
Lemma remove_undoes_add_witness :
  registryOf [(1%Z, "first")] !! 2%Z = None
  /\ ShadowTreeRegistry.remove 2
       (ShadowTreeRegistry.add fst (2%Z, "second") (registryOf [(1%Z, "first")]))
     = registryOf [(1%Z, "first")].
Proof.
  assert (registryOf [(1%Z, "first")] !! 2%Z = None) as Habsent by (vm_compute; reflexivity).
  split; [exact Habsent|].
  exact (proj1 (remove_undoes_add fst (2%Z, "second") (registryOf [(1%Z, "first")]))
           Habsent).
Defined.

(** X25 at a search for the second of three trees. *)
Lemma enumerate_stops_witness :
  ShadowTreeRegistryOps.enumerateOver
    (fun (seen : list Z) (tree : Z) => (seen ++ [tree], (tree =? 2)%Z))
    ([1%Z] ++ 2%Z :: [3%Z]) []
  = [1%Z; 2%Z].
Proof.
  apply (enumerate_stops
           (fun (seen : list Z) (tree : Z) => (seen ++ [tree], (tree =? 2)%Z))
           [1%Z] [3%Z] 2%Z []).
  - intros s tree Hin. apply list_elem_of_singleton in Hin as ->. reflexivity.
  - intros s. reflexivity.
Defined.
